(** * Instagram MCP adapter: rate limiter, credentials and request layer

    A shallow embedding of
      - [core/rate-limiter.ts]  (class [RateLimiter]),
      - [core/auth.ts]          (class [InstagramAuth]),
      - [core/client.ts]        (class [InstagramClient]),
      - the media-processing polling loops of the content tools,
      - the response handling of the Contabo adapter,
    followed by the properties of the specification that concern them.

    Conventions of the embedding.
      - A JavaScript [number] that the code only ever fills with integers
        or with the result of [parseInt] is a [number]: an integer [Num z]
        or [NaN].  Comparisons with [NaN] are false, arithmetic on [NaN]
        is [NaN].  What is read from a response header ([parseInt], and
        the product that converts the reset time to milliseconds) is
        rounded to the nearest double, with 53 significant bits; the
        exponent of a double is not bounded here, so a value beyond the
        largest double (about 1.8e308), which JavaScript reads as
        [Infinity], is outside the embedding.  Counters and clock
        readings are integers, on which the arithmetic of the code is
        exact below 2^53.
      - [Date.now()] is an effect: the world carries the sequence of values
        the clock will return and the count of readings made so far.
      - Objects held by reference (the buckets stored in the [Map]) are
        modelled by the map itself: a mutation through the reference is an
        update of the map at the same key, and a read through the reference
        after a call that may have mutated it looks the key up again.
      - A string is a [string] of 8-bit code units. *)

From Stdlib Require Import ZArith Lia Ascii String HexadecimalString.
From Stdlib Require Import HexadecimalFacts HexadecimalPos.
From stdpp Require Import gmap strings list fin_maps pretty.

Set Warnings "-register-all".

Local Open Scope Z_scope.
Local Open Scope string_scope.

(** ** JavaScript numbers *)

Inductive number : Type :=
| Num (z : Z)
| NaN.

Module Number.

Definition gt (a b : number) : bool :=
  match a, b with
  | Num x, Num y => bool_decide (x > y)
  | _, _ => false
  end.

Definition ge (a b : number) : bool :=
  match a, b with
  | Num x, Num y => bool_decide (x >= y)
  | _, _ => false
  end.

Definition le (a b : number) : bool :=
  match a, b with
  | Num x, Num y => bool_decide (x <= y)
  | _, _ => false
  end.

(** [a === b] on numbers. *)
Definition strict_eq (a b : number) : bool :=
  match a, b with
  | Num x, Num y => bool_decide (x = y)
  | _, _ => false
  end.

Definition sub (a b : number) : number :=
  match a, b with
  | Num x, Num y => Num (x - y)
  | _, _ => NaN
  end.

(** The double nearest to an integer, ties to even: the integer is kept
    when it fits in 53 bits, and its low bits are rounded away beyond. *)
Definition to_double (z : Z) : Z :=
  let a := Z.abs z in
  let drop := Z.log2 a - 52 in
  if bool_decide (drop <= 0) then z else
  let q := Z.shiftr a drop in
  let r := a - Z.shiftl q drop in
  let half := Z.shiftl 1 (drop - 1) in
  let q :=
    if bool_decide (r < half) then q
    else if bool_decide (half < r) then q + 1
    else if Z.even q then q else q + 1 in
  Z.sgn z * Z.shiftl q drop.

(** [a * b] where an operand comes from [parseInt]: the product is
    rounded. *)
Definition mul (a b : number) : number :=
  match a, b with
  | Num x, Num y => Num (to_double (x * y))
  | _, _ => NaN
  end.

(** [Math.max(a, b)]. *)
Definition max (a b : number) : number :=
  match a, b with
  | Num x, Num y => Num (Z.max x y)
  | _, _ => NaN
  end.

(** [Math.floor(a / d)] for a positive integer literal [d]. *)
Definition floor_div (a : number) (d : Z) : number :=
  match a with
  | Num x => Num (x `div` d)
  | NaN => NaN
  end.

(** [a % d] for a positive integer literal [d]: the sign follows the
    dividend. *)
Definition rem (a : number) (d : Z) : number :=
  match a with
  | Num x => Num (x `rem` d)
  | NaN => NaN
  end.

(** Conversion to a string, as in a template literal. *)
Definition to_string (a : number) : string :=
  match a with
  | Num x => pretty x
  | NaN => "NaN"
  end.

(** *** [parseInt(s, 10)] *)

(** The white space and line terminators that fit in a code unit of 8
    bits: TAB, LF, VT, FF, CR, SP and NBSP. *)
Definition is_white_space (a : ascii) : bool :=
  let n := nat_of_ascii a in
  bool_decide (n = 9 ∨ n = 10 ∨ n = 11 ∨ n = 12 ∨ n = 13 ∨ n = 32
               ∨ n = 160)%nat.

Definition digit_value (a : ascii) : option Z :=
  let n := Z.of_nat (nat_of_ascii a) in
  if bool_decide (48 <= n <= 57) then Some (n - 48) else None.

Fixpoint skip_white_space (s : string) : string :=
  match s with
  | String a s' => if is_white_space a then skip_white_space s' else s
  | EmptyString => s
  end.

(** Longest prefix of decimal digits, accumulated from the left; [None]
    when no digit has been read. *)
Fixpoint read_digits (acc : option Z) (s : string) : option Z :=
  match s with
  | String a s' =>
      match digit_value a with
      | Some d => read_digits (Some (from_option (λ v, 10 * v) 0 acc + d)) s'
      | None => acc
      end
  | EmptyString => acc
  end.

Definition parseInt (s : string) : number :=
  let s := skip_white_space s in
  let '(sign, s) :=
    match s with
    | String "-" s' => (-1, s')
    | String "+" s' => (1, s')
    | _ => (1, s)
    end in
  match read_digits None s with
  | Some v => Num (to_double (sign * v))
  | None => NaN
  end.

End Number.

(** ** Rate-limit types ([core/types.ts]) *)

(** [RateLimitCategory = keyof RateLimits]. *)
Inductive RateLimitCategory : Type :=
| read | write | content_publish | stories | messages | follows | likes.

Global Instance RateLimitCategory_eq_dec : EqDecision RateLimitCategory.
Proof. solve_decision. Defined.

Definition RateLimitCategory_index (c : RateLimitCategory) : nat :=
  match c with
  | read => 0 | write => 1 | content_publish => 2 | stories => 3
  | messages => 4 | follows => 5 | likes => 6
  end%nat.

(** The keys of [DEFAULT_LIMITS] in the order of [Object.entries]. *)
Definition categories : list RateLimitCategory :=
  [read; write; content_publish; stories; messages; follows; likes].

Global Instance RateLimitCategory_countable : Countable RateLimitCategory.
Proof.
  refine (inj_countable' RateLimitCategory_index
            (λ n, nth n categories read) _).
  intros []; reflexivity.
Defined.

Record RateLimitBucket : Type := mkBucket {
  limit : number;
  remaining : number;
  reset_at : number;
  window_seconds : number;
}.

Module RateLimitConfig.
Record t : Type := mk { limit : Z; window_seconds : Z }.
End RateLimitConfig.

Definition DEFAULT_LIMITS (c : RateLimitCategory) : RateLimitConfig.t :=
  match c with
  | read => RateLimitConfig.mk 200 3600
  | write => RateLimitConfig.mk 25 3600
  | content_publish => RateLimitConfig.mk 25 86400
  | stories => RateLimitConfig.mk 100 86400
  | messages => RateLimitConfig.mk 100 86400
  | follows => RateLimitConfig.mk 60 3600
  | likes => RateLimitConfig.mk 60 3600
  end.

(** Response or request headers: [Record<string, string>]. *)
Abbreviation Headers := (gmap string string).

(** ** Values exchanged with the HTTP layer *)

(** Untyped JavaScript values ([unknown], response bodies, error details). *)
Inductive Json : Type :=
| JUndefined
| JNull
| JBool (b : bool)
| JNumber (n : number)
| JString (s : string)
| JArray (items : list Json)
| JObject (props : list (string * Json)).

Module Js.

(** Truthiness, as tested by [if (v)], [!v], [a || b]. *)
Definition truthy (v : Json) : bool :=
  match v with
  | JUndefined | JNull => false
  | JBool b => b
  | JNumber (Num z) => negb (bool_decide (z = 0))
  | JNumber NaN => false
  | JString s => negb (bool_decide (s = ""))
  | JArray _ | JObject _ => true
  end.

(** [a || b]. *)
Definition or (a b : Json) : Json := if truthy a then a else b.

Fixpoint lookup_prop (k : string) (props : list (string * Json)) : Json :=
  match props with
  | [] => JUndefined
  | (k', v) :: rest => if bool_decide (k' = k) then v else lookup_prop k rest
  end.

(** [v?.k]: the property of an object, [undefined] on anything else. *)
Definition prop (k : string) (v : Json) : Json :=
  match v with
  | JObject props => lookup_prop k props
  | _ => JUndefined
  end.

(** Assignment of a property in an object literal built by spreading:
    an existing key keeps its position and takes the new value, a new
    key is appended. *)
Fixpoint set_prop (k : string) (v : Json) (props : list (string * Json))
  : list (string * Json) :=
  match props with
  | [] => [(k, v)]
  | (k', v') :: rest =>
      if bool_decide (k' = k) then (k, v) :: rest
      else (k', v') :: set_prop k v rest
  end.

(** [{ ...a, ...b }] on property lists. *)
Definition spread (a b : list (string * Json)) : list (string * Json) :=
  foldl (λ acc kv, set_prop kv.1 kv.2 acc) a b.

(** The own enumerable properties copied by [...v]: those of an object,
    the indexed elements of an array, the indexed characters of a
    string, none for the other values. *)
Definition own_props (v : Json) : list (string * Json) :=
  match v with
  | JObject props => props
  | JArray items => imap (λ i x, (pretty i, x)) items
  | JString s =>
      imap (λ i a, (pretty i, JString (String a EmptyString)))
           (list_ascii_of_string s)
  | _ => []
  end.

Definition of_option_string (o : option string) : Json :=
  match o with
  | Some s => JString s
  | None => JUndefined
  end.

(** [String(v)], the conversion made by a template literal. *)
Fixpoint to_string (v : Json) : string :=
  match v with
  | JUndefined => "undefined"
  | JNull => "null"
  | JBool true => "true"
  | JBool false => "false"
  | JNumber n => Number.to_string n
  | JString s => s
  | JArray items =>
      (fix join (l : list Json) : string :=
         let element x :=
           match x with
           | JUndefined | JNull => ""
           | _ => to_string x
           end in
         match l with
         | [] => ""
         | [x] => element x
         | x :: rest => element x ++ "," ++ join rest
         end) items
  | JObject _ => "[object Object]"
  end.

(** Truthiness of an optional value ([T | undefined]). *)
Definition truthy_opt (o : option Json) : bool := from_option truthy false o.

End Js.

Inductive ApiType : Type := graph | private.

Definition ApiType_to_json (api : ApiType) : Json :=
  match api with
  | graph => JString "graph"
  | private => JString "private"
  end.

Inductive Method : Type := GET | POST | DELETE.

(** What is handed to the axios instance of the chosen API. *)
Module Request.
Record t : Type := mk {
  method : Method;
  api : ApiType;
  url : string;
  params : Json;
  data : Json;
  headers : Headers;
}.
End Request.

Module AxiosResponse.
Record t : Type := mk {
  status : Z;
  data : Json;
  headers : Headers;
}.
End AxiosResponse.

(** An error for which [axios.isAxiosError] holds; [response] is absent
    when no response was received (network failure, timeout). *)
Module AxiosError.
Record t : Type := mk {
  response : option AxiosResponse.t;
  message : string;
}.
End AxiosError.

(** How the promise returned by the underlying adapter settles, before the
    response interceptor runs. *)
Inductive Rejection : Type :=
| IsAxiosError (error : AxiosError.t)
| NotAxiosError.

Inductive Settled : Type :=
| Fulfilled (response : AxiosResponse.t)
| Rejected (reason : Rejection).

Module ApiError.
Record t : Type := mk {
  code : Json;
  message : Json;
  details : option (list (string * Json));
}.
End ApiError.

(** Values that can be thrown inside the request layer: the object
    literals built by [handleApiError] and the [Error] instances raised by
    the credential getters. *)
Inductive Thrown : Type :=
| ThrowApiError (e : ApiError.t)
| ThrowError (message : string).

(** The outcome of a block that may throw. *)
Inductive Try (A : Type) : Type :=
| Returned (a : A)
| Threw (e : Thrown).
Arguments Returned {A} a.
Arguments Threw {A} e.

Module ApiResponse.
Record t : Type := mk {
  success : bool;
  data : option Json;
  error : option Thrown;
}.
End ApiResponse.

(** ** Credentials ([core/auth.ts], [core/types.ts]) *)

Module InstagramConfig.
Record t : Type := mk {
  access_token : option string;
  business_account_id : option string;
  api_version : string;
  session_id : option string;
  rate_limit_enabled : bool;
}.
End InstagramConfig.

Module GraphApiTokens.
Record t : Type := mk {
  access_token : string;
  expires_at : option number;
  token_type : string;
}.
End GraphApiTokens.

Module PrivateApiTokens.
Record t : Type := mk {
  session_id : string;
  csrf_token : option string;
  user_id : option string;
  expires_at : option number;
}.
End PrivateApiTokens.

Record AuthTokens : Type := mkAuthTokens {
  graph_api : option GraphApiTokens.t;
  private_api : option PrivateApiTokens.t;
}.

(** ** The world: the state of one [InstagramClient] and of its environment *)

Record World : Type := mkWorld {
  (** the value returned by the [n]-th call of [Date.now()], in ms *)
  date_now : nat → Z;
  (** number of calls of [Date.now()] made so far *)
  clock_reads : nat;
  (** how the [n]-th request handed to axios settles *)
  network : nat → Request.t → Settled;
  (** the requests handed to axios so far, most recent first *)
  requests : list Request.t;
  (** [RateLimiter.buckets] *)
  buckets : gmap RateLimitCategory RateLimitBucket;
  (** [RateLimiter.enabled] *)
  enabled : bool;
  (** [InstagramAuth.config] *)
  config : InstagramConfig.t;
  (** [InstagramAuth.tokens] *)
  tokens : AuthTokens;
  (** the delays awaited through [setTimeout], in ms, most recent first *)
  sleeps : list Z;
  (** the values written by [console.error], most recent first *)
  console : list Json;
}.

Definition with_clock_reads (n : nat) (w : World) : World :=
  mkWorld (date_now w) n (network w) (requests w) (buckets w) (enabled w)
          (config w) (tokens w) (sleeps w) (console w).

Definition with_requests (rs : list Request.t) (w : World) : World :=
  mkWorld (date_now w) (clock_reads w) (network w) rs (buckets w) (enabled w)
          (config w) (tokens w) (sleeps w) (console w).

Definition with_buckets (bs : gmap RateLimitCategory RateLimitBucket)
    (w : World) : World :=
  mkWorld (date_now w) (clock_reads w) (network w) (requests w) bs (enabled w)
          (config w) (tokens w) (sleeps w) (console w).

Definition with_enabled (e : bool) (w : World) : World :=
  mkWorld (date_now w) (clock_reads w) (network w) (requests w) (buckets w) e
          (config w) (tokens w) (sleeps w) (console w).

Definition with_config (c : InstagramConfig.t) (w : World) : World :=
  mkWorld (date_now w) (clock_reads w) (network w) (requests w) (buckets w)
          (enabled w) c (tokens w) (sleeps w) (console w).

Definition with_tokens (t : AuthTokens) (w : World) : World :=
  mkWorld (date_now w) (clock_reads w) (network w) (requests w) (buckets w)
          (enabled w) (config w) t (sleeps w) (console w).

Definition with_sleeps (l : list Z) (w : World) : World :=
  mkWorld (date_now w) (clock_reads w) (network w) (requests w) (buckets w)
          (enabled w) (config w) (tokens w) l (console w).

Definition with_console (l : list Json) (w : World) : World :=
  mkWorld (date_now w) (clock_reads w) (network w) (requests w) (buckets w)
          (enabled w) (config w) (tokens w) (sleeps w) l.

(** ** The state monad of the methods *)

Definition M (A : Type) : Type := World → A * World.

Global Instance M_ret : MRet M := λ A (a : A) w, (a, w).
Global Instance M_bind : MBind M :=
  λ A B (f : A → M B) (m : M A) w, let '(a, w') := m w in f a w'.

Definition gets {A : Type} (f : World → A) : M A := λ w, (f w, w).
Definition modify (f : World → World) : M unit := λ w, (tt, f w).

(** [if (cond) { body }] with no [else]. *)
Definition when (cond : bool) (body : M unit) : M unit :=
  if cond then body else mret tt.

(** [Date.now()]. *)
Definition Date_now : M Z :=
  λ w, (date_now w (clock_reads w), with_clock_reads (S (clock_reads w)) w).

(** [await new Promise(resolve => setTimeout(resolve, ms))]. *)
Definition sleep (ms : Z) : M unit :=
  modify (λ w, with_sleeps (ms :: sleeps w) w).

Definition console_error (v : Json) : M unit :=
  modify (λ w, with_console (v :: console w) w).

(** Mutation of the bucket object stored under [category]. *)
Definition update_bucket (category : RateLimitCategory)
    (f : RateLimitBucket → RateLimitBucket) : M unit :=
  modify (λ w, with_buckets (alter f category (buckets w)) w).

Definition set_limit (v : number) (b : RateLimitBucket) : RateLimitBucket :=
  mkBucket v (remaining b) (reset_at b) (window_seconds b).
Definition set_remaining (v : number) (b : RateLimitBucket) : RateLimitBucket :=
  mkBucket (limit b) v (reset_at b) (window_seconds b).
Definition set_reset_at (v : number) (b : RateLimitBucket) : RateLimitBucket :=
  mkBucket (limit b) (remaining b) v (window_seconds b).

(** ** [class RateLimiter] ([core/rate-limiter.ts]) *)

Module RateLimiter.

(** The object a bucket reference points to: the entry of the map under
    the same key ([held] is the value read when the reference was
    taken; no method removes a key). *)
Definition deref (category : RateLimitCategory) (held : RateLimitBucket)
  : M RateLimitBucket :=
  gets (λ w, default held (buckets w !! category)).

Definition initializeBuckets : M unit :=
  foldr (λ category rest,
           now ← Date_now;
           let config := DEFAULT_LIMITS category in
           modify (λ w, with_buckets
             (<[category :=
                  {| limit := Num (RateLimitConfig.limit config);
                     remaining := Num (RateLimitConfig.limit config);
                     reset_at :=
                       Num (now + RateLimitConfig.window_seconds config * 1000);
                     window_seconds :=
                       Num (RateLimitConfig.window_seconds config) |}]>
                (buckets w)) w);;
           rest)
        (mret tt) categories.

(** [new RateLimiter(enabled)]. *)
Definition constructor (enabled : bool) : M unit :=
  modify (λ w, with_buckets ∅ (with_enabled enabled w));;
  initializeBuckets.

Definition resetBucket (category : RateLimitCategory) : M unit :=
  let config := DEFAULT_LIMITS category in
  bucket ← gets (λ w, buckets w !! category);
  match bucket with
  | Some _ =>
      update_bucket category
        (set_remaining (Num (RateLimitConfig.limit config)));;
      now ← Date_now;
      update_bucket category
        (set_reset_at
           (Num (now + RateLimitConfig.window_seconds config * 1000)))
  | None => mret tt
  end.

Definition canExecute (category : RateLimitCategory) : M bool :=
  on ← gets enabled;
  if negb on then mret true else
  bucket ← gets (λ w, buckets w !! category);
  match bucket with
  | None => mret true
  | Some bucket =>
      now ← Date_now;
      if Number.ge (Num now) (reset_at bucket) then
        resetBucket category;;
        mret true
      else
        mret (Number.gt (remaining bucket) (Num 0))
  end.

Definition consume (category : RateLimitCategory) : M bool :=
  on ← gets enabled;
  if negb on then mret true else
  bucket ← gets (λ w, buckets w !! category);
  match bucket with
  | None => mret true
  | Some held =>
      now ← Date_now;
      when (Number.ge (Num now) (reset_at held)) (resetBucket category);;
      bucket ← deref category held;
      if Number.le (remaining bucket) (Num 0) then mret false
      else
        update_bucket category
          (λ b, set_remaining (Number.sub (remaining b) (Num 1)) b);;
        mret true
  end.

Definition getWaitTime (category : RateLimitCategory) : M number :=
  on ← gets enabled;
  if negb on then mret (Num 0) else
  bucket ← gets (λ w, buckets w !! category);
  match bucket with
  | None => mret (Num 0)
  | Some bucket =>
      if Number.gt (remaining bucket) (Num 0) then mret (Num 0)
      else
        now ← Date_now;
        let waitTime := Number.sub (reset_at bucket) (Num now) in
        mret (Number.max (Num 0) waitTime)
  end.

(** The body of [getWaitTimeFormatted] once [ms] is known. *)
Definition format_ms (ms : number) : string :=
  if Number.strict_eq ms (Num 0) then "0s" else
  let seconds := Number.floor_div ms 1000 in
  let minutes := Number.floor_div seconds 60 in
  let hours := Number.floor_div minutes 60 in
  if Number.gt hours (Num 0) then
    Number.to_string hours ++ "h " ++
    Number.to_string (Number.rem minutes 60) ++ "m"
  else if Number.gt minutes (Num 0) then
    Number.to_string minutes ++ "m " ++
    Number.to_string (Number.rem seconds 60) ++ "s"
  else Number.to_string seconds ++ "s".

Definition getWaitTimeFormatted (category : RateLimitCategory) : M string :=
  ms ← getWaitTime category;
  mret (format_ms ms).

Definition getBucketStatus (category : RateLimitCategory)
  : M (option RateLimitBucket) :=
  gets (λ w, buckets w !! category).

(** [if (headers[k])]: the header is present and not the empty string. *)
Definition header (k : string) (headers : Headers) : option string :=
  match headers !! k with
  | Some v => if bool_decide (v = "") then None else Some v
  | None => None
  end.

Definition updateFromHeaders (category : RateLimitCategory)
    (headers : Headers) : M unit :=
  bucket ← gets (λ w, buckets w !! category);
  match bucket with
  | None => mret tt
  | Some _ =>
      match header "x-ratelimit-remaining" headers with
      | Some v => update_bucket category (set_remaining (Number.parseInt v))
      | None => mret tt
      end;;
      match header "x-ratelimit-reset" headers with
      | Some v =>
          update_bucket category
            (set_reset_at (Number.mul (Number.parseInt v) (Num 1000)))
      | None => mret tt
      end;;
      match header "x-ratelimit-limit" headers with
      | Some v => update_bucket category (set_limit (Number.parseInt v))
      | None => mret tt
      end
  end.

Definition setEnabled (enabled : bool) : M unit :=
  modify (with_enabled enabled).

Definition isEnabled : M bool := gets enabled.

(** [{ ...bucket }] for every entry: a snapshot, not the live objects. *)
Definition getAllBucketsStatus : M (gmap RateLimitCategory RateLimitBucket) :=
  gets buckets.


End RateLimiter.


(** ** [class InstagramAuth] ([core/auth.ts]) *)

Module InstagramAuth.

(** Truthiness of an optional string ([string | undefined]). *)
Definition truthy (o : option string) : bool :=
  match o with
  | Some s => negb (bool_decide (s = ""))
  | None => false
  end.

Definition initializeTokens : M unit :=
  cfg ← gets config;
  match InstagramConfig.access_token cfg with
  | Some token =>
      when (truthy (Some token))
        (modify (λ w, with_tokens
           (mkAuthTokens
              (Some (GraphApiTokens.mk token None "bearer"))
              (private_api (tokens w))) w))
  | None => mret tt
  end;;
  match InstagramConfig.session_id cfg with
  | Some session =>
      when (truthy (Some session))
        (modify (λ w, with_tokens
           (mkAuthTokens
              (graph_api (tokens w))
              (Some (PrivateApiTokens.mk session None None None))) w))
  | None => mret tt
  end.

(** [new InstagramAuth(config)]. *)
Definition constructor (cfg : InstagramConfig.t) : M unit :=
  modify (λ w, with_tokens (mkAuthTokens None None) (with_config cfg w));;
  initializeTokens.

Definition getGraphApiToken (w : World) : option string :=
  GraphApiTokens.access_token <$> graph_api (tokens w).

Definition getPrivateApiSession (w : World) : option string :=
  PrivateApiTokens.session_id <$> private_api (tokens w).

Definition hasGraphApiAuth (w : World) : bool :=
  truthy (getGraphApiToken w).

Definition hasPrivateApiAuth (w : World) : bool :=
  truthy (getPrivateApiSession w).

Definition isAuthenticated (w : World) : bool :=
  hasGraphApiAuth w || hasPrivateApiAuth w.

(** [ToInt32]: reduction modulo 2^32 into [-2^31, 2^31). *)
Definition to_int32 (z : Z) : Z := (z + 2 ^ 31) `mod` 2 ^ 32 - 2 ^ 31.

(** One iteration of the loop shared by the two generators:
    [hash = ((hash << 5) - hash) + char; hash = hash & hash]. *)
Definition hash_step (hash : Z) (char : ascii) : Z :=
  let hash := to_int32 (Z.shiftl (to_int32 hash) 5) - hash
              + Z.of_nat (nat_of_ascii char) in
  Z.land (to_int32 hash) (to_int32 hash).

Definition hash_of (seed : string) : Z :=
  foldl hash_step 0 (list_ascii_of_string seed).

(** [n.toString(16)] for a non-negative integer. *)
Definition toString16 (n : Z) : string :=
  NilZero.string_of_uint (N.to_hex_uint (Z.to_N n)).

Fixpoint replicate_char (n : nat) (c : ascii) : string :=
  match n with
  | O => EmptyString
  | S n' => String c (replicate_char n' c)
  end.

Definition padStart (width : nat) (c : ascii) (s : string) : string :=
  replicate_char (width - String.length s) c ++ s.

(** [s.slice(i, j)] for literal [0 <= i <= j]. *)
Definition slice (i j : nat) (s : string) : string :=
  String.substring i (j - i) s.

(** [this.tokens.private_api?.session_id || 'default']. *)
Definition seed (w : World) : string :=
  match getPrivateApiSession w with
  | Some s => if truthy (Some s) then s else "default"
  | None => "default"
  end.

Definition generateDeviceId (w : World) : string :=
  let hash := hash_of (seed w) in
  let hex := padStart 32 "0" (toString16 (Z.abs hash)) in
  slice 0 8 hex ++ "-" ++ slice 8 12 hex ++ "-4" ++ slice 13 16 hex
    ++ "-a" ++ slice 17 20 hex ++ "-" ++ slice 20 32 hex.

Definition generateAndroidId (w : World) : string :=
  let hash := hash_of (seed w) in
  "android-" ++ slice 0 16 (toString16 (Z.abs hash)).

Definition getGraphApiHeaders (w : World) : Try Headers :=
  match getGraphApiToken w with
  | Some token =>
      if negb (truthy (Some token))
      then Threw (ThrowError "Graph API token non disponible")
      else Returned
             (<["Authorization" := "Bearer " ++ token]>
                (<["Content-Type" := "application/json"]> ∅))
  | None => Threw (ThrowError "Graph API token non disponible")
  end.

Definition USER_AGENT : string :=
  "Instagram 275.0.0.27.98 Android (33/13; 420dpi; 1080x2400; samsung; SM-G991B; o1s; exynos2100; fr_FR; 458229237)".

Definition getPrivateApiHeaders (w : World) : Try Headers :=
  match getPrivateApiSession w with
  | Some sessionId =>
      if negb (truthy (Some sessionId))
      then Threw (ThrowError "Private API session non disponible")
      else Returned
             (<["Cookie" := "sessionid=" ++ sessionId]>
             (<["User-Agent" := USER_AGENT]>
             (<["X-IG-App-ID" := "936619743392459"]>
             (<["X-IG-Device-ID" := generateDeviceId w]>
             (<["X-IG-Android-ID" := generateAndroidId w]>
             (<["Content-Type" := "application/x-www-form-urlencoded"]>
             (<["Accept-Language" := "fr-FR,fr;q=0.9"]> ∅)))))))
  | None => Threw (ThrowError "Private API session non disponible")
  end.

Definition updateGraphApiToken (token : string) (expiresAt : option number)
  : M unit :=
  modify (λ w, with_tokens
    (mkAuthTokens (Some (GraphApiTokens.mk token expiresAt "bearer"))
                  (private_api (tokens w))) w).

Definition updatePrivateApiSession (sessionId : string)
    (csrfToken userId : option string) : M unit :=
  modify (λ w, with_tokens
    (mkAuthTokens (graph_api (tokens w))
       (Some (PrivateApiTokens.mk sessionId csrfToken userId None))) w).

Definition getBusinessAccountId (w : World) : option string :=
  InstagramConfig.business_account_id (config w).

(** Truthiness of an optional number ([number | undefined]). *)
Definition truthy_number (o : option number) : bool :=
  match o with
  | Some (Num z) => negb (bool_decide (z = 0))
  | Some NaN | None => false
  end.

Definition isGraphApiTokenExpired : M bool :=
  expires_at ← gets (λ w, graph_api (tokens w) ≫= GraphApiTokens.expires_at);
  if negb (truthy_number expires_at) then mret false
  else
    now ← Date_now;
    mret (Number.ge (Num now) (default NaN expires_at)).

Definition getApiVersion (w : World) : string :=
  InstagramConfig.api_version (config w).

Definition getConfig (w : World) : InstagramConfig.t := config w.

End InstagramAuth.

(** ** [class InstagramClient] ([core/client.ts]) *)

Module RequestOptions.
Record t : Type := mk {
  api : option ApiType;
  rateLimitCategory : option RateLimitCategory;
}.
(** [{}], the default value of the [options] parameter. *)
Definition none : t := mk None None.
End RequestOptions.

Inductive MediaType : Type := IMAGE | VIDEO | CAROUSEL_ALBUM | REELS.

Module InstagramClient.

(** [new InstagramClient(config)]. *)
Definition constructor (cfg : InstagramConfig.t) : M unit :=
  InstagramAuth.constructor cfg;;
  RateLimiter.constructor (InstagramConfig.rate_limit_enabled cfg).

Definition status_to_json (status : option Z) : Json :=
  match status with
  | Some s => JNumber (Num s)
  | None => JUndefined
  end.

(** The response interceptor's error handler; it never returns, the
    result is the value it throws. *)
Definition handleApiError (error : Rejection) (api : ApiType) : Thrown :=
  match error with
  | IsAxiosError error =>
      let status := AxiosResponse.status <$> AxiosError.response error in
      let data :=
        from_option AxiosResponse.data JUndefined (AxiosError.response error) in
      if bool_decide (status = Some 429) then
        ThrowApiError
          {| ApiError.code := JString "RATE_LIMIT_EXCEEDED";
             ApiError.message :=
               JString "Limite de requêtes atteinte. Réessayez plus tard.";
             ApiError.details := Some
               [("api", ApiType_to_json api);
                ("retry_after",
                 from_option
                   (λ r, Js.of_option_string
                           (AxiosResponse.headers r !! "retry-after"))
                   JUndefined (AxiosError.response error))] |}
      else if bool_decide (status = Some 401 ∨ status = Some 403) then
        ThrowApiError
          {| ApiError.code := JString "AUTH_ERROR";
             ApiError.message :=
               JString "Erreur d'authentification. Vérifiez vos tokens.";
             ApiError.details := Some
               [("api", ApiType_to_json api);
                ("status", status_to_json status)] |}
      else if Js.truthy (Js.prop "error" data) then
        let err := Js.prop "error" data in
        ThrowApiError
          {| ApiError.code := Js.or (Js.prop "code" err) (JString "API_ERROR");
             ApiError.message :=
               Js.or (Js.prop "message" err) (JString "Erreur API Instagram");
             ApiError.details := Some
               (Js.spread [("api", ApiType_to_json api)] (Js.own_props err)) |}
      else
        ThrowApiError
          {| ApiError.code := JString "REQUEST_FAILED";
             ApiError.message := JString (AxiosError.message error);
             ApiError.details := Some
               [("api", ApiType_to_json api);
                ("status", status_to_json status)] |}
  | NotAxiosError =>
      ThrowApiError
        {| ApiError.code := JString "UNKNOWN_ERROR";
           ApiError.message := JString "Une erreur inconnue s'est produite";
           ApiError.details := Some [("api", ApiType_to_json api)] |}
  end.

(** A call on [graphClient] or [privateClient]: the request is handed to
    axios, and the settled promise goes through the interceptors set up
    by [setupInterceptors]. *)
Definition send (req : Request.t) : M (Try AxiosResponse.t) :=
  λ w,
    let settled := network w (length (requests w)) req in
    let w := with_requests (req :: requests w) w in
    match settled with
    | Fulfilled response => (Returned response, w)
    | Rejected reason => (Threw (handleApiError reason (Request.api req)), w)
    end.

Definition failure (e : Thrown) : ApiResponse.t :=
  {| ApiResponse.success := false;
     ApiResponse.data := None;
     ApiResponse.error := Some e |}.

Definition rate_limit_local (waitTime : string) : ApiResponse.t :=
  failure (ThrowApiError
    {| ApiError.code := JString "RATE_LIMIT_LOCAL";
       ApiError.message :=
         JString ("Rate limit local atteint. Réessayez dans " ++ waitTime);
       ApiError.details := None |}).

Definition auth_headers (api : ApiType) (w : World) : Try Headers :=
  match api with
  | graph => InstagramAuth.getGraphApiHeaders w
  | private => InstagramAuth.getPrivateApiHeaders w
  end.

Definition updateRateLimitsFromHeaders (category : RateLimitCategory)
    (headers : Headers) : M unit :=
  RateLimiter.updateFromHeaders category headers.

(** [{ ...params, access_token: this.auth.getGraphApiToken() }]. *)
Definition with_access_token (props : option (list (string * Json)))
    (w : World) : Json :=
  JObject (Js.set_prop "access_token"
             (Js.of_option_string (InstagramAuth.getGraphApiToken w))
             (default [] props)).

Definition of_optional_props (props : option (list (string * Json))) : Json :=
  match props with
  | Some props => JObject props
  | None => JUndefined
  end.

Definition get (endpoint : string) (params : option (list (string * Json)))
    (options : RequestOptions.t) : M ApiResponse.t :=
  let api := default graph (RequestOptions.api options) in
  let rateLimitCategory :=
    default read (RequestOptions.rateLimitCategory options) in
  allowed ← RateLimiter.canExecute rateLimitCategory;
  if negb allowed then
    waitTime ← RateLimiter.getWaitTimeFormatted rateLimitCategory;
    mret (rate_limit_local waitTime)
  else
    headers ← gets (auth_headers api);
    match headers with
    | Threw error => mret (failure error)
    | Returned headers =>
        queryParams ← gets (λ w,
          match api with
          | graph => with_access_token params w
          | private => of_optional_props params
          end);
        response ← send
          {| Request.method := GET; Request.api := api;
             Request.url := endpoint; Request.params := queryParams;
             Request.data := JUndefined; Request.headers := headers |};
        match response with
        | Threw error => mret (failure error)
        | Returned response =>
            RateLimiter.consume rateLimitCategory;;
            updateRateLimitsFromHeaders rateLimitCategory
              (AxiosResponse.headers response);;
            mret {| ApiResponse.success := true;
                    ApiResponse.data := Some (AxiosResponse.data response);
                    ApiResponse.error := None |}
        end
    end.

Definition post (endpoint : string) (data : option (list (string * Json)))
    (options : RequestOptions.t) : M ApiResponse.t :=
  let api := default graph (RequestOptions.api options) in
  let rateLimitCategory :=
    default write (RequestOptions.rateLimitCategory options) in
  allowed ← RateLimiter.canExecute rateLimitCategory;
  if negb allowed then
    waitTime ← RateLimiter.getWaitTimeFormatted rateLimitCategory;
    mret (rate_limit_local waitTime)
  else
    headers ← gets (auth_headers api);
    match headers with
    | Threw error => mret (failure error)
    | Returned headers =>
        postData ← gets (λ w,
          match api with
          | graph => with_access_token data w
          | private => of_optional_props data
          end);
        response ← send
          {| Request.method := POST; Request.api := api;
             Request.url := endpoint; Request.params := JUndefined;
             Request.data := postData; Request.headers := headers |};
        match response with
        | Threw error => mret (failure error)
        | Returned response =>
            RateLimiter.consume rateLimitCategory;;
            updateRateLimitsFromHeaders rateLimitCategory
              (AxiosResponse.headers response);;
            mret {| ApiResponse.success := true;
                    ApiResponse.data := Some (AxiosResponse.data response);
                    ApiResponse.error := None |}
        end
    end.

Definition delete (endpoint : string) (options : RequestOptions.t)
  : M ApiResponse.t :=
  let api := default graph (RequestOptions.api options) in
  let rateLimitCategory :=
    default write (RequestOptions.rateLimitCategory options) in
  allowed ← RateLimiter.canExecute rateLimitCategory;
  if negb allowed then
    waitTime ← RateLimiter.getWaitTimeFormatted rateLimitCategory;
    mret (rate_limit_local waitTime)
  else
    headers ← gets (auth_headers api);
    match headers with
    | Threw error => mret (failure error)
    | Returned headers =>
        params ← gets (λ w,
          match api with
          | graph => with_access_token None w
          | private => JUndefined
          end);
        response ← send
          {| Request.method := DELETE; Request.api := api;
             Request.url := endpoint; Request.params := params;
             Request.data := JUndefined; Request.headers := headers |};
        match response with
        | Threw error => mret (failure error)
        | Returned response =>
            RateLimiter.consume rateLimitCategory;;
            mret {| ApiResponse.success := true;
                    ApiResponse.data := Some (AxiosResponse.data response);
                    ApiResponse.error := None |}
        end
    end.

(** [v.k] where [v] may be [undefined] or [null]: a [TypeError]. *)
Definition member (k : string) (v : Json) : Try Json :=
  match v with
  | JUndefined | JNull =>
      Threw (ThrowError ("Cannot read properties of undefined (reading '"
                           ++ k ++ "')"))
  | _ => Returned (Js.prop k v)
  end.

Definition MediaType_to_json (t : MediaType) : Json :=
  match t with
  | IMAGE => JString "IMAGE"
  | VIDEO => JString "VIDEO"
  | CAROUSEL_ALBUM => JString "CAROUSEL_ALBUM"
  | REELS => JString "REELS"
  end.

Definition containerData (mediaUrl : string) (mediaType : MediaType)
    (caption : option string) (w : World) : list (string * Json) :=
  let data :=
    [("access_token", Js.of_option_string (InstagramAuth.getGraphApiToken w))] in
  let data :=
    match mediaType with
    | IMAGE => Js.set_prop "image_url" (JString mediaUrl) data
    | VIDEO | REELS =>
        Js.set_prop "media_type" (MediaType_to_json mediaType)
          (Js.set_prop "video_url" (JString mediaUrl) data)
    | CAROUSEL_ALBUM => data
    end in
  if InstagramAuth.truthy caption
  then Js.set_prop "caption" (Js.of_option_string caption) data
  else data.

Definition uploadMedia (mediaUrl : string) (mediaType : MediaType)
    (caption : option string) (options : RequestOptions.t)
  : M ApiResponse.t :=
  let rateLimitCategory :=
    default content_publish (RequestOptions.rateLimitCategory options) in
  allowed ← RateLimiter.canExecute rateLimitCategory;
  if negb allowed then
    waitTime ← RateLimiter.getWaitTimeFormatted rateLimitCategory;
    mret (rate_limit_local waitTime)
  else
    accountId ← gets InstagramAuth.getBusinessAccountId;
    if negb (InstagramAuth.truthy accountId) then
      mret (failure (ThrowApiError
        {| ApiError.code := JString "CONFIG_ERROR";
           ApiError.message := JString "Business Account ID non configuré";
           ApiError.details := None |}))
    else
      let accountId := default "" accountId in
      data ← gets (containerData mediaUrl mediaType caption);
      headers ← gets InstagramAuth.getGraphApiHeaders;
      match headers with
      | Threw error => mret (failure error)
      | Returned headers =>
      containerResponse ← send
        {| Request.method := POST; Request.api := graph;
           Request.url := "/" ++ accountId ++ "/media";
           Request.params := JUndefined;
           Request.data := JObject data; Request.headers := headers |};
      match containerResponse with
      | Threw error => mret (failure error)
      | Returned containerResponse =>
      match member "id" (AxiosResponse.data containerResponse) with
      | Threw error => mret (failure error)
      | Returned containerId =>
      token ← gets InstagramAuth.getGraphApiToken;
      headers ← gets InstagramAuth.getGraphApiHeaders;
      match headers with
      | Threw error => mret (failure error)
      | Returned headers =>
      publishResponse ← send
        {| Request.method := POST; Request.api := graph;
           Request.url := "/" ++ accountId ++ "/media_publish";
           Request.params := JUndefined;
           Request.data := JObject
             [("creation_id", containerId);
              ("access_token", Js.of_option_string token)];
           Request.headers := headers |};
      match publishResponse with
      | Threw error => mret (failure error)
      | Returned publishResponse =>
      RateLimiter.consume rateLimitCategory;;
      match member "id" (AxiosResponse.data publishResponse) with
      | Threw error => mret (failure error)
      | Returned id =>
          mret {| ApiResponse.success := true;
                  ApiResponse.data := Some
                    (JObject [("id", id); ("container_id", containerId)]);
                  ApiResponse.error := None |}
      end end end end end end.

Definition isAuthenticated (w : World) : bool :=
  InstagramAuth.isAuthenticated w.

Definition getPreferredApi (w : World) : ApiType :=
  if InstagramAuth.hasGraphApiAuth w then graph
  else if InstagramAuth.hasPrivateApiAuth w then private
  else graph.

End InstagramClient.

(** ** The media-processing polling loops of the content tools *)

(** [v === 'literal']. *)
Definition is_string (literal : string) (v : Json) : bool :=
  match v with
  | JString s => bool_decide (s = literal)
  | _ => false
  end.

(** [result.data?.k]. *)
Definition data_prop (k : string) (result : ApiResponse.t) : Json :=
  from_option (Js.prop k) JUndefined (ApiResponse.data result).

(** *** Parameters of the content tools (the [z.infer] types) *)

Module UserTag.
Record t : Type := mk {
  user_id : string;
  (** the coordinates are passed through as they come *)
  x : Json;
  y : Json;
}.
End UserTag.

Module CreatePostParams.
Record t : Type := mk {
  media_url : string;
  caption : option string;
  location_id : option string;
  user_tags : option (list UserTag.t);
  product_tags : option (list Json);
}.
End CreatePostParams.

Module CreateReelParams.
Record t : Type := mk {
  video_url : string;
  caption : option string;
  cover_url : option string;
  share_to_feed : bool;
  audio_name : option string;
  location_id : option string;
  user_tags : option (list UserTag.t);
  collaborators : option (list string);
}.
End CreateReelParams.

Definition to_lower (a : ascii) : ascii :=
  let n := nat_of_ascii a in
  if bool_decide (65 ≤ n ≤ 90)%nat then ascii_of_nat (n + 32) else a.

Fixpoint lower_case (s : string) : string :=
  match s with
  | EmptyString => EmptyString
  | String a s' => String (to_lower a) (lower_case s')
  end.

Definition ends_with (suffix s : string) : bool :=
  bool_decide (String.length suffix ≤ String.length s)%nat &&
  bool_decide (String.substring (String.length s - String.length suffix)
                 (String.length suffix) s = suffix).

(** [/\.(mp4|mov|avi|webm)$/i.test(url)]. *)
Definition is_video_url (url : string) : bool :=
  let url := lower_case url in
  ends_with ".mp4" url || ends_with ".mov" url || ends_with ".avi" url
  || ends_with ".webm" url.

(** [tags.map(tag => ({ username: tag.user_id, x: tag.x, y: tag.y }))]. *)
Definition user_tags_to_json (tags : list UserTag.t) : Json :=
  JArray (map (λ tag, JObject [("username", JString (UserTag.user_id tag));
                               ("x", UserTag.x tag);
                               ("y", UserTag.y tag)]) tags).

(** [if (value) data[key] = value] for an optional string. *)
Definition set_if_truthy (key : string) (value : option string)
    (data : list (string * Json)) : list (string * Json) :=
  if InstagramAuth.truthy value
  then Js.set_prop key (Js.of_option_string value) data
  else data.

(** [if (list && list.length > 0) data[key] = f(list)]. *)
Definition set_if_nonempty {A : Type} (key : string) (f : list A → Json)
    (l : option (list A)) (data : list (string * Json))
  : list (string * Json) :=
  match l with
  | Some (x :: l') => Js.set_prop key (f (x :: l')) data
  | Some [] | None => data
  end.

(** [!result.success || !result.data]. *)
Definition unusable (result : ApiResponse.t) : bool :=
  negb (ApiResponse.success result)
  || negb (Js.truthy_opt (ApiResponse.data result)).

Definition config_error : ApiResponse.t :=
  InstagramClient.failure (ThrowApiError
    {| ApiError.code := JString "CONFIG_ERROR";
       ApiError.message := JString "Business Account ID requis";
       ApiError.details := None |}).

(** The success returned by [createPost] and [createReel]. *)
Definition published (id : Json) (mediaResult : ApiResponse.t) : ApiResponse.t :=
  {| ApiResponse.success := true;
     ApiResponse.data := Some (JObject
       [("id", id);
        ("permalink", Js.or (data_prop "permalink" mediaResult) (JString ""))]);
     ApiResponse.error := None |}.

(** In each loop below the recursion is on the number of iterations the
    [for (let i = 0; i < maxAttempts; i++)] statement still has to run. *)

Module PostsTools.

Fixpoint waitForMediaProcessing_loop (containerId : string) (todo : nat)
  : M bool :=
  match todo with
  | O => mret false
  | S todo =>
      result ← InstagramClient.get ("/" ++ containerId)
                 (Some [("fields", JString "status_code")])
                 RequestOptions.none;
      if is_string "FINISHED" (data_prop "status_code" result) then mret true
      else if is_string "ERROR" (data_prop "status_code" result) then mret false
      else
        sleep 2000;;
        waitForMediaProcessing_loop containerId todo
  end.

Definition waitForMediaProcessing (containerId : string)
    (maxAttempts : option nat) : M bool :=
  waitForMediaProcessing_loop containerId (default 30%nat maxAttempts).

Definition createPost_containerData (params : CreatePostParams.t)
  : list (string * Json) :=
  let url := CreatePostParams.media_url params in
  let data :=
    if is_video_url url
    then Js.set_prop "media_type" (JString "VIDEO")
           (Js.set_prop "video_url" (JString url) [])
    else Js.set_prop "image_url" (JString url) [] in
  let data := set_if_truthy "caption" (CreatePostParams.caption params) data in
  let data :=
    set_if_truthy "location_id" (CreatePostParams.location_id params) data in
  let data :=
    set_if_nonempty "user_tags" user_tags_to_json
      (CreatePostParams.user_tags params) data in
  set_if_nonempty "product_tags" JArray
    (CreatePostParams.product_tags params) data.

Definition createPost (params : CreatePostParams.t) : M ApiResponse.t :=
  accountId ← gets InstagramAuth.getBusinessAccountId;
  if negb (InstagramAuth.truthy accountId) then mret config_error
  else
    let accountId := default "" accountId in
    let isVideo := is_video_url (CreatePostParams.media_url params) in
    containerResult ← InstagramClient.post ("/" ++ accountId ++ "/media")
      (Some (createPost_containerData params))
      (RequestOptions.mk None (Some content_publish));
    if unusable containerResult then mret containerResult
    else
      let containerId := data_prop "id" containerResult in
      (if isVideo
       then waitForMediaProcessing (Js.to_string containerId) None;; mret tt
       else mret tt);;
      publishResult ← InstagramClient.post
        ("/" ++ accountId ++ "/media_publish")
        (Some [("creation_id", containerId)]) RequestOptions.none;
      if unusable publishResult then mret publishResult
      else
        let id := data_prop "id" publishResult in
        mediaResult ← InstagramClient.get ("/" ++ Js.to_string id)
          (Some [("fields", JString "permalink")]) RequestOptions.none;
        mret (published id mediaResult).

Definition deletePost (post_id : string) : M ApiResponse.t :=
  available ← gets InstagramAuth.hasPrivateApiAuth;
  if (available : bool) return M ApiResponse.t then
    result ← InstagramClient.post ("/media/" ++ post_id ++ "/delete/")
      (Some []) (RequestOptions.mk (Some private) None);
    mret {| ApiResponse.success := ApiResponse.success result;
            ApiResponse.data := Some (JObject
              [("success", JBool (is_string "ok" (data_prop "status" result)))]);
            ApiResponse.error := ApiResponse.error result |}
  else
    mret (InstagramClient.failure (ThrowApiError
      {| ApiError.code := JString "NOT_SUPPORTED";
         ApiError.message :=
           JString "La suppression nécessite la Private API (session_id)";
         ApiError.details := None |})).

End PostsTools.

Module ReelsTools.

Fixpoint waitForVideoProcessing_loop (containerId : string) (todo : nat)
  : M bool :=
  match todo with
  | O => mret false
  | S todo =>
      result ← InstagramClient.get ("/" ++ containerId)
                 (Some [("fields", JString "status_code,status")])
                 RequestOptions.none;
      let statusCode := data_prop "status_code" result in
      if is_string "FINISHED" statusCode then mret true
      else if is_string "ERROR" statusCode then
        console_error (data_prop "status" result);;
        mret false
      else
        sleep 3000;;
        waitForVideoProcessing_loop containerId todo
  end.

Definition waitForVideoProcessing (containerId : string)
    (maxAttempts : option nat) : M bool :=
  waitForVideoProcessing_loop containerId (default 60%nat maxAttempts).

Definition createReel_reelData (params : CreateReelParams.t)
  : list (string * Json) :=
  let data :=
    [("media_type", JString "REELS");
     ("video_url", JString (CreateReelParams.video_url params));
     ("share_to_feed", JBool (CreateReelParams.share_to_feed params))] in
  let data := set_if_truthy "caption" (CreateReelParams.caption params) data in
  let data :=
    if InstagramAuth.truthy (CreateReelParams.cover_url params)
    then Js.set_prop "thumb_offset" (JNumber (Num 0)) data else data in
  let data :=
    set_if_truthy "location_id" (CreateReelParams.location_id params) data in
  let data :=
    set_if_truthy "audio_name" (CreateReelParams.audio_name params) data in
  let data :=
    set_if_nonempty "user_tags" user_tags_to_json
      (CreateReelParams.user_tags params) data in
  set_if_nonempty "collaborators" (λ l, JArray (map JString l))
    (CreateReelParams.collaborators params) data.

Definition createReel (params : CreateReelParams.t) : M ApiResponse.t :=
  accountId ← gets InstagramAuth.getBusinessAccountId;
  if negb (InstagramAuth.truthy accountId) then mret config_error
  else
    let accountId := default "" accountId in
    containerResult ← InstagramClient.post ("/" ++ accountId ++ "/media")
      (Some (createReel_reelData params))
      (RequestOptions.mk None (Some content_publish));
    if unusable containerResult then mret containerResult
    else
      let containerId := data_prop "id" containerResult in
      processed ← waitForVideoProcessing (Js.to_string containerId) None;
      if negb processed then
        mret (InstagramClient.failure (ThrowApiError
          {| ApiError.code := JString "PROCESSING_ERROR";
             ApiError.message := JString "Échec du traitement vidéo";
             ApiError.details := None |}))
      else
        publishResult ← InstagramClient.post
          ("/" ++ accountId ++ "/media_publish")
          (Some [("creation_id", containerId)]) RequestOptions.none;
        if unusable publishResult then mret publishResult
        else
          let id := data_prop "id" publishResult in
          mediaResult ← InstagramClient.get ("/" ++ Js.to_string id)
            (Some [("fields", JString "permalink")]) RequestOptions.none;
          mret (published id mediaResult).

Definition deleteReel (reel_id : string) : M ApiResponse.t :=
  available ← gets InstagramAuth.hasPrivateApiAuth;
  if negb available then
    mret (InstagramClient.failure (ThrowApiError
      {| ApiError.code := JString "NOT_SUPPORTED";
         ApiError.message := JString "La suppression nécessite la Private API";
         ApiError.details := None |}))
  else
    result ← InstagramClient.post ("/media/" ++ reel_id ++ "/delete/")
      (Some []) (RequestOptions.mk (Some private) None);
    let ok := is_string "ok" (data_prop "status" result) in
    mret {| ApiResponse.success := ApiResponse.success result && ok;
            ApiResponse.data := Some (JObject [("success", JBool ok)]);
            ApiResponse.error := ApiResponse.error result |}.

End ReelsTools.

Module StoriesTools.

Fixpoint waitForProcessing_loop (containerId : string) (todo : nat)
  : M bool :=
  match todo with
  | O => mret false
  | S todo =>
      result ← InstagramClient.get ("/" ++ containerId)
                 (Some [("fields", JString "status_code")])
                 RequestOptions.none;
      if is_string "FINISHED" (data_prop "status_code" result) then mret true
      else if is_string "ERROR" (data_prop "status_code" result) then mret false
      else
        sleep 1500;;
        waitForProcessing_loop containerId todo
  end.

Definition waitForProcessing (containerId : string)
    (maxAttempts : option nat) : M bool :=
  waitForProcessing_loop containerId (default 20%nat maxAttempts).

End StoriesTools.

(** ** The Contabo adapter ([mcps/contabo/index.js]) *)

(** What [contaboRequest] reads of the [Response] returned by [fetch]. *)
Module FetchResponse.
Record t : Type := mk {
  status : Z;
  (** the body, as [response.text()] resolves *)
  text : string;
  (** how [response.json()] settles *)
  json : Try Json;
}.
(** [response.ok]: the status is in the range 200-299. *)
Definition ok (response : t) : bool :=
  bool_decide (200 <= status response <= 299).
End FetchResponse.

Module Contabo.

(** The part of [contaboRequest] that follows [await fetch(...)]: what the
    function returns, or throws, for the response received. *)
Definition contaboRequest_result (response : FetchResponse.t) : Try Json :=
  if negb (FetchResponse.ok response) then
    Threw (ThrowError
      ("Erreur API Contabo (" ++ pretty (FetchResponse.status response)
         ++ "): " ++ FetchResponse.text response))
  else if bool_decide (FetchResponse.status response = 204) then
    Returned (JObject [("success", JBool true)])
  else FetchResponse.json response.

End Contabo.

(** * Vocabulary of the statements *)

Definition tick (w : World) : World := with_clock_reads (S (clock_reads w)) w.

(** The world after [resetBucket category] when the bucket exists. *)
Definition refreshed (category : RateLimitCategory) (w : World) : World :=
  let config := DEFAULT_LIMITS category in
  with_buckets
    (alter (set_reset_at
              (Num (date_now w (clock_reads w)
                    + RateLimitConfig.window_seconds config * 1000)))
           category
           (alter (set_remaining (Num (RateLimitConfig.limit config)))
                  category (buckets w)))
    (tick w).

Arguments Number.ge : simpl never.
Arguments Number.gt : simpl never.
Arguments Number.le : simpl never.
Arguments Number.sub : simpl never.
Arguments Number.max : simpl never.

(** The world after [bucket.remaining--] on the bucket of [category]. *)
Definition decremented (category : RateLimitCategory) (w : World) : World :=
  with_buckets
    (alter (λ b, set_remaining (Number.sub (remaining b) (Num 1)) b)
           category (buckets w))
    w.

(** [n] calls of [consume] in sequence, with their results in order. *)
Fixpoint consume_times (category : RateLimitCategory) (n : nat)
  : M (list bool) :=
  match n with
  | O => mret []
  | S n =>
      r ← RateLimiter.consume category;
      rs ← consume_times category n;
      mret (r :: rs)
  end.

(** The capacity of a category in the static table, as a count. *)
Definition capacity (category : RateLimitCategory) : nat :=
  Z.to_nat (RateLimitConfig.limit (DEFAULT_LIMITS category)).

(** No reading of the clock from now on reaches the reset deadline of the
    bucket of [category]: the calls stay within the current window. *)
Definition within_window (category : RateLimitCategory) (w : World) : Prop :=
  ∀ b n, buckets w !! category = Some b → (clock_reads w ≤ n)%nat →
         Number.ge (Num (date_now w n)) (reset_at b) = false.

(** The calls a client of the limiter can make that do not resynchronise
    it from response headers. *)
Inductive TrackerCall : Type :=
| CallCanExecute (category : RateLimitCategory)
| CallConsume (category : RateLimitCategory)
| CallGetWaitTime (category : RateLimitCategory)
| CallGetWaitTimeFormatted (category : RateLimitCategory)
| CallGetBucketStatus (category : RateLimitCategory)
| CallSetEnabled (on : bool)
| CallIsEnabled.

Definition perform (call : TrackerCall) : M unit :=
  match call with
  | CallCanExecute category => RateLimiter.canExecute category;; mret tt
  | CallConsume category => RateLimiter.consume category;; mret tt
  | CallGetWaitTime category => RateLimiter.getWaitTime category;; mret tt
  | CallGetWaitTimeFormatted category =>
      RateLimiter.getWaitTimeFormatted category;; mret tt
  | CallGetBucketStatus category =>
      RateLimiter.getBucketStatus category;; mret tt
  | CallSetEnabled on => RateLimiter.setEnabled on
  | CallIsEnabled => RateLimiter.isEnabled;; mret tt
  end.

Fixpoint perform_all (calls : list TrackerCall) : M unit :=
  match calls with
  | [] => mret tt
  | call :: calls => perform call;; perform_all calls
  end.

(** Every category has a bucket whose capacity is the default one and
    whose [remaining] is an integer between 0 and that capacity. *)
Definition tracked (bs : gmap RateLimitCategory RateLimitBucket) : Prop :=
  ∀ category, ∃ b r,
    bs !! category = Some b ∧
    limit b = Num (RateLimitConfig.limit (DEFAULT_LIMITS category)) ∧
    remaining b = Num r ∧
    0 <= r <= RateLimitConfig.limit (DEFAULT_LIMITS category).

(** The entry points of the request layer, as one type of calls. *)
Inductive Dispatch : Type :=
| DoGet (endpoint : string) (params : option (list (string * Json)))
        (options : RequestOptions.t)
| DoPost (endpoint : string) (data : option (list (string * Json)))
         (options : RequestOptions.t)
| DoDelete (endpoint : string) (options : RequestOptions.t)
| DoUploadMedia (mediaUrl : string) (mediaType : MediaType)
                (caption : option string) (options : RequestOptions.t).

Definition dispatch (d : Dispatch) : M ApiResponse.t :=
  match d with
  | DoGet endpoint params options => InstagramClient.get endpoint params options
  | DoPost endpoint data options => InstagramClient.post endpoint data options
  | DoDelete endpoint options => InstagramClient.delete endpoint options
  | DoUploadMedia mediaUrl mediaType caption options =>
      InstagramClient.uploadMedia mediaUrl mediaType caption options
  end.

(** The category a call is accounted to: the one in its options, or the
    default of the method. *)
Definition category_of (d : Dispatch) : RateLimitCategory :=
  match d with
  | DoGet _ _ options => default read (RequestOptions.rateLimitCategory options)
  | DoPost _ _ options
  | DoDelete _ options => default write (RequestOptions.rateLimitCategory options)
  | DoUploadMedia _ _ _ options =>
      default content_publish (RequestOptions.rateLimitCategory options)
  end.

(** The call of the method for an HTTP verb; [delete] takes no payload. *)
Definition request (method : Method) (endpoint : string)
    (payload : option (list (string * Json))) (options : RequestOptions.t)
  : Dispatch :=
  match method with
  | GET => DoGet endpoint payload options
  | POST => DoPost endpoint payload options
  | DELETE => DoDelete endpoint options
  end.

(** The API a call of [get], [post] or [delete] is sent to. *)
Definition api_of (options : RequestOptions.t) : ApiType :=
  default graph (RequestOptions.api options).

(** Everything but the limiter and the count of clock readings is the
    same in [w'] as in [w]. *)
Definition outside_limiter (w w' : World) : Prop :=
  date_now w' = date_now w ∧ network w' = network w ∧
  requests w' = requests w ∧ config w' = config w ∧ tokens w' = tokens w ∧
  sleeps w' = sleeps w ∧ console w' = console w.

(** The transport settles the next request, whatever it is, as [settled]. *)
Definition next_settles (w : World) (settled : Settled) : Prop :=
  ∀ req, network w (length (requests w)) req = settled.

(** A polling loop is bounded by [ceiling] with a fixed [delay]: from any
    world it returns, having awaited [waits] times exactly [delay] ms and
    handed [sent] requests to the transport, with at most [ceiling] waits
    and at most [ceiling] requests (one per status check, the last check
    being followed by no wait when it ends the loop); and when all
    [ceiling] waits were used, the result is [false]. *)
Definition bounded_poll (delay : Z) (ceiling : nat) (poll : M bool) : Prop :=
  ∀ w, ∃ (waits : nat) (sent : list Request.t),
    sleeps (poll w).2 = (replicate waits delay ++ sleeps w)%list ∧
    requests (poll w).2 = (sent ++ requests w)%list ∧
    (waits ≤ ceiling)%nat ∧
    (length sent ≤ ceiling)%nat ∧ (length sent ≤ waits + 1)%nat ∧
    ((waits < ceiling)%nat ∨ (poll w).1 = false).

(** The bucket the constructor creates when it reads [now] on the clock. *)
Definition fresh_bucket (category : RateLimitCategory) (now : Z)
  : RateLimitBucket :=
  let config := DEFAULT_LIMITS category in
  {| limit := Num (RateLimitConfig.limit config);
     remaining := Num (RateLimitConfig.limit config);
     reset_at := Num (now + RateLimitConfig.window_seconds config * 1000);
     window_seconds := Num (RateLimitConfig.window_seconds config) |}.

(** The limiter is enabled, the bucket of [category] has [k] permits left
    and its deadline [r] lies after every future reading of the clock. *)
Definition in_window (category : RateLimitCategory) (r : Z) (k : nat)
    (w : World) : Prop :=
  enabled w = true ∧
  (∃ b, buckets w !! category = Some b ∧
        remaining b = Num (Z.of_nat k) ∧ reset_at b = Num r) ∧
  ∀ n, (clock_reads w ≤ n)%nat → date_now w n < r.

(** The result of a call whose request was fulfilled with [response]. *)
Definition succeeded (response : AxiosResponse.t) : ApiResponse.t :=
  {| ApiResponse.success := true;
     ApiResponse.data := Some (AxiosResponse.data response);
     ApiResponse.error := None |}.

(** The shape shared by the three polling loops: a status check, an
    action on the [ERROR] status, and the delay awaited between two
    checks. *)
Fixpoint poll_loop (check : M ApiResponse.t)
    (on_error : ApiResponse.t → M unit) (delay : Z) (todo : nat) : M bool :=
  match todo with
  | O => mret false
  | S todo =>
      result ← check;
      if is_string "FINISHED" (data_prop "status_code" result) then mret true
      else if is_string "ERROR" (data_prop "status_code" result) then
        on_error result;;
        mret false
      else
        sleep delay;;
        poll_loop check on_error delay todo
  end.

(** *** Concrete worlds used to exercise the statements *)

Definition ok_response (headers : Headers) : Settled :=
  Fulfilled {| AxiosResponse.status := 200;
               AxiosResponse.data := JObject [("id", JString "1")];
               AxiosResponse.headers := headers |}.

(** A world before any constructor has run, with the given clock; every
    request settles as [settled]. *)
Definition blank_world (clock : nat → Z) (settled : Settled) : World :=
  {| date_now := clock;
     clock_reads := 0;
     network := λ _ _, settled;
     requests := [];
     buckets := ∅;
     enabled := false;
     config := InstagramConfig.mk (Some "token") (Some "17841400000000000")
                 "v18.0" (Some "session") true;
     tokens := mkAuthTokens None None;
     sleeps := [];
     console := [] |}.

(** A limiter constructed at time 0 whose clock never leaves the first
    window. *)
Abbreviation steady_world :=
  (RateLimiter.constructor true (blank_world (λ _, 0) (ok_response ∅))).2.

(** The clock is at 0 for the seven readings of the constructor and at
    4,000,000 ms afterwards, past the deadline of the one-hour windows. *)
Definition late_clock (n : nat) : Z :=
  if bool_decide (n < 7)%nat then 0 else 4000000.

Definition late_world : World :=
  (RateLimiter.constructor true (blank_world late_clock (ok_response ∅))).2.

(** A client constructed at time 0 from the configuration of
    [blank_world], with a clock that never leaves the first window. *)
Definition client_world (settled : Settled) : World :=
  (InstagramClient.constructor
     (config (blank_world (λ _, 0) settled))
     (blank_world (λ _, 0) settled)).2.

(** The same client once the 25 permits of [write] are used up. *)
Definition exhausted_world : World :=
  (consume_times write 25 (client_world (ok_response ∅))).2.

(** A response without content, and a rejection by the upstream rate
    limit that asks to retry after 37 seconds. *)
Definition no_content : Settled :=
  Fulfilled {| AxiosResponse.status := 204;
               AxiosResponse.data := JString "";
               AxiosResponse.headers := ∅ |}.

Definition too_many_requests_error : AxiosError.t :=
  {| AxiosError.response := Some
       {| AxiosResponse.status := 429;
          AxiosResponse.data := JObject [];
          AxiosResponse.headers := {[ "retry-after" := "37" ]} |};
     AxiosError.message := "Request failed with status code 429" |}.

Definition too_many_requests : Settled :=
  Rejected (IsAxiosError too_many_requests_error).

(** A status response of a media container. *)
Definition container_status (status_code : string) : Settled :=
  Fulfilled {| AxiosResponse.status := 200;
               AxiosResponse.data :=
                 JObject [("status_code", JString status_code)];
               AxiosResponse.headers := ∅ |}.

(** Response headers that report 5 remaining permits. *)
Definition quota_headers : Headers := {[ "x-ratelimit-remaining" := "5" ]}.

(** The limiter of [late_world] after a response that reported a capacity
    of 500 for [read]. *)
Definition after_capacity_resync : World :=
  (RateLimiter.updateFromHeaders read {[ "x-ratelimit-limit" := "500" ]}
     late_world).2.

(** The limiter of [steady_world] after a response that reported 500
    remaining permits for [read], and after one that reported -3. *)
Definition after_remaining_resync (reported : string) : World :=
  (RateLimiter.updateFromHeaders read {[ "x-ratelimit-remaining" := reported ]}
     steady_world).2.

(** The limiter of [late_world] after a response that reported 500
    remaining permits out of 1000 for [read]. *)
Definition after_full_resync : World :=
  (RateLimiter.updateFromHeaders read
     (<[ "x-ratelimit-remaining" := "500" ]>
        {[ "x-ratelimit-limit" := "1000" ]})
     late_world).2.

(** The limiter of [late_world] after a response that reported 50
    remaining permits out of 100 for [read]. *)
Definition after_lower_resync : World :=
  (RateLimiter.updateFromHeaders read
     (<[ "x-ratelimit-remaining" := "50" ]>
        {[ "x-ratelimit-limit" := "100" ]})
     late_world).2.

(** Questions put to the limiter, and their answers. *)
Inductive Ask : Type :=
| AskCanExecute (category : RateLimitCategory)
| AskConsume (category : RateLimitCategory).

Definition ask (a : Ask) : M bool :=
  match a with
  | AskCanExecute category => RateLimiter.canExecute category
  | AskConsume category => RateLimiter.consume category
  end.

Fixpoint ask_all (asks : list Ask) : M (list bool) :=
  match asks with
  | [] => mret []
  | a :: asks =>
      answer ← ask a;
      answers ← ask_all asks;
      mret (answer :: answers)
  end.

(** The number of permits of [category] granted by [consume] in a run. *)
Fixpoint granted (category : RateLimitCategory) (asks : list Ask)
    (answers : list bool) : nat :=
  match asks, answers with
  | AskConsume c :: asks, true :: answers =>
      (if decide (c = category) then 1 else 0) + granted category asks answers
  | _ :: asks, _ :: answers => granted category asks answers
  | _, _ => 0
  end.

(** The polynomial hash of Java's [String.hashCode], over the integers:
    each character multiplies the hash by 31 and adds its code. *)
Definition poly31 (s : string) : Z :=
  foldl (λ h c, 31 * h + Z.of_nat (nat_of_ascii c)) 0 (list_ascii_of_string s).

(** What a run from [w] to [w'] spent: at most [n] requests handed to the
    transport and at most [k] waits, each of [delay] ms. *)
Definition spent (delay : Z) (n k : nat) (w w' : World) : Prop :=
  ∃ (sent : list Request.t) (waits : nat),
    requests w' = (sent ++ requests w)%list ∧
    sleeps w' = (replicate waits delay ++ sleeps w)%list ∧
    (length sent ≤ n)%nat ∧ (waits ≤ k)%nat.

(** * Properties *)

(** ** Unfolding the monad *)

Ltac unfold_M :=
  unfold mbind, mret, M_bind, M_ret, gets, modify, when, update_bucket,
    Date_now in *.

Lemma resetBucket_Some category w b :
  buckets w !! category = Some b →
  RateLimiter.resetBucket category w = (tt, refreshed category w).
Proof.
  intros Hb. unfold RateLimiter.resetBucket. unfold_M. rewrite Hb.
  reflexivity.
Qed.

Lemma canExecute_unfold category w :
  RateLimiter.canExecute category w =
  if negb (enabled w) then (true, w) else
  match buckets w !! category with
  | None => (true, w)
  | Some b =>
      if Number.ge (Num (date_now w (clock_reads w))) (reset_at b)
      then (true, refreshed category (tick w))
      else (Number.gt (remaining b) (Num 0), tick w)
  end.
Proof.
  unfold RateLimiter.canExecute. unfold_M.
  destruct (enabled w); simpl; [|reflexivity].
  destruct (buckets w !! category) as [b|] eqn:Hb; [|reflexivity].
  simpl. destruct (Number.ge (Num (date_now w (clock_reads w))) (reset_at b));
    [|reflexivity].
  rewrite (resetBucket_Some category (with_clock_reads _ w) b); [reflexivity|].
  exact Hb.
Qed.

Lemma consume_unfold category w :
  RateLimiter.consume category w =
  if negb (enabled w) then (true, w) else
  match buckets w !! category with
  | None => (true, w)
  | Some held =>
      let w1 :=
        if Number.ge (Num (date_now w (clock_reads w))) (reset_at held)
        then refreshed category (tick w) else tick w in
      if Number.le (remaining (default held (buckets w1 !! category))) (Num 0)
      then (false, w1)
      else (true, decremented category w1)
  end.
Proof.
  unfold RateLimiter.consume, RateLimiter.deref. unfold_M.
  destruct (enabled w); simpl; [|reflexivity].
  destruct (buckets w !! category) as [b|] eqn:Hb; [|reflexivity].
  simpl. destruct (Number.ge (Num (date_now w (clock_reads w))) (reset_at b)).
  - rewrite (resetBucket_Some category (with_clock_reads _ w) b) by exact Hb.
    fold (tick w).
    destruct (Number.le _ _); reflexivity.
  - simpl. fold (tick w). destruct (Number.le _ _); reflexivity.
Qed.

(** *** A freshly constructed limiter *)

Lemma constructor_buckets on w0 category :
  buckets (RateLimiter.constructor on w0).2 !! category =
  Some (fresh_bucket category
          (date_now w0 (RateLimitCategory_index category + clock_reads w0))).
Proof.
  destruct category; reflexivity.
Qed.

Lemma constructor_enabled on w0 :
  enabled (RateLimiter.constructor on w0).2 = on.
Proof. reflexivity. Qed.

Lemma constructor_clock on w0 :
  date_now (RateLimiter.constructor on w0).2 = date_now w0 ∧
  clock_reads (RateLimiter.constructor on w0).2 = (7 + clock_reads w0)%nat.
Proof. split; reflexivity. Qed.

(** *** Calls within one window *)

Lemma ge_Num_false x y : x < y → Number.ge (Num x) (Num y) = false.
Proof. intros. unfold Number.ge. apply bool_decide_eq_false_2. lia. Qed.

Lemma ge_Num_true x y : y <= x → Number.ge (Num x) (Num y) = true.
Proof. intros. unfold Number.ge. apply bool_decide_eq_true_2. lia. Qed.

Lemma consume_in_window_pos category r k w :
  in_window category r (S k) w →
  (RateLimiter.consume category w).1 = true ∧
  in_window category r k (RateLimiter.consume category w).2.
Proof.
  intros (Hon & (b & Hb & Hrem & Hreset) & Hclock).
  rewrite consume_unfold, Hon, Hb. simpl negb. cbv iota.
  rewrite Hreset, ge_Num_false by (apply Hclock; lia).
  cbv zeta. change (buckets (tick w)) with (buckets w). rewrite Hb. simpl default.
  rewrite Hrem. unfold Number.le at 1.
  rewrite bool_decide_eq_false_2 by lia.
  split; [reflexivity|]. simpl. repeat split.
  - exact Hon.
  - exists (set_remaining (Number.sub (remaining b) (Num 1)) b). repeat split.
    + unfold decremented. simpl. rewrite lookup_alter_eq, Hb. reflexivity.
    + unfold set_remaining. cbn [remaining]. rewrite Hrem.
      unfold Number.sub. f_equal. lia.
    + exact Hreset.
  - intros n Hn. apply Hclock. unfold decremented, tick in Hn. simpl in Hn. lia.
Qed.

Lemma consume_in_window_zero category r w :
  in_window category r 0 w →
  (RateLimiter.consume category w).1 = false ∧
  in_window category r 0 (RateLimiter.consume category w).2.
Proof.
  intros (Hon & (b & Hb & Hrem & Hreset) & Hclock).
  rewrite consume_unfold, Hon, Hb. simpl negb. cbv iota.
  rewrite Hreset, ge_Num_false by (apply Hclock; lia).
  cbv zeta. change (buckets (tick w)) with (buckets w). rewrite Hb. simpl default.
  rewrite Hrem. unfold Number.le at 1.
  rewrite bool_decide_eq_true_2 by lia.
  split; [reflexivity|]. simpl. repeat split.
  - exact Hon.
  - exists b. auto.
  - intros n Hn. apply Hclock. unfold tick in Hn. simpl in Hn. lia.
Qed.

Lemma canExecute_in_window_zero category r w :
  in_window category r 0 w →
  (RateLimiter.canExecute category w).1 = false ∧
  in_window category r 0 (RateLimiter.canExecute category w).2.
Proof.
  intros (Hon & (b & Hb & Hrem & Hreset) & Hclock).
  rewrite canExecute_unfold, Hon, Hb. simpl negb. cbv iota.
  rewrite Hreset, ge_Num_false by (apply Hclock; lia).
  rewrite Hrem. split; [reflexivity|]. simpl. repeat split.
  - exact Hon.
  - exists b. auto.
  - intros n Hn. apply Hclock. unfold tick in Hn. simpl in Hn. lia.
Qed.

Lemma consume_times_in_window category r k : ∀ w,
  in_window category r k w →
  (consume_times category k w).1 = replicate k true ∧
  in_window category r 0 (consume_times category k w).2.
Proof.
  induction k as [|k IH]; intros w Hw.
  - split; [reflexivity | exact Hw].
  - destruct (consume_in_window_pos _ _ _ _ Hw) as [Hres Hw'].
    simpl. unfold_M.
    destruct (RateLimiter.consume category w) as [res w'] eqn:E.
    simpl in Hres, Hw'. subst res.
    destruct (IH w' Hw') as [Hrest Hw''].
    destruct (consume_times category k w') as [rest w''].
    simpl in *. rewrite Hrest. split; [reflexivity | exact Hw''].
Qed.

Lemma constructor_in_window category w0 :
  within_window category (RateLimiter.constructor true w0).2 →
  in_window category
    (date_now w0 (RateLimitCategory_index category + clock_reads w0)
     + RateLimitConfig.window_seconds (DEFAULT_LIMITS category) * 1000)
    (capacity category)
    (RateLimiter.constructor true w0).2.
Proof.
  intros Hwin. repeat split.
  - exists (fresh_bucket category
              (date_now w0 (RateLimitCategory_index category + clock_reads w0))).
    rewrite constructor_buckets. repeat split.
    unfold capacity. simpl. f_equal. destruct category; reflexivity.
  - intros n Hn.
    specialize (Hwin _ n (constructor_buckets true w0 category) Hn).
    unfold Number.ge in Hwin. simpl in Hwin.
    apply bool_decide_eq_false_1 in Hwin.
    destruct (constructor_clock true w0) as [-> _]. lia.
Qed.

(** C1.  With rate limiting enabled and a freshly constructed limiter,
    for every category whose calls all fall within the first window:
    [capacity] calls of [consume] in sequence all return [true]; after
    them [canExecute] returns [false], and the next call of [consume],
    the [capacity+1]-th, returns [false], whether or not [canExecute] was
    asked first. *)
Theorem consume_capacity_then_refused
    (category : RateLimitCategory) (w0 : World) :
  let w := (RateLimiter.constructor true w0).2 in
  within_window category w →
  let w' := (consume_times category (capacity category) w).2 in
  (consume_times category (capacity category) w).1
    = replicate (capacity category) true ∧
  (RateLimiter.canExecute category w').1 = false ∧
  (RateLimiter.consume category (RateLimiter.canExecute category w').2).1
    = false ∧
  (RateLimiter.consume category w').1 = false.
Proof.
  intros w Hwin w'.
  pose proof (constructor_in_window category w0 Hwin) as Hfresh.
  destruct (consume_times_in_window _ _ _ _ Hfresh) as [Hres Hempty].
  fold w in Hres, Hempty. fold w' in Hempty.
  destruct (canExecute_in_window_zero _ _ _ Hempty) as [Hcan Hempty'].
  repeat split.
  - exact Hres.
  - exact Hcan.
  - apply (consume_in_window_zero _ _ _ Hempty').
  - apply (consume_in_window_zero _ _ _ Hempty).
Qed.

Lemma steady_world_within_window category :
  within_window category steady_world.
Proof.
  intros b n Hb _.
  rewrite constructor_buckets in Hb. injection Hb as <-.
  rewrite (proj1 (constructor_clock _ _)).
  apply ge_Num_false. destruct category; reflexivity.
Qed.

Lemma consume_capacity_then_refused_witness :
  within_window read steady_world ∧
  (consume_times read (capacity read) steady_world).1
    = replicate (capacity read) true ∧
  (RateLimiter.canExecute read
     (consume_times read (capacity read) steady_world).2).1 = false ∧
  (RateLimiter.consume read
     (RateLimiter.canExecute read
        (consume_times read (capacity read) steady_world).2).2).1 = false ∧
  (RateLimiter.consume read
     (consume_times read (capacity read) steady_world).2).1 = false.
Proof.
  split.
  - apply steady_world_within_window.
  - exact (consume_capacity_then_refused read
             (blank_world (λ _, 0) (ok_response ∅))
             (steady_world_within_window read)).
Defined.

(** *** Lazy refresh *)

Lemma refreshed_lookup category w :
  buckets (refreshed category w) !! category =
  (λ b, {| limit := limit b;
           remaining := Num (RateLimitConfig.limit (DEFAULT_LIMITS category));
           reset_at :=
             Num (date_now w (clock_reads w)
                  + RateLimitConfig.window_seconds (DEFAULT_LIMITS category)
                    * 1000);
           window_seconds := window_seconds b |}) <$> buckets w !! category.
Proof.
  unfold refreshed. simpl. rewrite !lookup_alter_eq.
  destruct (buckets w !! category); reflexivity.
Qed.

Lemma refreshed_lookup_ne category other w :
  category ≠ other →
  buckets (refreshed category w) !! other = buckets w !! other.
Proof.
  intros Hne. unfold refreshed. simpl. rewrite !lookup_alter_ne by exact Hne.
  reflexivity.
Qed.

Lemma default_limit_positive category :
  0 < RateLimitConfig.limit (DEFAULT_LIMITS category).
Proof. destruct category; reflexivity. Qed.

(** C2, as the code has it.  With rate limiting enabled, [canExecute]
    refreshes the bucket when the clock has reached [reset_at]:
    [remaining] is restored to the capacity of the category in the static
    table of defaults, and [reset_at] is set one default window after the
    time read during the refresh; the other fields are kept.  Otherwise
    the bucket is left as it is.  In both cases the answer is the value of
    [remaining > 0] on the resulting bucket.  When the capacity of the
    bucket is the default one, a refresh leaves [remaining] equal to the
    capacity. *)
Theorem canExecute_lazy_refresh
    (category : RateLimitCategory) (w : World) (b : RateLimitBucket) :
  enabled w = true →
  buckets w !! category = Some b →
  let config := DEFAULT_LIMITS category in
  let due := Number.ge (Num (date_now w (clock_reads w))) (reset_at b) in
  let w' := (RateLimiter.canExecute category w).2 in
  ∃ b', buckets w' !! category = Some b' ∧
        (RateLimiter.canExecute category w).1
          = Number.gt (remaining b') (Num 0) ∧
        (due = true →
           b' = {| limit := limit b;
                   remaining := Num (RateLimitConfig.limit config);
                   reset_at :=
                     Num (date_now w (S (clock_reads w))
                          + RateLimitConfig.window_seconds config * 1000);
                   window_seconds := window_seconds b |} ∧
           (limit b = Num (RateLimitConfig.limit config) →
              remaining b' = limit b')) ∧
        (due = false → b' = b).
Proof.
  intros Hon Hb config due w'. subst w'.
  rewrite canExecute_unfold, Hon, Hb. simpl negb. cbv iota.
  fold due. destruct due.
  - eexists. cbn [fst snd]. rewrite refreshed_lookup.
    change (buckets (tick w)) with (buckets w). rewrite Hb. simpl.
    split; [reflexivity|]. split.
    + unfold Number.gt. symmetry. apply bool_decide_eq_true_2.
      pose proof (default_limit_positive category). lia.
    + split; [|discriminate]. intros _. split; [reflexivity|].
      simpl. intros ->. reflexivity.
  - exists b. simpl. split; [exact Hb|]. split; [reflexivity|].
    split; [discriminate | reflexivity].
Qed.

(** C2 fails as stated: after a resync that raised the capacity of [read]
    to 500, a refresh by [canExecute] restores [remaining] to the default
    200, not to the capacity. *)
Lemma canExecute_refresh_misses_capacity :
  let w := after_capacity_resync in
  let w' := (RateLimiter.canExecute read w).2 in
  enabled w = true ∧
  buckets w !! read = Some (mkBucket (Num 500) (Num 200) (Num 3600000) (Num 3600)) ∧
  date_now w (clock_reads w) = 4000000 ∧
  buckets w' !! read
    = Some (mkBucket (Num 500) (Num 200) (Num 7600000) (Num 3600)) ∧
  (remaining <$> buckets w' !! read) ≠ (limit <$> buckets w' !! read).
Proof.
  vm_compute. repeat split. discriminate.
Qed.

Lemma canExecute_lazy_refresh_witness :
  enabled late_world = true ∧
  buckets late_world !! read = Some (fresh_bucket read 0) ∧
  ∃ b', buckets (RateLimiter.canExecute read late_world).2 !! read = Some b' ∧
        (RateLimiter.canExecute read late_world).1
          = Number.gt (remaining b') (Num 0) ∧
        (Number.ge (Num (date_now late_world (clock_reads late_world)))
                   (reset_at (fresh_bucket read 0)) = true →
           b' = mkBucket (Num 200) (Num 200) (Num 7600000) (Num 3600) ∧
           (limit (fresh_bucket read 0) = Num 200 → remaining b' = limit b')) ∧
        (Number.ge (Num (date_now late_world (clock_reads late_world)))
                   (reset_at (fresh_bucket read 0)) = false →
           b' = fresh_bucket read 0).
Proof.
  split; [reflexivity|]. split; [reflexivity|].
  exact (canExecute_lazy_refresh read late_world (fresh_bucket read 0)
           eq_refl eq_refl).
Defined.

(** *** The bound on [remaining] *)

Lemma tracked_constructor on w0 :
  tracked (buckets (RateLimiter.constructor on w0).2).
Proof.
  intros category. eexists _, _. rewrite constructor_buckets.
  split; [reflexivity|]. split; [reflexivity|]. split; [reflexivity|].
  pose proof (default_limit_positive category). simpl. lia.
Qed.

Lemma tracked_refreshed category w :
  tracked (buckets w) → tracked (buckets (refreshed category w)).
Proof.
  intros Hw other. destruct (Hw other) as (b & r & Hb & Hlimit & Hrem & Hr).
  destruct (decide (category = other)) as [->|Hne].
  - rewrite refreshed_lookup, Hb. eexists _, _.
    split; [reflexivity|]. split; [exact Hlimit|]. split; [reflexivity|].
    pose proof (default_limit_positive other). lia.
  - rewrite refreshed_lookup_ne by exact Hne. eauto 10.
Qed.

Lemma tracked_decremented category w b :
  tracked (buckets w) →
  buckets w !! category = Some b →
  Number.le (remaining b) (Num 0) = false →
  tracked (buckets (decremented category w)).
Proof.
  intros Hw Hb Hpos other.
  destruct (Hw other) as (b' & r & Hb' & Hlimit & Hrem & Hr).
  unfold decremented. simpl.
  destruct (decide (category = other)) as [->|Hne].
  - rewrite lookup_alter_eq, Hb'. rewrite Hb in Hb'. injection Hb' as ->.
    rewrite Hrem in Hpos. unfold Number.le in Hpos.
    apply bool_decide_eq_false_1 in Hpos.
    eexists _, (r - 1). split; [reflexivity|]. split; [exact Hlimit|].
    split; [simpl; rewrite Hrem; reflexivity | lia].
  - rewrite lookup_alter_ne by exact Hne. eauto 10.
Qed.

Lemma tracked_canExecute category w :
  tracked (buckets w) →
  tracked (buckets (RateLimiter.canExecute category w).2).
Proof.
  intros Hw. rewrite canExecute_unfold.
  destruct (negb (enabled w)); [exact Hw|].
  destruct (buckets w !! category) as [b|]; [|exact Hw].
  destruct (Number.ge _ _); cbn [snd].
  - apply tracked_refreshed. exact Hw.
  - exact Hw.
Qed.

Lemma tracked_consume category w :
  tracked (buckets w) →
  tracked (buckets (RateLimiter.consume category w).2).
Proof.
  intros Hw. rewrite consume_unfold.
  destruct (negb (enabled w)); [exact Hw|].
  destruct (buckets w !! category) as [held|] eqn:Hheld; [|exact Hw].
  cbv zeta.
  set (w1 := if Number.ge (Num (date_now w (clock_reads w))) (reset_at held)
             then refreshed category (tick w) else tick w).
  assert (Hw1 : tracked (buckets w1)).
  { subst w1. destruct (Number.ge _ _); [apply tracked_refreshed|]; exact Hw. }
  destruct (Hw1 category) as (b1 & r & Hb1 & _).
  rewrite Hb1. simpl default.
  destruct (Number.le (remaining b1) (Num 0)) eqn:Hle; cbn [snd].
  - exact Hw1.
  - exact (tracked_decremented category w1 b1 Hw1 Hb1 Hle).
Qed.

Lemma getWaitTime_buckets category w :
  buckets (RateLimiter.getWaitTime category w).2 = buckets w ∧
  enabled (RateLimiter.getWaitTime category w).2 = enabled w.
Proof.
  unfold RateLimiter.getWaitTime. unfold_M.
  destruct (enabled w) eqn:Hon; simpl; [|auto].
  destruct (buckets w !! category) as [b|]; [|auto].
  destruct (Number.gt (remaining b) (Num 0)); auto.
Qed.

Lemma getWaitTimeFormatted_buckets category w :
  buckets (RateLimiter.getWaitTimeFormatted category w).2 = buckets w ∧
  enabled (RateLimiter.getWaitTimeFormatted category w).2 = enabled w.
Proof.
  unfold RateLimiter.getWaitTimeFormatted. unfold_M.
  pose proof (getWaitTime_buckets category w) as H.
  destruct (RateLimiter.getWaitTime category w). exact H.
Qed.

Lemma tracked_perform call w :
  tracked (buckets w) → tracked (buckets (perform call w).2).
Proof.
  intros Hw. destruct call as [c|c|c|c|c|on|]; unfold perform; unfold_M.
  - pose proof (tracked_canExecute c w Hw) as H.
    destruct (RateLimiter.canExecute c w). exact H.
  - pose proof (tracked_consume c w Hw) as H.
    destruct (RateLimiter.consume c w). exact H.
  - pose proof (getWaitTime_buckets c w) as [H _].
    destruct (RateLimiter.getWaitTime c w). simpl in *. rewrite H. exact Hw.
  - pose proof (getWaitTimeFormatted_buckets c w) as [H _].
    destruct (RateLimiter.getWaitTimeFormatted c w). simpl in *.
    rewrite H. exact Hw.
  - exact Hw.
  - exact Hw.
  - exact Hw.
Qed.

Lemma tracked_perform_all calls : ∀ w,
  tracked (buckets w) → tracked (buckets (perform_all calls w).2).
Proof.
  induction calls as [|call calls IH]; intros w Hw; [exact Hw|].
  simpl. unfold_M. pose proof (tracked_perform call w Hw) as H.
  destruct (perform call w) as [[] w']. apply IH. exact H.
Qed.

(** C4 fails as stated: [updateFromHeaders] stores whatever the header
    holds, above the capacity or below zero; and after a resync to 50
    permits out of 100, the next refresh restores the default 200, above
    the capacity of 100 that the bucket now has. *)
Lemma resync_leaves_capacity_bound :
  buckets (after_remaining_resync "500") !! read
    = Some (mkBucket (Num 200) (Num 500) (Num 3600000) (Num 3600)) ∧
  Number.le (Num 500) (Num 200) = false ∧
  buckets (after_remaining_resync "-3") !! read
    = Some (mkBucket (Num 200) (Num (-3)) (Num 3600000) (Num 3600)) ∧
  Number.le (Num 0) (Num (-3)) = false ∧
  buckets after_lower_resync !! read
    = Some (mkBucket (Num 100) (Num 50) (Num 3600000) (Num 3600)) ∧
  buckets (RateLimiter.canExecute read after_lower_resync).2 !! read
    = Some (mkBucket (Num 100) (Num 200) (Num 7600000) (Num 3600)).
Proof.
  vm_compute. repeat split.
Qed.

(** C4, as the code has it.  After construction and after each call of
    any sequence of [canExecute], [consume], [getWaitTime],
    [getWaitTimeFormatted], [getBucketStatus], [setEnabled] and
    [isEnabled] (lazy refreshes included, [updateFromHeaders] excluded),
    every bucket satisfies [0 <= remaining <= limit]. *)
Theorem remaining_within_capacity_without_resync
    (on : bool) (w0 : World) (calls : list TrackerCall)
    (category : RateLimitCategory) :
  let w := (perform_all calls (RateLimiter.constructor on w0).2).2 in
  ∃ b cap r,
    buckets w !! category = Some b ∧
    limit b = Num cap ∧ remaining b = Num r ∧ 0 <= r <= cap.
Proof.
  intros w.
  destruct (tracked_perform_all calls _ (tracked_constructor on w0) category)
    as (b & r & Hb & Hlimit & Hrem & Hr).
  exists b, (RateLimitConfig.limit (DEFAULT_LIMITS category)), r. auto.
Qed.

(** *** What [canExecute] changes *)

(** C10 fails as stated: on a bucket resynchronised to 500 permits out of
    1000, a refresh by [canExecute] lowers [remaining] to the default 200,
    which is neither the previous value nor the capacity. *)
Lemma canExecute_lowers_remaining :
  let w := after_full_resync in
  let w' := (RateLimiter.canExecute read w).2 in
  buckets w !! read
    = Some (mkBucket (Num 1000) (Num 500) (Num 3600000) (Num 3600)) ∧
  buckets w' !! read
    = Some (mkBucket (Num 1000) (Num 200) (Num 7600000) (Num 3600)) ∧
  Number.gt (Num 500) (Num 200) = true.
Proof.
  vm_compute. repeat split.
Qed.

(** C10, as the code has it.  After [canExecute] the bucket of the
    category is either unchanged or refreshed: [remaining] set to the
    default capacity of the category and [reset_at] to one default window
    after the time of the refresh, which happens only when the limiter is
    enabled and the deadline is reached.  [limit] and [window_seconds]
    never change, the other buckets and the switch are untouched, and
    [remaining] does not decrease provided it was at most the default
    capacity.  [getWaitTime], [getWaitTimeFormatted] and [setEnabled]
    change no bucket. *)
Theorem canExecute_frame
    (category : RateLimitCategory) (w : World) (b : RateLimitBucket) :
  buckets w !! category = Some b →
  let config := DEFAULT_LIMITS category in
  let w' := (RateLimiter.canExecute category w).2 in
  (∃ b', buckets w' !! category = Some b' ∧
         limit b' = limit b ∧ window_seconds b' = window_seconds b ∧
         (b' = b ∨
          (enabled w = true ∧
           Number.ge (Num (date_now w (clock_reads w))) (reset_at b) = true ∧
           remaining b' = Num (RateLimitConfig.limit config) ∧
           reset_at b' =
             Num (date_now w (S (clock_reads w))
                  + RateLimitConfig.window_seconds config * 1000))) ∧
         (Number.le (remaining b) (Num (RateLimitConfig.limit config)) = true →
          Number.le (remaining b) (remaining b') = true)) ∧
  (∀ other, other ≠ category → buckets w' !! other = buckets w !! other) ∧
  enabled w' = enabled w ∧
  buckets (RateLimiter.getWaitTime category w).2 = buckets w ∧
  buckets (RateLimiter.getWaitTimeFormatted category w).2 = buckets w ∧
  (∀ on, buckets (RateLimiter.setEnabled on w).2 = buckets w).
Proof.
  intros Hb config w'.
  assert (Hsame : ∀ r, Number.le (remaining b) (Num r) = true →
                       Number.le (remaining b) (remaining b) = true).
  { intros r. destruct (remaining b); [|discriminate]. intros _.
    unfold Number.le. apply bool_decide_eq_true_2. lia. }
  split; [|split; [|split; [|split; [|split]]]].
  - subst w'. rewrite canExecute_unfold, Hb.
    destruct (enabled w) eqn:Hon; simpl negb; cbv iota.
    + destruct (Number.ge _ _) eqn:Hdue; cbn [snd].
      * rewrite refreshed_lookup.
        change (buckets (tick w)) with (buckets w). rewrite Hb.
        eexists. split; [reflexivity|]. simpl.
        split; [reflexivity|]. split; [reflexivity|].
        split; [right; auto|]. intros H; exact H.
      * exists b. change (buckets (tick w)) with (buckets w).
        split; [exact Hb|]. split; [reflexivity|]. split; [reflexivity|].
        split; [left; reflexivity|]. apply Hsame.
    + exists b. split; [exact Hb|]. split; [reflexivity|].
      split; [reflexivity|]. split; [left; reflexivity|]. apply Hsame.
  - intros other Hne. subst w'. rewrite canExecute_unfold, Hb.
    destruct (negb (enabled w)); [reflexivity|].
    destruct (Number.ge _ _); cbn [snd]; [|reflexivity].
    rewrite refreshed_lookup_ne by congruence. reflexivity.
  - subst w'. rewrite canExecute_unfold, Hb.
    destruct (negb (enabled w)); [reflexivity|].
    destruct (Number.ge _ _); reflexivity.
  - apply getWaitTime_buckets.
  - apply getWaitTimeFormatted_buckets.
  - reflexivity.
Qed.

Lemma canExecute_frame_witness :
  buckets late_world !! read = Some (fresh_bucket read 0) ∧
  (∃ b', buckets (RateLimiter.canExecute read late_world).2 !! read = Some b' ∧
         limit b' = Num 200 ∧ window_seconds b' = Num 3600 ∧
         (b' = fresh_bucket read 0 ∨
          (enabled late_world = true ∧
           Number.ge (Num (date_now late_world (clock_reads late_world)))
                     (Num 3600000) = true ∧
           remaining b' = Num 200 ∧
           reset_at b' =
             Num (date_now late_world (S (clock_reads late_world))
                  + 3600 * 1000))) ∧
         (Number.le (Num 200) (Num 200) = true →
          Number.le (Num 200) (remaining b') = true)) ∧
  (∀ other, other ≠ read →
     buckets (RateLimiter.canExecute read late_world).2 !! other
       = buckets late_world !! other) ∧
  enabled (RateLimiter.canExecute read late_world).2 = enabled late_world ∧
  buckets (RateLimiter.getWaitTime read late_world).2 = buckets late_world ∧
  buckets (RateLimiter.getWaitTimeFormatted read late_world).2
    = buckets late_world ∧
  (∀ on, buckets (RateLimiter.setEnabled on late_world).2 = buckets late_world).
Proof.
  split; [reflexivity|].
  exact (canExecute_frame read late_world (fresh_bucket read 0) eq_refl).
Defined.

(** ** The request layer *)

Lemma outside_limiter_refl w : outside_limiter w w.
Proof. repeat split. Qed.

Lemma outside_limiter_trans w1 w2 w3 :
  outside_limiter w1 w2 → outside_limiter w2 w3 → outside_limiter w1 w3.
Proof.
  unfold outside_limiter. intros H1 H2.
  destruct H1 as (?&?&?&?&?&?&?), H2 as (?&?&?&?&?&?&?).
  repeat split; congruence.
Qed.

Lemma canExecute_outside category w :
  outside_limiter w (RateLimiter.canExecute category w).2.
Proof.
  rewrite canExecute_unfold.
  destruct (negb (enabled w)); [apply outside_limiter_refl|].
  destruct (buckets w !! category); [|apply outside_limiter_refl].
  destruct (Number.ge _ _); repeat split.
Qed.

Lemma consume_outside category w :
  outside_limiter w (RateLimiter.consume category w).2.
Proof.
  rewrite consume_unfold.
  destruct (negb (enabled w)); [apply outside_limiter_refl|].
  destruct (buckets w !! category); [|apply outside_limiter_refl].
  cbv zeta. destruct (Number.ge _ _), (Number.le _ _); repeat split.
Qed.

Lemma getWaitTimeFormatted_outside category w :
  outside_limiter w (RateLimiter.getWaitTimeFormatted category w).2.
Proof.
  unfold RateLimiter.getWaitTimeFormatted, RateLimiter.getWaitTime. unfold_M.
  destruct (negb (enabled w)); [apply outside_limiter_refl|].
  destruct (buckets w !! category) as [b|]; [|apply outside_limiter_refl].
  destruct (Number.gt (remaining b) (Num 0)); repeat split.
Qed.

Lemma updateFromHeaders_outside category headers w :
  outside_limiter w (RateLimiter.updateFromHeaders category headers w).2.
Proof.
  unfold RateLimiter.updateFromHeaders. unfold_M.
  destruct (buckets w !! category); [|apply outside_limiter_refl].
  destruct (RateLimiter.header "x-ratelimit-remaining" headers),
           (RateLimiter.header "x-ratelimit-reset" headers),
           (RateLimiter.header "x-ratelimit-limit" headers); repeat split.
Qed.

Lemma auth_headers_outside api w w' :
  outside_limiter w w' →
  InstagramClient.auth_headers api w' = InstagramClient.auth_headers api w.
Proof.
  intros (_&_&_&_&Htokens&_).
  unfold InstagramClient.auth_headers, InstagramAuth.getGraphApiHeaders,
    InstagramAuth.getPrivateApiHeaders, InstagramAuth.generateDeviceId,
    InstagramAuth.generateAndroidId, InstagramAuth.seed,
    InstagramAuth.getGraphApiToken, InstagramAuth.getPrivateApiSession.
  rewrite Htokens. reflexivity.
Qed.

(** C3.  For each entry point of the request layer ([get], [post],
    [delete], [uploadMedia]) and every endpoint, payload and category:
    when [canExecute] answers [false] for the category of the call, the
    call returns the failure whose code is [RATE_LIMIT_LOCAL] and whose
    message ends with the wait time formatted by [getWaitTimeFormatted],
    and no request is handed to the transport. *)
Theorem rate_limited_dispatch_sends_nothing (d : Dispatch) (w : World) :
  (RateLimiter.canExecute (category_of d) w).1 = false →
  let w1 := (RateLimiter.canExecute (category_of d) w).2 in
  let waitTime := (RateLimiter.getWaitTimeFormatted (category_of d) w1).1 in
  (dispatch d w).1 =
    {| ApiResponse.success := false;
       ApiResponse.data := None;
       ApiResponse.error := Some (ThrowApiError
         {| ApiError.code := JString "RATE_LIMIT_LOCAL";
            ApiError.message :=
              JString ("Rate limit local atteint. Réessayez dans " ++ waitTime);
            ApiError.details := None |}) |} ∧
  requests (dispatch d w).2 = requests w.
Proof.
  intros Hrefused w1 waitTime.
  assert (Hcall : dispatch d w =
            (InstagramClient.rate_limit_local waitTime,
             (RateLimiter.getWaitTimeFormatted (category_of d) w1).2)).
  { subst w1 waitTime.
    destruct d; simpl dispatch; simpl category_of in *;
      unfold InstagramClient.get, InstagramClient.post, InstagramClient.delete,
        InstagramClient.uploadMedia;
      unfold mbind, mret, M_bind, M_ret;
      match goal with
      | |- context [RateLimiter.canExecute ?c w] =>
          destruct (RateLimiter.canExecute c w) as [allowed w1]
      end;
      simpl in Hrefused; subst allowed; simpl;
      match goal with
      | |- context [RateLimiter.getWaitTimeFormatted ?c ?w'] =>
          destruct (RateLimiter.getWaitTimeFormatted c w')
      end; reflexivity. }
  rewrite Hcall. split; [reflexivity|]. cbn [snd].
  pose proof (canExecute_outside (category_of d) w) as H1.
  pose proof (getWaitTimeFormatted_outside (category_of d) w1) as H2.
  destruct (outside_limiter_trans _ _ _ H1 H2) as (_&_&Hreq&_).
  exact Hreq.
Qed.

Lemma rate_limited_dispatch_sends_nothing_witness :
  (RateLimiter.canExecute write exhausted_world).1 = false ∧
  (dispatch (DoPost "/me/media" None RequestOptions.none) exhausted_world).1 =
    {| ApiResponse.success := false;
       ApiResponse.data := None;
       ApiResponse.error := Some (ThrowApiError
         {| ApiError.code := JString "RATE_LIMIT_LOCAL";
            ApiError.message :=
              JString "Rate limit local atteint. Réessayez dans 1h 0m";
            ApiError.details := None |}) |} ∧
  requests
    (dispatch (DoPost "/me/media" None RequestOptions.none) exhausted_world).2
    = requests exhausted_world.
Proof.
  split; [vm_compute; reflexivity|].
  exact (rate_limited_dispatch_sends_nothing
           (DoPost "/me/media" None RequestOptions.none) exhausted_world
           eq_refl).
Defined.

(** *** Calls that reach the transport *)

Ltac reach_transport w Hallowed Hheaders Hnet :=
  unfold InstagramClient.get, InstagramClient.post, InstagramClient.delete,
    InstagramClient.updateRateLimitsFromHeaders, InstagramClient.send;
  unfold mbind, mret, M_bind, M_ret, gets;
  match goal with
  | |- context [RateLimiter.canExecute ?c w] =>
      let H := fresh "Hout" in
      pose proof (canExecute_outside c w) as H;
      destruct (RateLimiter.canExecute c w) as [allowed w1];
      cbn [fst snd] in Hallowed, H |- *; subst allowed; cbn [negb];
      rewrite (auth_headers_outside _ _ _ H), Hheaders;
      destruct H as (_ & Hnetwork & Hrequests & _);
      rewrite Hnetwork, Hrequests, Hnet
  end.




(** C5 on the code, at a response of [delete] that carries quota headers.
    On the same fulfilled response, which reports 5 remaining permits,
    [post] and [get] consume a permit and then take the reported value,
    while [delete] only consumes: its bucket is left at 24 of 25. *)
Theorem delete_skips_resync :
  let w := client_world (ok_response quota_headers) in
  let after_delete :=
    InstagramClient.delete "/17900000000000000" RequestOptions.none w in
  let after_post :=
    InstagramClient.post "/17900000000000000" None RequestOptions.none w in
  let after_get :=
    InstagramClient.get "/17900000000000000" None RequestOptions.none w in
  ApiResponse.success after_delete.1 = true ∧
  buckets after_delete.2 !! write
    = Some (mkBucket (Num 25) (Num 24) (Num 3600000) (Num 3600)) ∧
  ApiResponse.success after_post.1 = true ∧
  buckets after_post.2 !! write
    = Some (mkBucket (Num 25) (Num 5) (Num 3600000) (Num 3600)) ∧
  ApiResponse.success after_get.1 = true ∧
  buckets after_get.2 !! read
    = Some (mkBucket (Num 200) (Num 5) (Num 3600000) (Num 3600)).
Proof.
  vm_compute. repeat split.
Qed.



(** The placeholder for a response without content exists in the Contabo
    adapter: its request helper returns [{success: true}] on a 204,
    without reading the body. *)
Lemma contabo_no_content_placeholder text json :
  Contabo.contaboRequest_result (FetchResponse.mk 204 text json)
  = Returned (JObject [("success", JBool true)]).
Proof. reflexivity. Qed.



(** ** Credentials *)

(** *** The derivation of the device identifiers *)

Lemma to_int32_shift (z : Z) : ∃ k, InstagramAuth.to_int32 z = z + k * 2 ^ 32.
Proof.
  exists (- ((z + 2 ^ 31) `div` 2 ^ 32)). unfold InstagramAuth.to_int32.
  rewrite Z.mod_eq by lia. lia.
Qed.

Lemma to_int32_range (z : Z) : - 2 ^ 31 <= InstagramAuth.to_int32 z < 2 ^ 31.
Proof.
  unfold InstagramAuth.to_int32.
  pose proof (Z.mod_pos_bound (z + 2 ^ 31) (2 ^ 32) ltac:(lia)). lia.
Qed.

Lemma to_int32_congruent (a b k : Z) :
  a = b + k * 2 ^ 32 → InstagramAuth.to_int32 a = InstagramAuth.to_int32 b.
Proof.
  intros ->. unfold InstagramAuth.to_int32.
  replace (b + k * 2 ^ 32 + 2 ^ 31) with (b + 2 ^ 31 + k * 2 ^ 32) by lia.
  rewrite Z.mod_add by lia. reflexivity.
Qed.

Lemma to_int32_small (z : Z) :
  - 2 ^ 31 <= z < 2 ^ 31 → InstagramAuth.to_int32 z = z.
Proof.
  intros Hz. unfold InstagramAuth.to_int32. rewrite Z.mod_small by lia. lia.
Qed.

(** One iteration multiplies by 31 and adds the character, modulo 2^32. *)
Lemma hash_step_spec (h : Z) (c : ascii) :
  InstagramAuth.hash_step h c
  = InstagramAuth.to_int32 (31 * h + Z.of_nat (nat_of_ascii c)).
Proof.
  unfold InstagramAuth.hash_step. cbv zeta. rewrite Z.land_diag.
  rewrite Z.shiftl_mul_pow2 by lia.
  destruct (to_int32_shift h) as [k1 Hk1].
  destruct (to_int32_shift (InstagramAuth.to_int32 h * 2 ^ 5)) as [k2 Hk2].
  apply (to_int32_congruent _ _ (32 * k1 + k2)). rewrite Hk2, Hk1. lia.
Qed.

Lemma hash_fold_congruent (l : list ascii) : ∀ h k m,
  h = k + m * 2 ^ 32 →
  ∃ m', foldl InstagramAuth.hash_step h l
        = foldl (λ h c, 31 * h + Z.of_nat (nat_of_ascii c)) k l + m' * 2 ^ 32.
Proof.
  induction l as [|c l IH]; intros h k m Hh; [exists m; exact Hh|].
  simpl. rewrite hash_step_spec.
  destruct (to_int32_shift (31 * h + Z.of_nat (nat_of_ascii c))) as [k1 Hk1].
  apply (IH _ _ (31 * m + k1)). rewrite Hk1, Hh. lia.
Qed.

Lemma hash_fold_range (l : list ascii) : ∀ h,
  - 2 ^ 31 <= h < 2 ^ 31 →
  - 2 ^ 31 <= foldl InstagramAuth.hash_step h l < 2 ^ 31.
Proof.
  induction l as [|c l IH]; intros h Hh; [exact Hh|].
  simpl. apply IH. rewrite hash_step_spec. apply to_int32_range.
Qed.

Lemma hex_digit_cons (r : N) (d : Hexadecimal.uint) :
  (r < 16)%N →
  ∃ d', Hexadecimal.nb_digits d' = S (Hexadecimal.nb_digits d) ∧
        HexadecimalPos.Unsigned.of_lu d'
        = (r + 16 * HexadecimalPos.Unsigned.of_lu d)%N.
Proof.
  intros Hr.
  assert (Hcases : (r = 0 ∨ r = 1 ∨ r = 2 ∨ r = 3 ∨ r = 4 ∨ r = 5 ∨ r = 6
                    ∨ r = 7 ∨ r = 8 ∨ r = 9 ∨ r = 10 ∨ r = 11 ∨ r = 12
                    ∨ r = 13 ∨ r = 14 ∨ r = 15)%N) by lia.
  decompose [or] Hcases; subst r;
    [ exists (Hexadecimal.D0 d) | exists (Hexadecimal.D1 d)
    | exists (Hexadecimal.D2 d) | exists (Hexadecimal.D3 d)
    | exists (Hexadecimal.D4 d) | exists (Hexadecimal.D5 d)
    | exists (Hexadecimal.D6 d) | exists (Hexadecimal.D7 d)
    | exists (Hexadecimal.D8 d) | exists (Hexadecimal.D9 d)
    | exists (Hexadecimal.Da d) | exists (Hexadecimal.Db d)
    | exists (Hexadecimal.Dc d) | exists (Hexadecimal.Dd d)
    | exists (Hexadecimal.De d) | exists (Hexadecimal.Df d) ];
    split; reflexivity.
Qed.

Lemma hex_digits_exist (k : nat) : ∀ n : N,
  (n < 16 ^ N.of_nat k)%N →
  ∃ d, Hexadecimal.nb_digits d = k ∧ HexadecimalPos.Unsigned.of_lu d = n.
Proof.
  induction k as [|k IH]; intros n Hn.
  - exists Hexadecimal.Nil. split; [reflexivity|]. simpl in *. lia.
  - assert (Hpow : (16 ^ N.of_nat (S k) = 16 * 16 ^ N.of_nat k)%N).
    { rewrite Nat2N.inj_succ, N.pow_succ_r'. reflexivity. }
    assert (Hsplit : n = (16 * (n `div` 16) + n `mod` 16)%N)
      by (apply N.div_mod; discriminate).
    assert (Hr : (n `mod` 16 < 16)%N) by (apply N.mod_lt; discriminate).
    destruct (IH (n `div` 16)%N) as (d & Hlen & Hvalue).
    { apply N.Div0.div_lt_upper_bound. rewrite <- Hpow. exact Hn. }
    destruct (hex_digit_cons (n `mod` 16) d Hr) as (d' & Hlen' & Hvalue').
    exists d'. split; [lia|]. rewrite Hvalue', Hvalue. lia.
Qed.

Lemma string_of_hex_length (d : Hexadecimal.uint) :
  String.length (NilEmpty.string_of_uint d) = Hexadecimal.nb_digits d.
Proof.
  induction d; simpl; congruence.
Qed.

Lemma toString16_length (n : Z) :
  0 <= n < 2 ^ 32 →
  (1 ≤ String.length (InstagramAuth.toString16 n) ≤ 8)%nat.
Proof.
  intros Hn. unfold InstagramAuth.toString16.
  destruct (hex_digits_exist 8 (Z.to_N n)) as (d & Hlen & Hvalue).
  { change (16 ^ N.of_nat 8)%N with (Z.to_N (2 ^ 32)). lia. }
  rewrite <- Hvalue, <- HexadecimalPos.Unsigned.of_lu_rev,
    HexadecimalPos.Unsigned.to_of.
  assert (Hnonnil : Hexadecimal.rev d ≠ Hexadecimal.Nil).
  { apply nb_digits_n0. rewrite nb_digits_rev, Hlen. discriminate. }
  pose proof (nb_digits_unorm _ Hnonnil) as Hshort.
  rewrite nb_digits_rev, Hlen in Hshort.
  pose proof (unorm_nonnil (Hexadecimal.rev d)) as Hunorm.
  destruct (Hexadecimal.unorm (Hexadecimal.rev d)) eqn:Hu;
    try contradiction;
    unfold NilZero.string_of_uint;
    rewrite <- Hu at 1; rewrite Hu;
    cbv iota; rewrite string_of_hex_length; simpl in *; lia.
Qed.

Lemma string_length_app (s1 s2 : string) :
  String.length (s1 ++ s2) = (String.length s1 + String.length s2)%nat.
Proof.
  induction s1 as [|a s1 IH]; [reflexivity|]. simpl. rewrite IH. reflexivity.
Qed.

Lemma replicate_char_length (n : nat) (c : ascii) :
  String.length (InstagramAuth.replicate_char n c) = n.
Proof.
  induction n as [|n IH]; [reflexivity|]. simpl. rewrite IH. reflexivity.
Qed.

Lemma substring_all (s : string) : ∀ n,
  (String.length s ≤ n)%nat → String.substring 0 n s = s.
Proof.
  induction s as [|a s IH]; intros [|n] Hn; simpl in *; try reflexivity;
    [lia|]. rewrite IH by lia. reflexivity.
Qed.

(** Both identifiers are a text of the 32-bit string hash of the seed. *)
Lemma device_ids_of_seed (w : World) :
  let hex :=
    InstagramAuth.toString16
      (Z.abs (InstagramAuth.to_int32 (poly31 (InstagramAuth.seed w)))) in
  InstagramAuth.generateDeviceId w
    = "00000000-0000-4000-a000-0000" ++ InstagramAuth.padStart 8 "0" hex ∧
  InstagramAuth.generateAndroidId w = "android-" ++ hex.
Proof.
  intros hex.
  assert (Hrange : - 2 ^ 31 <= InstagramAuth.hash_of (InstagramAuth.seed w)
                   < 2 ^ 31) by (apply hash_fold_range; lia).
  assert (Hhash : InstagramAuth.hash_of (InstagramAuth.seed w)
                  = InstagramAuth.to_int32 (poly31 (InstagramAuth.seed w))).
  { destruct (hash_fold_congruent
                (list_ascii_of_string (InstagramAuth.seed w)) 0 0 0 eq_refl)
      as [m Hm].
    fold (InstagramAuth.hash_of (InstagramAuth.seed w)) in Hm.
    fold (poly31 (InstagramAuth.seed w)) in Hm.
    rewrite <- (to_int32_small _ Hrange) at 1.
    exact (to_int32_congruent _ _ m Hm). }
  assert (Hlen : (1 ≤ String.length hex ≤ 8)%nat).
  { apply toString16_length. rewrite <- Hhash. lia. }
  unfold InstagramAuth.generateDeviceId, InstagramAuth.generateAndroidId,
    InstagramAuth.slice.
  cbv zeta. rewrite Hhash. fold hex. split.
  - assert (Hpad : InstagramAuth.padStart 32 "0" hex
              = "000000000000000000000000" ++ InstagramAuth.padStart 8 "0" hex).
    { unfold InstagramAuth.padStart.
      replace (32 - String.length hex)%nat
        with (24 + (8 - String.length hex))%nat by lia.
      reflexivity. }
    rewrite Hpad.
    assert (Ht : String.length (InstagramAuth.padStart 8 "0" hex) = 8%nat).
    { unfold InstagramAuth.padStart.
      rewrite string_length_app, replicate_char_length. lia. }
    destruct (InstagramAuth.padStart 8 "0" hex)
      as [|a1 [|a2 [|a3 [|a4 [|a5 [|a6 [|a7 [|a8 [|a9 t]]]]]]]]];
      try discriminate.
    reflexivity.
  - rewrite substring_all by (simpl; lia). reflexivity.
Qed.

(** C7 fails as stated: the failure of a header getter is a plain
    [Error], which carries a message and no error code; it is not an
    error of the taxonomy, whose members carry a code.  Here no secret is
    configured. *)
Lemma missing_credential_is_a_plain_error :
  let w :=
    (InstagramAuth.constructor
       (InstagramConfig.mk None None "v18.0" None true)
       (blank_world (λ _, 0) no_content)).2 in
  InstagramAuth.hasGraphApiAuth w = false ∧
  InstagramAuth.hasPrivateApiAuth w = false ∧
  InstagramAuth.getGraphApiHeaders w
    = Threw (ThrowError "Graph API token non disponible") ∧
  InstagramAuth.getPrivateApiHeaders w
    = Threw (ThrowError "Private API session non disponible") ∧
  (∀ e, InstagramAuth.getGraphApiHeaders w ≠ Threw (ThrowApiError e)) ∧
  (∀ e, InstagramAuth.getPrivateApiHeaders w ≠ Threw (ThrowApiError e)).
Proof.
  repeat split; discriminate.
Qed.

(** C7, as the code has it.  For both schemes, the header getter throws
    exactly when the scheme is unavailable, that is when its secret is
    absent or empty, and what it throws is a plain [Error] that carries
    the message reporting the missing credential and no error code; when
    the scheme is available it returns headers that carry the secret:
    [Authorization: Bearer <token>] for the Graph API, and for the
    Private API the [Cookie] of the session together with the two device
    identifiers, which are texts of the 32-bit string hash of the
    session. *)
Theorem headers_fail_iff_unavailable (w : World) :
  ((∃ e, InstagramAuth.getGraphApiHeaders w = Threw e)
     ↔ InstagramAuth.hasGraphApiAuth w = false) ∧
  (InstagramAuth.hasGraphApiAuth w = false
     ↔ InstagramAuth.getGraphApiHeaders w
         = Threw (ThrowError "Graph API token non disponible")) ∧
  (InstagramAuth.hasGraphApiAuth w = true
     ↔ ∃ token h,
         InstagramAuth.getGraphApiToken w = Some token ∧
         InstagramAuth.getGraphApiHeaders w = Returned h ∧
         h !! "Authorization" = Some ("Bearer " ++ token)) ∧
  ((∃ e, InstagramAuth.getPrivateApiHeaders w = Threw e)
     ↔ InstagramAuth.hasPrivateApiAuth w = false) ∧
  (InstagramAuth.hasPrivateApiAuth w = false
     ↔ InstagramAuth.getPrivateApiHeaders w
         = Threw (ThrowError "Private API session non disponible")) ∧
  (InstagramAuth.hasPrivateApiAuth w = true
     ↔ ∃ session h,
         InstagramAuth.getPrivateApiSession w = Some session ∧
         InstagramAuth.getPrivateApiHeaders w = Returned h ∧
         h !! "Cookie" = Some ("sessionid=" ++ session) ∧
         h !! "X-IG-Device-ID" = Some (InstagramAuth.generateDeviceId w) ∧
         h !! "X-IG-Android-ID" = Some (InstagramAuth.generateAndroidId w) ∧
         let hex :=
           InstagramAuth.toString16
             (Z.abs (InstagramAuth.to_int32 (poly31 session))) in
         h !! "X-IG-Device-ID"
           = Some ("00000000-0000-4000-a000-0000"
                   ++ InstagramAuth.padStart 8 "0" hex) ∧
         h !! "X-IG-Android-ID" = Some ("android-" ++ hex)) ∧
  (InstagramAuth.hasGraphApiAuth w = false
     ↔ InstagramAuth.getGraphApiToken w = None
       ∨ InstagramAuth.getGraphApiToken w = Some "") ∧
  (InstagramAuth.hasPrivateApiAuth w = false
     ↔ InstagramAuth.getPrivateApiSession w = None
       ∨ InstagramAuth.getPrivateApiSession w = Some "").
Proof.
  assert (Hempty : ∀ o, InstagramAuth.truthy o = false ↔ o = None ∨ o = Some "").
  { intros [s|]; simpl; [|tauto].
    case_bool_decide as Hs; simpl.
    - subst s. tauto.
    - split; [discriminate|]. intros [H|H]; congruence. }
  pose proof (device_ids_of_seed w) as Hids. cbv zeta in Hids.
  unfold InstagramAuth.seed in Hids.
  unfold InstagramAuth.hasGraphApiAuth, InstagramAuth.hasPrivateApiAuth,
    InstagramAuth.getGraphApiHeaders, InstagramAuth.getPrivateApiHeaders.
  split; [|split; [|split; [|split; [|split; [|split; [|split]]]]]];
    try (apply Hempty); clear Hempty.
  - split.
    + intros [e He]. destruct (InstagramAuth.getGraphApiToken w) as [token|];
        [|reflexivity].
      destruct (InstagramAuth.truthy (Some token));
        [discriminate | reflexivity].
    + intros Hno. destruct (InstagramAuth.getGraphApiToken w) as [token|];
        [rewrite Hno|]; eauto.
  - split.
    + intros Hno. destruct (InstagramAuth.getGraphApiToken w) as [token|];
        [rewrite Hno|]; reflexivity.
    + destruct (InstagramAuth.getGraphApiToken w) as [token|]; [|reflexivity].
      destruct (InstagramAuth.truthy (Some token));
        [discriminate | reflexivity].
  - split.
    + intros Hyes. destruct (InstagramAuth.getGraphApiToken w) as [token|];
        [|discriminate].
      rewrite Hyes. eexists _, _. repeat split.
    + intros (token & h & Htoken & Hh & _). rewrite Htoken in *.
      destruct (InstagramAuth.truthy (Some token));
        [reflexivity | discriminate].
  - split.
    + intros [e He].
      destruct (InstagramAuth.getPrivateApiSession w) as [session|];
        [|reflexivity].
      destruct (InstagramAuth.truthy (Some session));
        [discriminate | reflexivity].
    + intros Hno.
      destruct (InstagramAuth.getPrivateApiSession w) as [session|];
        [rewrite Hno|]; eauto.
  - split.
    + intros Hno.
      destruct (InstagramAuth.getPrivateApiSession w) as [session|];
        [rewrite Hno|]; reflexivity.
    + destruct (InstagramAuth.getPrivateApiSession w) as [session|];
        [|reflexivity].
      destruct (InstagramAuth.truthy (Some session));
        [discriminate | reflexivity].
  - split.
    + intros Hyes.
      destruct (InstagramAuth.getPrivateApiSession w) as [session|];
        [|discriminate].
      rewrite Hyes in Hids |- *. destruct Hids as [Hdevice Handroid].
      eexists _, _. split; [reflexivity|]. split; [reflexivity|].
      split; [reflexivity|]. split; [reflexivity|]. split; [reflexivity|].
      cbv zeta. split.
      * rewrite <- Hdevice. reflexivity.
      * rewrite <- Handroid. reflexivity.
    + intros (session & h & Hsession & Hh & _). rewrite Hsession in *.
      destruct (InstagramAuth.truthy (Some session));
        [reflexivity | discriminate].
Qed.

(** The two device identifiers are functions of the session identifier
    alone: two clients, or one client at two moments, holding the same
    session identifier present the same identifiers. *)
Lemma device_ids_depend_on_session_only w1 w2 :
  InstagramAuth.getPrivateApiSession w1 = InstagramAuth.getPrivateApiSession w2 →
  InstagramAuth.generateDeviceId w1 = InstagramAuth.generateDeviceId w2 ∧
  InstagramAuth.generateAndroidId w1 = InstagramAuth.generateAndroidId w2.
Proof.
  intros Hsame.
  unfold InstagramAuth.generateDeviceId, InstagramAuth.generateAndroidId,
    InstagramAuth.seed.
  rewrite Hsame. split; reflexivity.
Qed.

(** The identifiers are renderings of the absolute value of a 32-bit hash
    of the session identifier, so distinct session identifiers can share
    them; "Aa" and "BB" do. *)
Lemma device_ids_collide :
  let w1 := (InstagramAuth.updatePrivateApiSession "Aa" None None
               (client_world no_content)).2 in
  let w2 := (InstagramAuth.updatePrivateApiSession "BB" None None
               (client_world no_content)).2 in
  InstagramAuth.getPrivateApiSession w1 = Some "Aa" ∧
  InstagramAuth.getPrivateApiSession w2 = Some "BB" ∧
  InstagramAuth.generateDeviceId w1 = "00000000-0000-4000-a000-000000000840" ∧
  InstagramAuth.generateDeviceId w2 = "00000000-0000-4000-a000-000000000840" ∧
  InstagramAuth.generateAndroidId w1 = "android-840" ∧
  InstagramAuth.generateAndroidId w2 = "android-840".
Proof.
  vm_compute. repeat split.
Qed.

(** ** Polling loops *)

Lemma get_frame endpoint params options w :
  let w' := (InstagramClient.get endpoint params options w).2 in
  sleeps w' = sleeps w ∧
  ∃ sent, requests w' = (sent ++ requests w)%list ∧ (length sent ≤ 1)%nat.
Proof.
  unfold InstagramClient.get, InstagramClient.updateRateLimitsFromHeaders,
    InstagramClient.send.
  unfold mbind, mret, M_bind, M_ret, gets.
  set (category := default read (RequestOptions.rateLimitCategory options)).
  pose proof (canExecute_outside category w) as H1.
  destruct (RateLimiter.canExecute category w) as [allowed w1].
  cbn [snd] in H1. destruct H1 as (_&_&Hreq1&_&_&Hsleeps1&_).
  destruct allowed; cbn [negb].
  - destruct (InstagramClient.auth_headers _ w1) as [h|e]; cbn [snd].
    + match goal with
      | |- context [network w1 ?n ?r] => destruct (network w1 n r); set (req := r)
      end.
      * pose proof (consume_outside category
                      (with_requests (req :: requests w1) w1)) as H2.
        destruct (RateLimiter.consume category _) as [? w2].
        cbn [snd] in H2.
        pose proof (updateFromHeaders_outside category
                      (AxiosResponse.headers response) w2) as H3.
        destruct (RateLimiter.updateFromHeaders category _ w2) as [[] w3].
        cbn [snd] in H3 |- *.
        destruct (outside_limiter_trans _ _ _ H2 H3) as (_&_&Hreq&_&_&Hsleeps&_).
        split; [rewrite Hsleeps; exact Hsleeps1|].
        exists [req]. rewrite Hreq. simpl. rewrite Hreq1. auto.
      * cbn [snd]. split; [exact Hsleeps1|].
        exists [req]. simpl. rewrite Hreq1. auto.
    + split; [exact Hsleeps1|]. exists []. simpl. auto.
  - pose proof (getWaitTimeFormatted_outside category w1) as H2.
    destruct (RateLimiter.getWaitTimeFormatted category w1) as [wt w2].
    cbn [snd] in H2 |- *. destruct H2 as (_&_&Hreq2&_&_&Hsleeps2&_).
    split; [congruence|]. exists []. simpl. split; [congruence | lia].
Qed.

Section Poll.

Variable check : M ApiResponse.t.
Variable on_error : ApiResponse.t → M unit.
Variable delay : Z.

Hypothesis check_frame : ∀ w,
  sleeps (check w).2 = sleeps w ∧
  ∃ sent, requests (check w).2 = (sent ++ requests w)%list ∧
          (length sent ≤ 1)%nat.

Hypothesis on_error_frame : ∀ result w,
  sleeps (on_error result w).2 = sleeps w ∧
  requests (on_error result w).2 = requests w.

Lemma poll_loop_bounded (todo : nat) :
  bounded_poll delay todo (poll_loop check on_error delay todo).
Proof.
  induction todo as [|todo IH]; intros w.
  - exists 0%nat, []. simpl. auto 10.
  - simpl. unfold mbind, mret, M_bind, M_ret.
    destruct (check_frame w) as (Hsleeps & sent & Hsent & Hlen).
    destruct (check w) as [result w1]. cbn [snd] in Hsleeps, Hsent.
    destruct (is_string "FINISHED" _).
    { exists 0%nat, sent. cbn [fst snd replicate app].
      repeat split; auto; lia. }
    destruct (is_string "ERROR" _).
    { destruct (on_error_frame result w1) as (Hs & Hr).
      destruct (on_error result w1) as [[] w2]. cbn [fst snd] in *.
      exists 0%nat, sent. cbn [replicate app].
      repeat split; try congruence; auto; lia. }
    unfold sleep, modify. cbv beta iota.
    destruct (IH (with_sleeps (delay :: sleeps w1) w1))
      as (waits & sent' & Hsleeps' & Hsent' & Hwaits & Hlen' & Hlen'' & Hend).
    exists (S waits), (sent' ++ sent)%list.
    split; [|split; [|split; [|split; [|split]]]].
    + rewrite Hsleeps'. cbn [sleeps with_sleeps]. rewrite Hsleeps.
      rewrite replicate_S_end, <- app_assoc. reflexivity.
    + rewrite Hsent'. cbn [requests with_sleeps]. rewrite Hsent.
      rewrite app_assoc. reflexivity.
    + lia.
    + rewrite length_app. lia.
    + rewrite length_app. lia.
    + destruct Hend as [Hlt | Hfalse]; [left; lia | right; exact Hfalse].
Qed.

End Poll.

Lemma waitForMediaProcessing_loop_poll containerId todo :
  PostsTools.waitForMediaProcessing_loop containerId todo =
  poll_loop
    (InstagramClient.get ("/" ++ containerId)
       (Some [("fields", JString "status_code")]) RequestOptions.none)
    (λ _, mret tt) 2000 todo.
Proof.
  induction todo as [|todo IH]; [reflexivity|].
  simpl. rewrite IH. reflexivity.
Qed.

Lemma waitForVideoProcessing_loop_poll containerId todo :
  ReelsTools.waitForVideoProcessing_loop containerId todo =
  poll_loop
    (InstagramClient.get ("/" ++ containerId)
       (Some [("fields", JString "status_code,status")]) RequestOptions.none)
    (λ result, console_error (data_prop "status" result)) 3000 todo.
Proof.
  induction todo as [|todo IH]; [reflexivity|].
  simpl. rewrite IH. reflexivity.
Qed.

Lemma waitForProcessing_loop_poll containerId todo :
  StoriesTools.waitForProcessing_loop containerId todo =
  poll_loop
    (InstagramClient.get ("/" ++ containerId)
       (Some [("fields", JString "status_code")]) RequestOptions.none)
    (λ _, mret tt) 1500 todo.
Proof.
  induction todo as [|todo IH]; [reflexivity|].
  simpl. rewrite IH. reflexivity.
Qed.

(** C9.  Each of the three media-processing loops returns from every
    world, whatever the transport answers: it awaits its fixed delay
    (2000, 3000 and 1500 ms) at most [maxAttempts] times (30, 60 and 20
    by default), hands at most [maxAttempts] status requests to the
    transport, and when all the attempts were used without a terminal
    status its result is the value [false]. *)
Theorem polling_loops_are_bounded
    (containerId : string) (maxAttempts : option nat) :
  bounded_poll 2000 (default 30%nat maxAttempts)
    (PostsTools.waitForMediaProcessing containerId maxAttempts) ∧
  bounded_poll 3000 (default 60%nat maxAttempts)
    (ReelsTools.waitForVideoProcessing containerId maxAttempts) ∧
  bounded_poll 1500 (default 20%nat maxAttempts)
    (StoriesTools.waitForProcessing containerId maxAttempts).
Proof.
  unfold PostsTools.waitForMediaProcessing, ReelsTools.waitForVideoProcessing,
    StoriesTools.waitForProcessing.
  rewrite waitForMediaProcessing_loop_poll, waitForVideoProcessing_loop_poll,
    waitForProcessing_loop_poll.
  split; [|split]; apply poll_loop_bounded;
    try (intros w; apply get_frame); intros result w; split; reflexivity.
Qed.

(** The ceiling at work: while the container stays [IN_PROGRESS] the loop
    of [PostsTools] gives up with [false] after 30 requests and 30 waits
    of 2000 ms; on [FINISHED] it returns [true] after one request and no
    wait. *)
Lemma waitForMediaProcessing_examples :
  let pending :=
    PostsTools.waitForMediaProcessing "17900000000000000" None
      (client_world (container_status "IN_PROGRESS")) in
  let finished :=
    PostsTools.waitForMediaProcessing "17900000000000000" None
      (client_world (container_status "FINISHED")) in
  pending.1 = false ∧ sleeps pending.2 = replicate 30 2000 ∧
  length (requests pending.2) = 30%nat ∧
  finished.1 = true ∧ sleeps finished.2 = [] ∧
  length (requests finished.2) = 1%nat.
Proof.
  vm_compute. repeat split.
Qed.


(** * Further properties of the code *)

(** ** The limiter *)

Lemma decremented_lookup_ne category other w :
  category ≠ other →
  buckets (decremented category w) !! other = buckets w !! other.
Proof.
  intros Hne. unfold decremented. simpl. apply lookup_alter_ne. exact Hne.
Qed.

Lemma updateFromHeaders_lookup_ne category other headers w :
  category ≠ other →
  buckets (RateLimiter.updateFromHeaders category headers w).2 !! other
  = buckets w !! other.
Proof.
  intros Hne. unfold RateLimiter.updateFromHeaders. unfold_M.
  destruct (buckets w !! category); [|reflexivity].
  destruct (RateLimiter.header "x-ratelimit-remaining" headers),
           (RateLimiter.header "x-ratelimit-reset" headers),
           (RateLimiter.header "x-ratelimit-limit" headers);
    simpl; rewrite ?lookup_alter_ne by exact Hne; reflexivity.
Qed.

Lemma canExecute_lookup_ne category other w :
  category ≠ other →
  buckets (RateLimiter.canExecute category w).2 !! other = buckets w !! other.
Proof.
  intros Hne. rewrite canExecute_unfold.
  destruct (negb (enabled w)); [reflexivity|].
  destruct (buckets w !! category); [|reflexivity].
  destruct (Number.ge _ _); cbn [snd]; [|reflexivity].
  rewrite refreshed_lookup_ne by exact Hne. reflexivity.
Qed.

Lemma consume_lookup_ne category other w :
  category ≠ other →
  buckets (RateLimiter.consume category w).2 !! other = buckets w !! other.
Proof.
  intros Hne. rewrite consume_unfold.
  destruct (negb (enabled w)); [reflexivity|].
  destruct (buckets w !! category); [|reflexivity].
  cbv zeta.
  destruct (Number.ge _ _), (Number.le _ _); cbn [snd];
    rewrite ?decremented_lookup_ne, ?refreshed_lookup_ne by exact Hne;
    reflexivity.
Qed.

(** X1.  The categories are independent: [canExecute], [consume] (with
    the refresh either may trigger) and [updateFromHeaders] on one
    category leave the bucket of every other category as it was. *)
Theorem categories_are_independent
    (category other : RateLimitCategory) (headers : Headers) (w : World) :
  category ≠ other →
  buckets (RateLimiter.canExecute category w).2 !! other = buckets w !! other ∧
  buckets (RateLimiter.consume category w).2 !! other = buckets w !! other ∧
  buckets (RateLimiter.updateFromHeaders category headers w).2 !! other
    = buckets w !! other.
Proof.
  intros Hne. split; [|split].
  - apply canExecute_lookup_ne, Hne.
  - apply consume_lookup_ne, Hne.
  - apply updateFromHeaders_lookup_ne, Hne.
Qed.

Lemma categories_are_independent_witness :
  read ≠ write ∧
  buckets (RateLimiter.canExecute read late_world).2 !! write
    = buckets late_world !! write ∧
  buckets (RateLimiter.consume read late_world).2 !! write
    = buckets late_world !! write ∧
  buckets (RateLimiter.updateFromHeaders read quota_headers late_world).2 !! write
    = buckets late_world !! write.
Proof.
  assert (Hne : read ≠ write) by discriminate.
  split; [exact Hne|].
  exact (categories_are_independent read write quota_headers late_world Hne).
Defined.

(** X2.  A disabled limiter never refuses and never changes: once
    [setEnabled(false)] has run, every sequence of [canExecute] and
    [consume] calls, on any categories, is answered [true] throughout and
    leaves the whole state as it was, clock included. *)
Theorem disabled_limiter_is_inert (asks : list Ask) (w : World) :
  let w' := (RateLimiter.setEnabled false w).2 in
  ask_all asks w' = (replicate (length asks) true, w').
Proof.
  intros w'. assert (Hoff : enabled w' = false) by reflexivity.
  clearbody w'. induction asks as [|a asks IH]; [reflexivity|].
  simpl. unfold mbind, mret, M_bind, M_ret.
  assert (Ha : ask a w' = (true, w')).
  { destruct a as [c|c]; simpl.
    - rewrite canExecute_unfold, Hoff. reflexivity.
    - rewrite consume_unfold, Hoff. reflexivity. }
  rewrite Ha, IH. reflexivity.
Qed.

(** X3.  Once the deadline of a bucket is reached, [consume] grants a
    permit whatever the bucket held (exhausted, negative or [NaN] after a
    resync): the bucket restarts at the default capacity minus the permit
    just taken, with a deadline one default window after the refresh. *)
Theorem consume_after_deadline
    (category : RateLimitCategory) (w : World) (b : RateLimitBucket) (r : Z) :
  enabled w = true →
  buckets w !! category = Some b →
  reset_at b = Num r →
  r <= date_now w (clock_reads w) →
  let config := DEFAULT_LIMITS category in
  (RateLimiter.consume category w).1 = true ∧
  buckets (RateLimiter.consume category w).2 !! category =
    Some {| limit := limit b;
            remaining := Num (RateLimitConfig.limit config - 1);
            reset_at :=
              Num (date_now w (S (clock_reads w))
                   + RateLimitConfig.window_seconds config * 1000);
            window_seconds := window_seconds b |}.
Proof.
  intros Hon Hb Hreset Hdue config.
  rewrite consume_unfold, Hon, Hb. simpl negb. cbv iota.
  rewrite Hreset, ge_Num_true by exact Hdue. cbv zeta.
  rewrite refreshed_lookup. change (buckets (tick w)) with (buckets w).
  rewrite Hb. simpl default. cbn [remaining].
  assert (Hle : Number.le (Num (RateLimitConfig.limit (DEFAULT_LIMITS category)))
                  (Num 0) = false).
  { unfold Number.le. apply bool_decide_eq_false_2.
    pose proof (default_limit_positive category). lia. }
  rewrite Hle.
  split; [reflexivity|]. cbn [snd]. unfold decremented. cbn [buckets with_buckets].
  rewrite lookup_alter_eq, refreshed_lookup.
  change (buckets (tick w)) with (buckets w). rewrite Hb. reflexivity.
Qed.

Lemma consume_after_deadline_witness :
  enabled late_world = true ∧
  buckets late_world !! read = Some (fresh_bucket read 0) ∧
  (RateLimiter.consume read late_world).1 = true ∧
  buckets (RateLimiter.consume read late_world).2 !! read =
    Some (mkBucket (Num 200) (Num 199) (Num 7600000) (Num 3600)).
Proof.
  split; [reflexivity|]. split; [reflexivity|].
  refine (consume_after_deadline read late_world (fresh_bucket read 0) 3600000
            eq_refl eq_refl eq_refl _).
  vm_compute. discriminate.
Defined.

(** *** The quota of a window *)

Lemma ask_clock a w :
  date_now (ask a w).2 = date_now w ∧
  enabled (ask a w).2 = enabled w ∧
  (clock_reads w ≤ clock_reads (ask a w).2)%nat.
Proof.
  destruct a as [c|c]; simpl.
  - rewrite canExecute_unfold.
    destruct (negb (enabled w)); [auto|].
    destruct (buckets w !! c); [|auto].
    destruct (Number.ge _ _); simpl; auto with lia.
  - rewrite consume_unfold.
    destruct (negb (enabled w)); [auto|].
    destruct (buckets w !! c); [|auto].
    cbv zeta. destruct (Number.ge _ _), (Number.le _ _); simpl; auto with lia.
Qed.

Lemma in_window_frame category r k w w' :
  buckets w' !! category = buckets w !! category →
  date_now w' = date_now w →
  enabled w' = enabled w →
  (clock_reads w ≤ clock_reads w')%nat →
  in_window category r k w → in_window category r k w'.
Proof.
  intros Hb Hnow Hon Hreads (Hon' & Hbucket & Hclock).
  split; [congruence|]. split; [rewrite Hb; exact Hbucket|].
  intros n Hn. rewrite Hnow. apply Hclock. lia.
Qed.

Lemma ask_in_window category r k a w :
  in_window category r k w →
  ∃ g, granted category [a] [(ask a w).1] = g ∧ (g ≤ k)%nat ∧
       in_window category r (k - g) (ask a w).2.
Proof.
  intros Hw.
  assert (Hother : ∀ c, c ≠ category →
            buckets (ask a w).2 !! category = buckets w !! category →
            in_window category r k (ask a w).2).
  { intros c _ Hb. destruct (ask_clock a w) as (Hnow & Hon & Hreads).
    exact (in_window_frame _ _ _ _ _ Hb Hnow Hon Hreads Hw). }
  destruct a as [c|c]; cbn [ask granted].
  - exists 0%nat. split; [destruct (RateLimiter.canExecute c w).1; reflexivity|].
    split; [lia|]. rewrite Nat.sub_0_r.
    destruct (decide (c = category)) as [->|Hne].
    + destruct Hw as (Hon & (b & Hb & Hrem & Hreset) & Hclock).
      rewrite canExecute_unfold, Hon, Hb. simpl negb. cbv iota.
      rewrite Hreset, ge_Num_false by (apply Hclock; lia). cbn [snd].
      split; [exact Hon|]. split; [exists b; auto|].
      intros n Hn. apply Hclock. unfold tick in Hn. simpl in Hn. lia.
    + apply (Hother c Hne). apply canExecute_lookup_ne, Hne.
  - destruct (decide (c = category)) as [->|Hne].
    + destruct k as [|k].
      * destruct (consume_in_window_zero _ _ _ Hw) as [-> Hw'].
        exists 0%nat. auto.
      * destruct (consume_in_window_pos _ _ _ _ Hw) as [-> Hw'].
        exists 1%nat. rewrite Nat.add_0_r. split; [reflexivity|].
        split; [lia|]. replace (S k - 1)%nat with k by lia. exact Hw'.
    + exists 0%nat.
      split; [destruct (RateLimiter.consume c w).1; reflexivity|].
      split; [lia|]. rewrite Nat.sub_0_r.
      apply (Hother c Hne). apply consume_lookup_ne, Hne.
Qed.

Lemma ask_all_in_window category r asks : ∀ k w,
  in_window category r k w →
  (granted category asks (ask_all asks w).1 ≤ k)%nat ∧
  in_window category r (k - granted category asks (ask_all asks w).1)
    (ask_all asks w).2.
Proof.
  induction asks as [|a asks IH]; intros k w Hw.
  - simpl. rewrite Nat.sub_0_r. auto with lia.
  - destruct (ask_in_window category r k a w Hw) as (g & Hg & Hle & Hw').
    simpl ask_all. unfold mbind, mret, M_bind, M_ret.
    destruct (ask a w) as [answer w1]. cbn [fst snd] in Hg, Hw'.
    destruct (IH (k - g)%nat w1 Hw') as [Hrest Hw''].
    destruct (ask_all asks w1) as [answers w2]. cbn [fst snd] in *.
    assert (Hsum : granted category (a :: asks) (answer :: answers)
                   = (g + granted category asks answers)%nat).
    { subst g. destruct a as [c|c], answer; simpl; lia. }
    rewrite Hsum. split; [lia|].
    replace (k - (g + granted category asks answers))%nat
      with (k - g - granted category asks answers)%nat by lia.
    exact Hw''.
Qed.

(** X4.  Within one window the limiter never grants more than the
    capacity: from a freshly constructed limiter, in any sequence of
    [canExecute] and [consume] calls on any categories, the number of
    [consume] calls on a category that are answered [true] is at most its
    capacity, and the bucket is left with the capacity minus that
    number. *)
Theorem window_quota_is_never_exceeded
    (category : RateLimitCategory) (asks : list Ask) (w0 : World) :
  let w := (RateLimiter.constructor true w0).2 in
  within_window category w →
  let used := granted category asks (ask_all asks w).1 in
  (used ≤ capacity category)%nat ∧
  remaining <$> buckets (ask_all asks w).2 !! category
    = Some (Num (Z.of_nat (capacity category - used))).
Proof.
  intros w Hwin used.
  pose proof (constructor_in_window category w0 Hwin) as Hfresh.
  destruct (ask_all_in_window category _ asks _ _ Hfresh)
    as (Hle & _ & (b & Hb & Hrem & _) & _).
  split; [exact Hle|]. fold w in Hb. rewrite Hb. simpl. rewrite Hrem.
  reflexivity.
Qed.

Lemma window_quota_is_never_exceeded_witness :
  within_window likes steady_world ∧
  let asks := AskCanExecute likes :: replicate 70 (AskConsume likes) in
  let used := granted likes asks (ask_all asks steady_world).1 in
  (used ≤ capacity likes)%nat ∧
  remaining <$> buckets (ask_all asks steady_world).2 !! likes
    = Some (Num (Z.of_nat (capacity likes - used))).
Proof.
  split; [apply steady_world_within_window|].
  exact (window_quota_is_never_exceeded likes _ _
           (steady_world_within_window likes)).
Defined.

(** *** Resynchronisation from response headers *)

Lemma digit_value_pretty_N_char (k : N) :
  (k < 10)%N → Number.digit_value (pretty_N_char k) = Some (Z.of_N k).
Proof.
  intros Hk.
  assert (k = 0 ∨ k = 1 ∨ k = 2 ∨ k = 3 ∨ k = 4 ∨ k = 5 ∨ k = 6 ∨ k = 7
          ∨ k = 8 ∨ k = 9)%N as Hcases by lia.
  repeat (destruct Hcases as [->|Hcases]; [reflexivity|]).
  subst k. reflexivity.
Qed.

Lemma read_digits_pretty_N_go (x : N) :
  (0 < x)%N → ∀ s,
  Number.read_digits None (pretty_N_go x s)
  = Number.read_digits (Some (Z.of_N x)) s.
Proof.
  induction (N.lt_wf_0 x) as [x _ IH]. intros Hx s.
  rewrite pretty_N_go_step by exact Hx.
  assert (Hmod : (x `mod` 10 < 10)%N) by (apply N.mod_lt; lia).
  assert (Hdiv : x = (10 * x `div` 10 + x `mod` 10)%N)
    by (apply N.div_mod; discriminate).
  destruct (decide (x `div` 10 = 0)%N) as [Hsmall|Hbig].
  - rewrite Hsmall, pretty_N_go_0. cbn [Number.read_digits].
    rewrite digit_value_pretty_N_char by exact Hmod. cbn [from_option].
    f_equal. f_equal. lia.
  - rewrite IH; [| apply N.div_lt; lia | lia].
    cbn [Number.read_digits].
    rewrite digit_value_pretty_N_char by exact Hmod. cbn [from_option].
    f_equal. f_equal. lia.
Qed.

Lemma pretty_N_go_first (x : N) :
  (0 < x)%N → ∀ s, ∃ k s',
  (k < 10)%N ∧ pretty_N_go x s = String (pretty_N_char k) s'.
Proof.
  induction (N.lt_wf_0 x) as [x _ IH]. intros Hx s.
  rewrite pretty_N_go_step by exact Hx.
  destruct (decide (x `div` 10 = 0)%N) as [Hsmall|Hbig].
  - rewrite Hsmall, pretty_N_go_0. eexists _, _. split; [|reflexivity].
    apply N.mod_lt. lia.
  - apply IH; [apply N.div_lt; lia | apply N.neq_0_lt_0; exact Hbig].
Qed.

Arguments Number.to_double : simpl never.

(** Integers of less than 53 bits are doubles. *)
Lemma to_double_exact (z : Z) : Z.abs z < 2 ^ 53 → Number.to_double z = z.
Proof.
  intros Hz. unfold Number.to_double. cbv zeta.
  rewrite bool_decide_eq_true_2; [reflexivity|].
  destruct (decide (Z.abs z = 0)) as [->|Hnz]; [simpl; lia|].
  assert (Z.log2 (Z.abs z) < 53); [|lia].
  apply Z.log2_lt_pow2; lia.
Qed.

Lemma parseInt_pretty_positive (p : positive) (sign : string) :
  sign = "" ∨ sign = "-" →
  Number.parseInt (sign ++ pretty p)
  = Num (Number.to_double
           (if bool_decide (sign = "") then Z.pos p else Z.neg p)).
Proof.
  intros Hsign.
  change (pretty p) with (pretty_N_go (N.pos p) "").
  destruct (pretty_N_go_first (N.pos p) ltac:(lia) "") as (k & s' & Hk & Hfirst).
  pose proof (read_digits_pretty_N_go (N.pos p) ltac:(lia) "") as Hread.
  rewrite Hfirst in Hread |- *. cbn [Number.read_digits] in Hread.
  assert (k = 0 ∨ k = 1 ∨ k = 2 ∨ k = 3 ∨ k = 4 ∨ k = 5 ∨ k = 6 ∨ k = 7
          ∨ k = 8 ∨ k = 9)%N as Hcases by lia.
  destruct Hsign as [-> | ->];
    repeat (destruct Hcases as [->|Hcases];
            [unfold Number.parseInt; simpl; simpl in Hread; rewrite Hread;
             reflexivity|]);
    subst k; unfold Number.parseInt; simpl; simpl in Hread; rewrite Hread;
    reflexivity.
Qed.

(** Parsing the decimal text of an integer gives the double nearest to
    it: the integer itself when it has less than 53 bits. *)
Lemma parseInt_pretty (z : Z) :
  Number.parseInt (pretty z) = Num (Number.to_double z).
Proof.
  destruct z as [|p|p].
  - reflexivity.
  - apply (parseInt_pretty_positive p ""). auto.
  - apply (parseInt_pretty_positive p "-"). auto.
Qed.

Lemma parseInt_pretty_exact (z : Z) :
  Z.abs z < 2 ^ 53 → Number.parseInt (pretty z) = Num z.
Proof.
  intros Hz. rewrite parseInt_pretty, to_double_exact by exact Hz.
  reflexivity.
Qed.

(** The reading of a header at work: digits beyond the 53rd bit are
    rounded away, to the even neighbour on a tie; white space, a
    non-breaking space included, and a sign may come first; the reading
    stops at the first character that is not a digit. *)
Lemma parseInt_examples :
  Number.parseInt "9007199254740993" = Num 9007199254740992 ∧
  Number.parseInt "9007199254740995" = Num 9007199254740996 ∧
  Number.mul (Number.parseInt "9007199254740993") (Num 1000)
    = Num 9007199254740992000 ∧
  Number.parseInt (String (ascii_of_nat 160) "42") = Num 42 ∧
  Number.parseInt " -7" = Num (-7) ∧
  Number.parseInt "12px" = Num 12 ∧
  Number.parseInt "" = NaN ∧
  Number.parseInt "unlimited" = NaN.
Proof.
  vm_compute. repeat split.
Qed.

Lemma pretty_Z_nonempty (z : Z) : pretty z ≠ "".
Proof.
  intros Hempty. pose proof (parseInt_pretty z) as H.
  rewrite Hempty in H. discriminate.
Qed.

Lemma header_pretty key (reported : option Z) (headers : Headers) :
  headers !! key = pretty <$> reported →
  RateLimiter.header key headers = pretty <$> reported.
Proof.
  intros H. unfold RateLimiter.header. rewrite H.
  destruct reported as [z|]; [|reflexivity]. simpl.
  rewrite bool_decide_eq_false_2 by apply pretty_Z_nonempty. reflexivity.
Qed.

(** X5.  The values a response reports win over the local bookkeeping:
    for each of the three quota headers, when the header carries the
    decimal text of an integer of less than 53 bits (for the reset time,
    an integer whose conversion from seconds to milliseconds has less
    than 53 bits) the corresponding field of the bucket becomes exactly
    that integer (the reset time converted to milliseconds), whatever the
    bucket held before; a field whose header is absent is kept, and
    [window_seconds] is never touched. *)
Theorem resync_takes_reported_values
    (category : RateLimitCategory) (w : World) (b : RateLimitBucket)
    (headers : Headers) (rem reset lim : option Z) :
  buckets w !! category = Some b →
  headers !! "x-ratelimit-remaining" = pretty <$> rem →
  headers !! "x-ratelimit-reset" = pretty <$> reset →
  headers !! "x-ratelimit-limit" = pretty <$> lim →
  from_option (λ z, Z.abs z < 2 ^ 53) True rem →
  from_option (λ t, Z.abs (t * 1000) < 2 ^ 53) True reset →
  from_option (λ z, Z.abs z < 2 ^ 53) True lim →
  buckets (RateLimiter.updateFromHeaders category headers w).2 !! category =
    Some {| limit := from_option Num (limit b) lim;
            remaining := from_option Num (remaining b) rem;
            reset_at := from_option (λ t, Num (t * 1000)) (reset_at b) reset;
            window_seconds := window_seconds b |}.
Proof.
  intros Hb Hrem Hreset Hlim Hsafe_rem Hsafe_reset Hsafe_lim.
  unfold RateLimiter.updateFromHeaders. unfold_M. rewrite Hb.
  rewrite (header_pretty _ _ _ Hrem), (header_pretty _ _ _ Hreset),
    (header_pretty _ _ _ Hlim).
  assert (Hproduct : ∀ t, Z.abs (t * 1000) < 2 ^ 53 →
            Number.mul (Number.parseInt (pretty t)) (Num 1000)
            = Num (t * 1000)).
  { intros t Ht. rewrite parseInt_pretty_exact by lia.
    unfold Number.mul. rewrite to_double_exact by exact Ht. reflexivity. }
  destruct rem as [r|], reset as [t|], lim as [l|];
    cbn [from_option] in Hsafe_rem, Hsafe_reset, Hsafe_lim; simpl;
    rewrite ?lookup_alter_eq, ?Hb; simpl;
    rewrite ?Hproduct by assumption;
    rewrite ?parseInt_pretty_exact by assumption; destruct b; reflexivity.
Qed.

Lemma resync_takes_reported_values_witness :
  buckets steady_world !! read = Some (fresh_bucket read 0) ∧
  Z.abs 42 < 2 ^ 53 ∧ Z.abs (1700000000 * 1000) < 2 ^ 53 ∧
  buckets
    (RateLimiter.updateFromHeaders read
       (<[ "x-ratelimit-remaining" := "42" ]>
          {[ "x-ratelimit-reset" := "1700000000" ]})
       steady_world).2 !! read
  = Some (mkBucket (Num 200) (Num 42) (Num 1700000000000) (Num 3600)).
Proof.
  split; [reflexivity|]. split; [reflexivity|]. split; [reflexivity|].
  exact (resync_takes_reported_values read steady_world (fresh_bucket read 0)
           (<[ "x-ratelimit-remaining" := "42" ]>
              {[ "x-ratelimit-reset" := "1700000000" ]})
           (Some 42) (Some 1700000000) None
           eq_refl eq_refl eq_refl eq_refl eq_refl eq_refl I).
Defined.

(** X6.  A quota header that holds no number locks the category for the
    rest of the window while permits are still handed out: after a resync
    whose [x-ratelimit-remaining] does not start with an integer,
    [remaining] is [NaN]; until the deadline [canExecute] then answers
    [false], yet [consume] answers [true] and leaves [remaining] at
    [NaN]. *)
Theorem unparsable_remaining_locks_the_window
    (category : RateLimitCategory) (w : World) (b : RateLimitBucket)
    (headers : Headers) (v : string) (r : Z) :
  enabled w = true →
  buckets w !! category = Some b →
  reset_at b = Num r →
  (∀ n, (clock_reads w ≤ n)%nat → date_now w n < r) →
  RateLimiter.header "x-ratelimit-remaining" headers = Some v →
  Number.parseInt v = NaN →
  RateLimiter.header "x-ratelimit-reset" headers = None →
  let w1 := (RateLimiter.updateFromHeaders category headers w).2 in
  remaining <$> buckets w1 !! category = Some NaN ∧
  (RateLimiter.canExecute category w1).1 = false ∧
  (RateLimiter.consume category w1).1 = true ∧
  remaining <$> buckets (RateLimiter.consume category w1).2 !! category
    = Some NaN.
Proof.
  intros Hon Hb Hreset Hclock Hv Hnan Hnoreset w1.
  assert (Hw1 : ∃ b1, buckets w1 !! category = Some b1 ∧
                      remaining b1 = NaN ∧ reset_at b1 = Num r ∧
                      enabled w1 = true ∧ date_now w1 = date_now w ∧
                      clock_reads w1 = clock_reads w).
  { subst w1. unfold RateLimiter.updateFromHeaders. unfold_M.
    rewrite Hb, Hv, Hnoreset.
    destruct (RateLimiter.header "x-ratelimit-limit" headers); simpl;
      rewrite !lookup_alter_eq, ?Hb; simpl; rewrite Hnan; eauto 10. }
  clearbody w1.
  destruct Hw1 as (b1 & Hb1 & Hrem1 & Hreset1 & Hon1 & Hnow1 & Hreads1).
  assert (Hearly : Number.ge (Num (date_now w1 (clock_reads w1))) (Num r) = false).
  { apply ge_Num_false. rewrite Hnow1, Hreads1. apply Hclock. lia. }
  split; [rewrite Hb1; simpl; congruence|].
  split; [|split].
  - rewrite canExecute_unfold, Hon1, Hb1. simpl negb. cbv iota.
    rewrite Hreset1, Hearly, Hrem1. reflexivity.
  - rewrite consume_unfold, Hon1, Hb1. simpl negb. cbv iota.
    rewrite Hreset1, Hearly. cbv zeta.
    change (buckets (tick w1)) with (buckets w1). rewrite Hb1. simpl default.
    rewrite Hrem1. reflexivity.
  - rewrite consume_unfold, Hon1, Hb1. simpl negb. cbv iota.
    rewrite Hreset1, Hearly. cbv zeta.
    change (buckets (tick w1)) with (buckets w1). rewrite Hb1. simpl default.
    rewrite Hrem1. change (Number.le NaN (Num 0)) with false. cbn [snd].
    unfold decremented.
    cbn [buckets with_buckets tick with_clock_reads].
    rewrite lookup_alter_eq, Hb1. simpl. rewrite Hrem1. reflexivity.
Qed.

Lemma unparsable_remaining_locks_the_window_witness :
  let headers : Headers := {[ "x-ratelimit-remaining" := "unlimited" ]} in
  let w1 := (RateLimiter.updateFromHeaders read headers steady_world).2 in
  enabled steady_world = true ∧
  buckets steady_world !! read = Some (fresh_bucket read 0) ∧
  (∀ n, (clock_reads steady_world ≤ n)%nat →
        date_now steady_world n < 3600000) ∧
  Number.parseInt "unlimited" = NaN ∧
  remaining <$> buckets w1 !! read = Some NaN ∧
  (RateLimiter.canExecute read w1).1 = false ∧
  (RateLimiter.consume read w1).1 = true ∧
  remaining <$> buckets (RateLimiter.consume read w1).2 !! read = Some NaN.
Proof.
  assert (Hclock : ∀ n, (clock_reads steady_world ≤ n)%nat →
                        date_now steady_world n < 3600000)
    by (intros n _; reflexivity).
  split; [reflexivity|]. split; [reflexivity|]. split; [exact Hclock|].
  split; [reflexivity|].
  exact (unparsable_remaining_locks_the_window read steady_world
           (fresh_bucket read 0) {[ "x-ratelimit-remaining" := "unlimited" ]}
           "unlimited" 3600000 eq_refl eq_refl eq_refl Hclock
           eq_refl eq_refl eq_refl).
Defined.

(** *** Waiting *)





(** ** The credential store *)

(** X8.  Construction registers exactly the schemes whose secret is
    configured and non-empty: each scheme is available after
    [new InstagramAuth(config)] if and only if its secret is present and
    not the empty string, the stored secret is then the configured one,
    and the client is authenticated when at least one scheme is. *)
Theorem constructor_registers_configured_schemes
    (cfg : InstagramConfig.t) (w : World) :
  let w' := (InstagramAuth.constructor cfg w).2 in
  let token := InstagramConfig.access_token cfg in
  let session := InstagramConfig.session_id cfg in
  InstagramAuth.hasGraphApiAuth w' = InstagramAuth.truthy token ∧
  InstagramAuth.hasPrivateApiAuth w' = InstagramAuth.truthy session ∧
  InstagramAuth.getGraphApiToken w'
    = (if InstagramAuth.truthy token then token else None) ∧
  InstagramAuth.getPrivateApiSession w'
    = (if InstagramAuth.truthy session then session else None) ∧
  InstagramAuth.isAuthenticated w'
    = InstagramAuth.truthy token || InstagramAuth.truthy session ∧
  InstagramAuth.getConfig w' = cfg.
Proof.
  intros w' token session. subst w' token session.
  unfold InstagramAuth.isAuthenticated, InstagramAuth.hasGraphApiAuth,
    InstagramAuth.hasPrivateApiAuth, InstagramAuth.getGraphApiToken,
    InstagramAuth.getPrivateApiSession, InstagramAuth.getConfig,
    InstagramAuth.constructor, InstagramAuth.initializeTokens.
  unfold_M. destruct cfg as [token account version session on]; simpl.
  assert (Hcases : ∀ o : option string,
            o = None ∨ o = Some "" ∨
            ∃ v, o = Some v ∧ bool_decide (v = "") = false).
  { intros [v|]; [|auto]. destruct (decide (v = "")) as [->|Hv]; [auto|].
    right. right. exists v. split; [reflexivity|].
    apply bool_decide_eq_false_2, Hv. }
  destruct (Hcases token) as [-> | [-> | (t & -> & Ht)]],
           (Hcases session) as [-> | [-> | (u & -> & Hu)]];
    simpl; rewrite ?Ht, ?Hu; simpl; rewrite ?Ht, ?Hu; auto 10.
Qed.

(** X9.  Expiry of the Graph API token.  A token that records no expiry
    is never reported expired, and none is recorded by the constructor;
    a token installed by [updateGraphApiToken] with an expiry [e] is
    reported expired exactly when the clock has reached [e], except that
    an expiry of 0 counts as no expiry at all.  The clock is read only
    when an expiry is recorded. *)
Theorem token_expiry_check
    (cfg : InstagramConfig.t) (token : string) (e : Z) (w : World) :
  let constructed := (InstagramAuth.constructor cfg w).2 in
  let updated := (InstagramAuth.updateGraphApiToken token (Some (Num e)) w).2 in
  let plain := (InstagramAuth.updateGraphApiToken token None w).2 in
  InstagramAuth.isGraphApiTokenExpired constructed = (false, constructed) ∧
  InstagramAuth.isGraphApiTokenExpired plain = (false, plain) ∧
  (InstagramAuth.isGraphApiTokenExpired updated).1
    = negb (bool_decide (e = 0))
      && bool_decide (e <= date_now w (clock_reads w)) ∧
  clock_reads (InstagramAuth.isGraphApiTokenExpired updated).2
    = (if bool_decide (e = 0) then clock_reads w else S (clock_reads w)).
Proof.
  intros constructed updated plain. split; [|split; [|split]].
  - subst constructed.
    unfold InstagramAuth.isGraphApiTokenExpired, InstagramAuth.constructor,
      InstagramAuth.initializeTokens. unfold_M.
    destruct cfg as [[t|] account version [s|] on]; simpl;
      repeat (case_bool_decide; simpl); reflexivity.
  - reflexivity.
  - subst updated. unfold InstagramAuth.isGraphApiTokenExpired. unfold_M.
    simpl. case_bool_decide; simpl; [reflexivity|].
    unfold Number.ge. apply bool_decide_ext. lia.
  - subst updated. unfold InstagramAuth.isGraphApiTokenExpired. unfold_M.
    simpl. case_bool_decide; reflexivity.
Qed.

(** *** The hash behind the device identifiers *)

(** X10.  The hash behind the device identifiers is Java's string hash:
    the polynomial in 31 of the character codes, reduced to a signed
    32-bit integer; in particular it always lies in [-2^31, 2^31). *)
Theorem hash_is_the_java_string_hash (seed : string) :
  InstagramAuth.hash_of seed = InstagramAuth.to_int32 (poly31 seed) ∧
  - 2 ^ 31 <= InstagramAuth.hash_of seed < 2 ^ 31.
Proof.
  assert (Hrange : - 2 ^ 31 <= InstagramAuth.hash_of seed < 2 ^ 31)
    by (apply hash_fold_range; lia).
  split; [|exact Hrange].
  destruct (hash_fold_congruent (list_ascii_of_string seed) 0 0 0 eq_refl)
    as [m Hm].
  fold (InstagramAuth.hash_of seed) in Hm. fold (poly31 seed) in Hm.
  rewrite <- (to_int32_small _ Hrange) at 1.
  exact (to_int32_congruent _ _ m Hm).
Qed.

Lemma list_ascii_of_string_app (s1 s2 : string) :
  list_ascii_of_string (s1 ++ s2)
  = (list_ascii_of_string s1 ++ list_ascii_of_string s2)%list.
Proof.
  induction s1 as [|a s1 IH]; [reflexivity|]. simpl. rewrite IH. reflexivity.
Qed.

Lemma hash_of_app (s1 s2 : string) :
  InstagramAuth.hash_of (s1 ++ s2)
  = foldl InstagramAuth.hash_step (InstagramAuth.hash_of s1)
      (list_ascii_of_string s2).
Proof.
  unfold InstagramAuth.hash_of. rewrite list_ascii_of_string_app.
  apply foldl_app.
Qed.

Lemma hash_Aa_BB (h : Z) :
  foldl InstagramAuth.hash_step h (list_ascii_of_string "Aa")
  = foldl InstagramAuth.hash_step h (list_ascii_of_string "BB").
Proof.
  cbn [list_ascii_of_string foldl]. rewrite !hash_step_spec.
  change (Z.of_nat (nat_of_ascii "A")) with 65.
  change (Z.of_nat (nat_of_ascii "a")) with 97.
  change (Z.of_nat (nat_of_ascii "B")) with 66.
  destruct (to_int32_shift (31 * h + 65)) as [k1 Hk1].
  destruct (to_int32_shift (31 * h + 66)) as [k2 Hk2].
  rewrite Hk1, Hk2.
  apply (to_int32_congruent _ _ (31 * k1 - 31 * k2)). lia.
Qed.

Lemma seed_of_session (session : string) (csrfToken userId : option string)
    (prefix rest : string) (a : ascii) (w : World) :
  session = prefix ++ String a rest →
  InstagramAuth.seed
    (InstagramAuth.updatePrivateApiSession session csrfToken userId w).2
  = session.
Proof.
  intros Hs. unfold InstagramAuth.seed, InstagramAuth.getPrivateApiSession.
  simpl. rewrite bool_decide_eq_false_2; [reflexivity|].
  rewrite Hs. destruct prefix; discriminate.
Qed.

(** X11.  Distinct sessions can present the same device: replacing an
    occurrence of "Aa" by "BB" anywhere in a session identifier changes
    the identifier but neither of the two device identifiers derived
    from it. *)
Theorem device_identifiers_collide_in_families
    (prefix suffix : string) (csrfToken userId : option string) (w : World) :
  let s1 := prefix ++ "Aa" ++ suffix in
  let s2 := prefix ++ "BB" ++ suffix in
  let w1 := (InstagramAuth.updatePrivateApiSession s1 csrfToken userId w).2 in
  let w2 := (InstagramAuth.updatePrivateApiSession s2 csrfToken userId w).2 in
  s1 ≠ s2 ∧
  InstagramAuth.getPrivateApiSession w1 = Some s1 ∧
  InstagramAuth.getPrivateApiSession w2 = Some s2 ∧
  InstagramAuth.generateDeviceId w1 = InstagramAuth.generateDeviceId w2 ∧
  InstagramAuth.generateAndroidId w1 = InstagramAuth.generateAndroidId w2.
Proof.
  intros s1 s2 w1 w2.
  assert (Hhash : InstagramAuth.hash_of s1 = InstagramAuth.hash_of s2).
  { subst s1 s2. rewrite !hash_of_app, !list_ascii_of_string_app, !foldl_app.
    rewrite hash_Aa_BB. reflexivity. }
  assert (Hseed1 : InstagramAuth.seed w1 = s1)
    by (apply (seed_of_session _ _ _ prefix ("a" ++ suffix) "A"); reflexivity).
  assert (Hseed2 : InstagramAuth.seed w2 = s2)
    by (apply (seed_of_session _ _ _ prefix ("B" ++ suffix) "B"); reflexivity).
  split; [|split; [reflexivity|split; [reflexivity|]]].
  - subst s1 s2. clear. induction prefix as [|a prefix IH]; simpl.
    + discriminate.
    + intros [= H]. exact (IH H).
  - unfold InstagramAuth.generateDeviceId, InstagramAuth.generateAndroidId.
    rewrite Hseed1, Hseed2, Hhash. split; reflexivity.
Qed.

(** ** The request layer, continued *)

Lemma graph_headers_when_available (w : World) :
  InstagramAuth.hasGraphApiAuth w = true →
  ∃ h, InstagramAuth.getGraphApiHeaders w = Returned h.
Proof.
  unfold InstagramAuth.hasGraphApiAuth, InstagramAuth.getGraphApiHeaders.
  destruct (InstagramAuth.getGraphApiToken w) as [token|]; [|discriminate].
  intros ->. simpl. eauto.
Qed.

Lemma private_headers_when_available (w : World) :
  InstagramAuth.hasPrivateApiAuth w = true →
  ∃ h, InstagramAuth.getPrivateApiHeaders w = Returned h.
Proof.
  unfold InstagramAuth.hasPrivateApiAuth, InstagramAuth.getPrivateApiHeaders.
  destruct (InstagramAuth.getPrivateApiSession w) as [session|]; [|discriminate].
  intros ->. simpl. eauto.
Qed.

(** X12.  The preferred API is one the client can use: whenever at least
    one scheme is available, the headers for [getPreferredApi] are
    returned rather than thrown; the Graph API is preferred when both
    schemes are available, and the Private API is chosen exactly when it
    is the only one. *)
Theorem preferred_api_is_available (w : World) :
  (InstagramClient.isAuthenticated w = true →
   ∃ h, InstagramClient.auth_headers (InstagramClient.getPreferredApi w) w
        = Returned h) ∧
  (InstagramAuth.hasGraphApiAuth w = true →
   InstagramClient.getPreferredApi w = graph) ∧
  (InstagramClient.getPreferredApi w = private
   ↔ InstagramAuth.hasGraphApiAuth w = false ∧
     InstagramAuth.hasPrivateApiAuth w = true).
Proof.
  pose proof (graph_headers_when_available w) as Hgraph.
  pose proof (private_headers_when_available w) as Hprivate.
  unfold InstagramClient.isAuthenticated, InstagramAuth.isAuthenticated,
    InstagramClient.getPreferredApi, InstagramClient.auth_headers.
  destruct (InstagramAuth.hasGraphApiAuth w), (InstagramAuth.hasPrivateApiAuth w);
    cbn [orb]; (split; [|split; [|split]]); auto;
    try discriminate; intros []; discriminate.
Qed.

Lemma preferred_api_is_available_witness :
  InstagramClient.isAuthenticated (client_world no_content) = true ∧
  InstagramAuth.hasGraphApiAuth (client_world no_content) = true ∧
  (∃ h, InstagramClient.auth_headers
          (InstagramClient.getPreferredApi (client_world no_content))
          (client_world no_content) = Returned h) ∧
  InstagramClient.getPreferredApi (client_world no_content) = graph.
Proof.
  split; [reflexivity|]. split; [reflexivity|]. split.
  - exact (proj1 (preferred_api_is_available (client_world no_content))
             eq_refl).
  - exact (proj1 (proj2 (preferred_api_is_available (client_world no_content)))
             eq_refl).
Defined.

(** *** What a call costs *)

Lemma request_sent method endpoint payload options w h settled :
  let d := request method endpoint payload options in
  let category := category_of d in
  (RateLimiter.canExecute category w).1 = true →
  InstagramClient.auth_headers (api_of options) w = Returned h →
  next_settles w settled →
  ∃ req,
    (Request.method req = method ∧ Request.api req = api_of options ∧
     Request.url req = endpoint ∧ Request.headers req = h) ∧
    dispatch d w =
    let w1 := (RateLimiter.canExecute category w).2 in
    let w2 := with_requests (req :: requests w1) w1 in
    match settled with
    | Fulfilled r =>
        (succeeded r,
         match method with
         | DELETE => (RateLimiter.consume category w2).2
         | _ => (RateLimiter.updateFromHeaders category (AxiosResponse.headers r)
                   (RateLimiter.consume category w2).2).2
         end)
    | Rejected reason =>
        (InstagramClient.failure
           (InstagramClient.handleApiError reason (api_of options)), w2)
    end.
Proof.
  intros d category Hallowed Hheaders Hnet. subst d category.
  unfold api_of in *.
  destruct method; cbn [request dispatch category_of] in *;
    reach_transport w Hallowed Hheaders Hnet;
    (match goal with
     | |- context [with_requests (?r :: _) _] => exists r
     end);
    (split; [repeat split|]);
    rewrite <- Hrequests;
    (destruct settled as [r|reason]; cbn [Request.api]; [|reflexivity]);
    destruct (RateLimiter.consume _ _) as [? w3]; cbn [snd];
    try reflexivity;
    destruct (RateLimiter.updateFromHeaders _ _ w3) as [[] w4]; reflexivity.
Qed.

(** X13.  A call without credentials fails before anything is sent.  For
    [get], [post] and [delete], when the limiter lets the call through but
    the scheme of the call is unavailable, the result is a failure whose
    error is the plain [Error] of the header getter (it carries a message
    and no error code), no request is handed to the transport, and the
    limiter is left as [canExecute] left it. *)
Theorem missing_credentials_send_nothing
    (method : Method) (endpoint : string)
    (payload : option (list (string * Json))) (options : RequestOptions.t)
    (w : World) :
  let d := request method endpoint payload options in
  (RateLimiter.canExecute (category_of d) w).1 = true →
  match api_of options with
  | graph => InstagramAuth.hasGraphApiAuth w
  | private => InstagramAuth.hasPrivateApiAuth w
  end = false →
  dispatch d w =
    ({| ApiResponse.success := false;
        ApiResponse.data := None;
        ApiResponse.error := Some (ThrowError
          match api_of options with
          | graph => "Graph API token non disponible"
          | private => "Private API session non disponible"
          end) |},
     (RateLimiter.canExecute (category_of d) w).2) ∧
  requests (dispatch d w).2 = requests w.
Proof.
  intros d Hallowed Hmissing.
  assert (Hheaders : InstagramClient.auth_headers (api_of options) w =
            Threw (ThrowError
              match api_of options with
              | graph => "Graph API token non disponible"
              | private => "Private API session non disponible"
              end)).
  { unfold InstagramClient.auth_headers, InstagramAuth.getGraphApiHeaders,
      InstagramAuth.getPrivateApiHeaders, InstagramAuth.hasGraphApiAuth,
      InstagramAuth.hasPrivateApiAuth in *.
    destruct (api_of options).
    - destruct (InstagramAuth.getGraphApiToken w); [|reflexivity].
      rewrite Hmissing. reflexivity.
    - destruct (InstagramAuth.getPrivateApiSession w); [|reflexivity].
      rewrite Hmissing. reflexivity. }
  pose proof (canExecute_outside (category_of d) w) as Hout.
  assert (Hcall : dispatch d w =
            (InstagramClient.failure (ThrowError
               match api_of options with
               | graph => "Graph API token non disponible"
               | private => "Private API session non disponible"
               end),
             (RateLimiter.canExecute (category_of d) w).2)).
  { subst d. unfold api_of in *.
    destruct method; cbn [request dispatch category_of] in *;
      unfold InstagramClient.get, InstagramClient.post, InstagramClient.delete;
      unfold mbind, mret, M_bind, M_ret, gets;
      (match goal with
       | |- context [RateLimiter.canExecute ?c w] =>
           destruct (RateLimiter.canExecute c w) as [allowed w1]
       end);
      cbn [fst snd] in Hallowed, Hout |- *; subst allowed; cbn [negb];
      rewrite (auth_headers_outside _ _ _ Hout), Hheaders; reflexivity. }
  rewrite Hcall. split; [reflexivity|].
  destruct Hout as (_ & _ & Hrequests & _). exact Hrequests.
Qed.

Lemma missing_credentials_send_nothing_witness :
  let w := blank_world (λ _, 0) no_content in
  let w := (RateLimiter.constructor true w).2 in
  (RateLimiter.canExecute read w).1 = true ∧
  InstagramAuth.hasGraphApiAuth w = false ∧
  ApiResponse.error
    (dispatch (DoGet "/me" None RequestOptions.none) w).1
    = Some (ThrowError "Graph API token non disponible") ∧
  requests (dispatch (DoGet "/me" None RequestOptions.none) w).2 = requests w.
Proof.
  split; [reflexivity|]. split; [reflexivity|].
  pose proof (missing_credentials_send_nothing GET "/me" None RequestOptions.none
                (RateLimiter.constructor true
                   (blank_world (λ _, 0) no_content)).2 eq_refl eq_refl)
    as [Hcall Hrequests].
  split; [|exact Hrequests].
  exact (f_equal (λ p, ApiResponse.error p.1) Hcall).
Defined.

(** X14.  A request the transport rejects costs no permit.  For [get],
    [post] and [delete], when the limiter lets the call through and the
    credentials are available, a rejected request is handed to the
    transport exactly once (with the method, URL and headers of the call),
    the result is the failure built by [handleApiError], and the buckets
    are those [canExecute] left: [consume] is not called. *)
Theorem rejected_request_costs_no_permit
    (method : Method) (endpoint : string)
    (payload : option (list (string * Json))) (options : RequestOptions.t)
    (w : World) (h : Headers) (reason : Rejection) :
  let d := request method endpoint payload options in
  (RateLimiter.canExecute (category_of d) w).1 = true →
  InstagramClient.auth_headers (api_of options) w = Returned h →
  next_settles w (Rejected reason) →
  (dispatch d w).1 =
    {| ApiResponse.success := false;
       ApiResponse.data := None;
       ApiResponse.error :=
         Some (InstagramClient.handleApiError reason (api_of options)) |} ∧
  buckets (dispatch d w).2
    = buckets (RateLimiter.canExecute (category_of d) w).2 ∧
  ∃ req, requests (dispatch d w).2 = req :: requests w ∧
         Request.method req = method ∧ Request.api req = api_of options ∧
         Request.url req = endpoint ∧ Request.headers req = h.
Proof.
  intros d Hallowed Hheaders Hnet.
  destruct (request_sent method endpoint payload options w h _
              Hallowed Hheaders Hnet)
    as (req & (Hmethod & Hapi & Hurl & Hh) & Hcall).
  fold d in Hcall. rewrite Hcall. cbn [fst snd].
  split; [reflexivity|]. split; [reflexivity|].
  exists req. cbn [requests with_requests].
  destruct (canExecute_outside (category_of d) w) as (_ & _ & -> & _).
  auto.
Qed.

Lemma rejected_request_costs_no_permit_witness :
  let w := client_world too_many_requests in
  let d := DoPost "/me/media" None RequestOptions.none in
  (RateLimiter.canExecute write w).1 = true ∧
  ApiResponse.success (dispatch d w).1 = false ∧
  buckets (dispatch d w).2 !! write = Some (fresh_bucket write 0) ∧
  length (requests (dispatch d w).2) = 1%nat.
Proof.
  split; [reflexivity|].
  destruct (rejected_request_costs_no_permit POST "/me/media" None
              RequestOptions.none (client_world too_many_requests) _
              (IsAxiosError too_many_requests_error)
              eq_refl eq_refl (λ _, eq_refl))
    as (Hresult & Hbuckets & req & Hrequests & _).
  split; [exact (f_equal ApiResponse.success Hresult)|].
  split; [exact (eq_trans (f_equal (λ b, b !! write) Hbuckets) eq_refl)|].
  exact (f_equal length Hrequests).
Defined.





(** *** The possible outcomes of a call, whatever the transport does *)

Lemma request_outcomes method endpoint payload options w :
  let d := request method endpoint payload options in
  (network (dispatch d w).2 = network w ∧
   config (dispatch d w).2 = config w ∧ tokens (dispatch d w).2 = tokens w ∧
   sleeps (dispatch d w).2 = sleeps w ∧ console (dispatch d w).2 = console w) ∧
  ((requests (dispatch d w).2 = requests w ∧
    ((∃ waitTime,
        (dispatch d w).1 = InstagramClient.rate_limit_local waitTime) ∨
     (∃ e, InstagramClient.auth_headers (api_of options) w = Threw e ∧
           (dispatch d w).1 = InstagramClient.failure e))) ∨
   ∃ req,
     (Request.method req = method ∧ Request.api req = api_of options ∧
      Request.url req = endpoint ∧
      InstagramClient.auth_headers (api_of options) w
        = Returned (Request.headers req)) ∧
     requests (dispatch d w).2 = req :: requests w ∧
     (dispatch d w).1 =
       match network w (length (requests w)) req with
       | Fulfilled r => succeeded r
       | Rejected reason =>
           InstagramClient.failure
             (InstagramClient.handleApiError reason (api_of options))
       end).
Proof.
  intros d. subst d. unfold api_of.
  destruct method; cbn [request dispatch];
    unfold InstagramClient.get, InstagramClient.post, InstagramClient.delete,
      InstagramClient.updateRateLimitsFromHeaders, InstagramClient.send;
    unfold mbind, mret, M_bind, M_ret, gets;
    (match goal with
     | |- context [RateLimiter.canExecute ?c w] =>
         pose proof (canExecute_outside c w) as H1;
         destruct (RateLimiter.canExecute c w) as [allowed w1];
         cbn [snd] in H1; destruct allowed; cbn [negb];
         [ rewrite (auth_headers_outside _ _ _ H1);
           destruct H1 as (_ & Hnet1 & Hreq1 & Hcfg1 & Htok1 & Hsl1 & Hcon1);
           destruct (InstagramClient.auth_headers _ w) as [h|e] eqn:Hh;
           cbn [fst snd];
           [ rewrite Hnet1, Hreq1;
             match goal with
             | |- context [network w ?n ?r] =>
                 set (req := r);
                 destruct (network w n req) as [resp|reason] eqn:Hsettled
             end;
             [ pose proof (consume_outside c
                             (with_requests (req :: requests w) w1)) as H2;
               destruct (RateLimiter.consume c _) as [? w2]; cbn [snd] in H2;
               lazymatch goal with
               | |- context [RateLimiter.updateFromHeaders] =>
                   pose proof (updateFromHeaders_outside c
                                 (AxiosResponse.headers resp) w2) as H3;
                   destruct (RateLimiter.updateFromHeaders c _ w2)
                     as [[] w3];
                   cbn [snd] in H3;
                   pose proof (outside_limiter_trans _ _ _ H2 H3) as H4;
                   clear H2 H3; rename H4 into H2
               | |- _ => idtac
               end;
               cbn [fst snd];
               destruct H2 as (_ & Hnet2 & Hreq2 & Hcfg2 & Htok2 & Hsl2 & Hcon2);
               cbn [network requests config tokens sleeps console
                      with_requests] in Hnet2, Hreq2, Hcfg2, Htok2, Hsl2, Hcon2;
               split; [repeat split; congruence|];
               right; exists req; repeat split;
               first [assumption | congruence | rewrite Hsettled; reflexivity]
             | cbn [fst snd network requests config tokens sleeps console
                      with_requests];
               split; [repeat split; assumption|];
               right; exists req; repeat split;
               first [assumption | congruence | rewrite Hsettled; reflexivity] ]
           | split; [repeat split; assumption|];
             left; split; [assumption|];
             right; exists e; split; reflexivity ]
         | pose proof (getWaitTimeFormatted_outside c w1) as H2;
           destruct (RateLimiter.getWaitTimeFormatted c w1) as [wt w2];
           cbn [fst snd] in H2 |- *;
           pose proof (outside_limiter_trans _ _ _ H1 H2)
             as (_ & Hnet & Hreq & Hcfg & Htok & Hsl & Hcon);
           split; [repeat split; assumption|];
           left; split; [assumption|];
           left; exists wt; reflexivity ]
     end).
Qed.

Lemma request_cases method endpoint payload options w :
  let d := request method endpoint payload options in
  (network (dispatch d w).2 = network w ∧
   config (dispatch d w).2 = config w ∧ tokens (dispatch d w).2 = tokens w ∧
   sleeps (dispatch d w).2 = sleeps w ∧ console (dispatch d w).2 = console w) ∧
  ((ApiResponse.success (dispatch d w).1 = false ∧
    ApiResponse.data (dispatch d w).1 = None ∧
    requests (dispatch d w).2 = requests w) ∨
   ∃ req,
     (Request.method req = method ∧ Request.api req = api_of options ∧
      Request.url req = endpoint ∧
      InstagramClient.auth_headers (api_of options) w
        = Returned (Request.headers req)) ∧
     requests (dispatch d w).2 = req :: requests w ∧
     (dispatch d w).1 =
       match network w (length (requests w)) req with
       | Fulfilled r => succeeded r
       | Rejected reason =>
           InstagramClient.failure
             (InstagramClient.handleApiError reason (api_of options))
       end).
Proof.
  intros d.
  destruct (request_outcomes method endpoint payload options w)
    as [Hframe [(Hrequests & Hfailed) | Hsent]].
  - split; [exact Hframe|]. left. fold d in Hrequests, Hfailed.
    destruct Hfailed as [(waitTime & ->) | (e & _ & ->)]; auto.
  - split; [exact Hframe | right; exact Hsent].
Qed.

(** X16.  Success is never reported without a fulfilled request.  For
    [get], [post] and [delete], from any world and whatever the transport
    does: a call hands at most one request to the transport, and when its
    result is a success, the credentials of its scheme were available,
    exactly one request was sent (with the method, scheme, URL and headers
    of the call), the transport fulfilled it, and the value of the result
    is the body of that response. *)
Theorem success_needs_a_fulfilled_request
    (method : Method) (endpoint : string)
    (payload : option (list (string * Json))) (options : RequestOptions.t)
    (w : World) :
  let d := request method endpoint payload options in
  (∃ sent, requests (dispatch d w).2 = (sent ++ requests w)%list ∧
           (length sent ≤ 1)%nat) ∧
  (ApiResponse.success (dispatch d w).1 = true →
   ∃ req response,
     InstagramClient.auth_headers (api_of options) w
       = Returned (Request.headers req) ∧
     Request.method req = method ∧ Request.api req = api_of options ∧
     Request.url req = endpoint ∧
     requests (dispatch d w).2 = req :: requests w ∧
     network w (length (requests w)) req = Fulfilled response ∧
     ApiResponse.data (dispatch d w).1 = Some (AxiosResponse.data response)).
Proof.
  intros d. subst d.
  pose proof (request_cases method endpoint payload options w) as Hcases.
  cbv zeta in Hcases.
  destruct Hcases
    as [_ [(Hfailed & _ & Hrequests)
          | (req & (Hmethod & Hapi & Hurl & Hheaders) & Hrequests & Hresult)]].
  - split; [exists []; split; [exact Hrequests | simpl; lia]|].
    intros Hsuccess. rewrite Hfailed in Hsuccess. discriminate.
  - split; [exists [req]; split; [exact Hrequests | simpl; lia]|].
    intros Hsuccess. rewrite Hresult in Hsuccess |- *.
    destruct (network w (length (requests w)) req) as [response|reason] eqn:Hnet;
      [|discriminate].
    exists req, response. repeat split; assumption.
Qed.

Lemma success_needs_a_fulfilled_request_witness :
  let w := client_world no_content in
  let d := DoGet "/me" None RequestOptions.none in
  ApiResponse.success (dispatch d w).1 = true ∧
  ∃ req response,
    InstagramClient.auth_headers graph w = Returned (Request.headers req) ∧
    Request.method req = GET ∧ Request.api req = graph ∧
    Request.url req = "/me" ∧
    requests (dispatch d w).2 = req :: requests w ∧
    network w (length (requests w)) req = Fulfilled response ∧
    ApiResponse.data (dispatch d w).1 = Some (AxiosResponse.data response).
Proof.
  split; [reflexivity|].
  exact (proj2 (success_needs_a_fulfilled_request GET "/me" None
                  RequestOptions.none (client_world no_content)) eq_refl).
Defined.

(** *** Deleting a post or a reel *)

Lemma delete_call_cases id w :
  let call :=
    InstagramClient.post ("/media/" ++ id ++ "/delete/") (Some [])
      (RequestOptions.mk (Some private) None) w in
  (ApiResponse.success call.1 = false ∧ ApiResponse.data call.1 = None) ∨
  ∃ req response,
    (Request.method req = POST ∧ Request.api req = private ∧
     Request.url req = "/media/" ++ id ++ "/delete/") ∧
    requests call.2 = req :: requests w ∧
    network w (length (requests w)) req = Fulfilled response ∧
    call.1 = succeeded response.
Proof.
  intros call.
  destruct (request_cases POST ("/media/" ++ id ++ "/delete/") (Some [])
              (RequestOptions.mk (Some private) None) w)
    as [_ [(Hfailed & Hdata & _)
          | (req & (Hmethod & Hapi & Hurl & _) & Hrequests & Hresult)]].
  - left. split; [exact Hfailed | exact Hdata].
  - cbn [request dispatch] in Hrequests, Hresult. fold call in Hrequests, Hresult.
    destruct (network w (length (requests w)) req) as [response|reason] eqn:Hnet.
    + right. exists req, response. auto 10.
    + left. rewrite Hresult. split; reflexivity.
Qed.

(** X17.  Deleting goes through the Private API and nowhere else.
    Without a Private API session, [deletePost] and [deleteReel] return
    the [NOT_SUPPORTED] failure and touch nothing.  When either reports a
    success, exactly one request was sent, a [POST] to
    [/media/<id>/delete/] on the Private API, and it was fulfilled; the
    [success] flag of the value tells whether the body said [ok].  For
    [deleteReel] a success means the body did say [ok]; [deletePost]
    reports a success for any fulfilled request. *)
Theorem deletion_goes_through_the_private_api (id : string) (w : World) :
  (InstagramAuth.hasPrivateApiAuth w = false →
   (∃ e, PostsTools.deletePost id w
           = (InstagramClient.failure (ThrowApiError e), w) ∧
         ApiError.code e = JString "NOT_SUPPORTED") ∧
   (∃ e, ReelsTools.deleteReel id w
           = (InstagramClient.failure (ThrowApiError e), w) ∧
         ApiError.code e = JString "NOT_SUPPORTED")) ∧
  (ApiResponse.success (PostsTools.deletePost id w).1 = true →
   ∃ req response,
     requests (PostsTools.deletePost id w).2 = req :: requests w ∧
     (Request.method req = POST ∧ Request.api req = private ∧
      Request.url req = "/media/" ++ id ++ "/delete/") ∧
     network w (length (requests w)) req = Fulfilled response ∧
     ApiResponse.data (PostsTools.deletePost id w).1 =
       Some (JObject
         [("success",
           JBool (is_string "ok"
                    (Js.prop "status" (AxiosResponse.data response))))])) ∧
  (ApiResponse.success (ReelsTools.deleteReel id w).1 = true →
   ∃ req response,
     requests (ReelsTools.deleteReel id w).2 = req :: requests w ∧
     (Request.method req = POST ∧ Request.api req = private ∧
      Request.url req = "/media/" ++ id ++ "/delete/") ∧
     network w (length (requests w)) req = Fulfilled response ∧
     is_string "ok" (Js.prop "status" (AxiosResponse.data response)) = true ∧
     ApiResponse.data (ReelsTools.deleteReel id w).1 =
       Some (JObject [("success", JBool true)])).
Proof.
  pose proof (delete_call_cases id w) as Hcall. cbv zeta in Hcall.
  unfold PostsTools.deletePost, ReelsTools.deleteReel.
  unfold mbind, mret, M_bind, M_ret, gets.
  destruct (InstagramAuth.hasPrivateApiAuth w); cbn [negb].
  - split; [discriminate|].
    destruct (InstagramClient.post _ _ _ w) as [result w1].
    cbn [fst snd ApiResponse.success ApiResponse.data] in *.
    destruct Hcall as [(Hfailed & Hdata)
                      | (req & response & Hreq & Hrequests & Hnet & ->)].
    + rewrite Hfailed. split; discriminate.
    + unfold data_prop, succeeded. cbn [ApiResponse.data ApiResponse.success
                                          from_option andb].
      split.
      * intros _. exists req, response. auto 10.
      * intros Hok. exists req, response. rewrite Hok. auto 10.
  - split; [|split; discriminate].
    intros _. split; eexists; split; reflexivity.
Qed.

Lemma deletion_goes_through_the_private_api_witness :
  let w := client_world (ok_response ∅) in
  ApiResponse.success (PostsTools.deletePost "17900000000000000" w).1 = true ∧
  ApiResponse.data (PostsTools.deletePost "17900000000000000" w).1
    = Some (JObject [("success", JBool false)]) ∧
  ApiResponse.success (ReelsTools.deleteReel "17900000000000000" w).1 = false ∧
  length (requests (PostsTools.deletePost "17900000000000000" w).2) = 1%nat.
Proof.
  assert (Hsuccess :
    ApiResponse.success
      (PostsTools.deletePost "17900000000000000"
         (client_world (ok_response ∅))).1 = true)
    by (vm_compute; reflexivity).
  split; [exact Hsuccess|].
  split; [vm_compute; reflexivity|]. split; [vm_compute; reflexivity|].
  destruct (proj1 (proj2 (deletion_goes_through_the_private_api
                            "17900000000000000" (client_world (ok_response ∅))))
              Hsuccess)
    as (req & response & Hrequests & _).
  exact (f_equal length Hrequests).
Defined.

(** *** Uploading a media *)

(** X18.  [uploadMedia] is two [POST]s on the Graph API, or fewer.  From
    any world, the requests it hands to the transport are at most two,
    all of them [POST]s on the Graph API; none is sent without a business
    account id; a success means that both were sent, first to
    [/<account>/media] and then to [/<account>/media_publish]; and unless
    both were sent, no permit is used: the buckets are those [canExecute]
    left. *)
Theorem uploadMedia_is_two_posts
    (mediaUrl : string) (mediaType : MediaType) (caption : option string)
    (options : RequestOptions.t) (w : World) :
  let d := DoUploadMedia mediaUrl mediaType caption options in
  ∃ sent,
    requests (dispatch d w).2 = (sent ++ requests w)%list ∧
    (length sent ≤ 2)%nat ∧
    Forall (λ req, Request.method req = POST ∧ Request.api req = graph) sent ∧
    (InstagramAuth.truthy (InstagramAuth.getBusinessAccountId w) = false →
     sent = []) ∧
    (ApiResponse.success (dispatch d w).1 = true →
     ∃ account container publish,
       InstagramAuth.getBusinessAccountId w = Some account ∧
       sent = [publish; container] ∧
       Request.url container = "/" ++ account ++ "/media" ∧
       Request.url publish = "/" ++ account ++ "/media_publish") ∧
    ((length sent < 2)%nat →
     buckets (dispatch d w).2
       = buckets (RateLimiter.canExecute (category_of d) w).2).
Proof.
  intros d. subst d. cbn [dispatch category_of].
  unfold InstagramClient.uploadMedia, InstagramClient.send.
  unfold mbind, mret, M_bind, M_ret, gets.
  set (category := default content_publish
                     (RequestOptions.rateLimitCategory options)).
  pose proof (canExecute_outside category w) as H1.
  destruct (RateLimiter.canExecute category w) as [allowed w1].
  cbn [fst snd] in H1 |- *.
  destruct H1 as (_ & Hnet1 & Hreq1 & Hcfg1 & Htok1 & _).
  destruct allowed; cbn [negb].
  2:{ pose proof (getWaitTimeFormatted_outside category w1) as H2.
      pose proof (getWaitTimeFormatted_buckets category w1) as Hb2.
      destruct (RateLimiter.getWaitTimeFormatted category w1) as [wt w2].
      cbn [fst snd] in H2, Hb2 |- *. destruct H2 as (_ & _ & Hreq2 & _).
      exists []. cbn [app length].
      split; [congruence|]. split; [lia|]. split; [constructor|].
      split; [reflexivity|]. split; [discriminate|]. intros _. exact (proj1 Hb2). }
  assert (Haccount : InstagramAuth.getBusinessAccountId w1
                     = InstagramAuth.getBusinessAccountId w).
  { unfold InstagramAuth.getBusinessAccountId. rewrite Hcfg1. reflexivity. }
  rewrite Haccount.
  destruct (InstagramAuth.truthy (InstagramAuth.getBusinessAccountId w))
    eqn:Htruthy; cbn [negb].
  2:{ exists []. cbn [app length fst snd].
      split; [congruence|]. split; [lia|]. split; [constructor|].
      split; [reflexivity|]. split; [discriminate|]. reflexivity. }
  destruct (InstagramAuth.getBusinessAccountId w) as [account|] eqn:Hid;
    [|discriminate]. cbn [default].
  change (id account) with account.
  assert (Hfew : ∀ (sent : list Request.t) (result : ApiResponse.t) (w' : World),
            requests w' = (sent ++ requests w)%list →
            buckets w' = buckets w1 →
            (length sent ≤ 1)%nat →
            ApiResponse.success result = false →
            Forall (λ req, Request.method req = POST ∧ Request.api req = graph)
              sent →
            ∃ sent,
              requests (result, w').2 = (sent ++ requests w)%list ∧
              (length sent ≤ 2)%nat ∧
              Forall (λ req, Request.method req = POST ∧ Request.api req = graph)
                sent ∧
              (true = false → sent = []) ∧
              (ApiResponse.success (result, w').1 = true →
               ∃ account0 container publish,
                 Some account = Some account0 ∧
                 sent = [publish; container] ∧
                 Request.url container = "/" ++ account0 ++ "/media" ∧
                 Request.url publish = "/" ++ account0 ++ "/media_publish") ∧
              ((length sent < 2)%nat → buckets (result, w').2 = buckets w1)).
  { intros sent result w' Hrequests Hbuckets Hlen Hfailed Hposts.
    exists sent. cbn [fst snd]. rewrite Hfailed.
    split; [exact Hrequests|]. split; [lia|]. split; [exact Hposts|].
    split; [discriminate|]. split; [discriminate|]. intros _. exact Hbuckets. }
  destruct (InstagramAuth.getGraphApiHeaders w1) as [h1|e1].
  2:{ apply (Hfew []);
        [ exact Hreq1 | reflexivity | simpl; lia | reflexivity | constructor ]. }
  set (container := {| Request.url := "/" ++ account ++ "/media" |}).
  assert (Hcontainer : Forall (λ req, Request.method req = POST ∧
                                      Request.api req = graph) [container])
    by (repeat constructor).
  destruct (network w1 (length (requests w1)) container) as [r1|reason1].
  2:{ apply (Hfew [container]);
        [ cbn [requests with_requests app]; rewrite Hreq1; reflexivity
        | reflexivity | simpl; lia | reflexivity | exact Hcontainer ]. }
  destruct (InstagramClient.member "id" (AxiosResponse.data r1))
    as [containerId|e2].
  2:{ apply (Hfew [container]);
        [ cbn [requests with_requests app]; rewrite Hreq1; reflexivity
        | reflexivity | simpl; lia | reflexivity | exact Hcontainer ]. }
  destruct (InstagramAuth.getGraphApiHeaders _) as [h2|e3].
  2:{ apply (Hfew [container]);
        [ cbn [requests with_requests app]; rewrite Hreq1; reflexivity
        | reflexivity | simpl; lia | reflexivity | exact Hcontainer ]. }
  set (publish := {| Request.url := "/" ++ account ++ "/media_publish" |}).
  set (w2 := with_requests (container :: requests w1) w1).
  destruct (network w2 (length (requests w2)) publish) as [r2|reason2].
  - pose proof (consume_outside category
                  (with_requests (publish :: requests w2) w2)) as H3.
    destruct (RateLimiter.consume category _) as [? w3].
    cbn [snd] in H3. destruct H3 as (_ & _ & Hreq3 & _).
    cbn [requests with_requests] in Hreq3.
    exists [publish; container].
    destruct (InstagramClient.member "id" (AxiosResponse.data r2)) as [id|e4];
      cbn [fst snd app length];
      (split; [rewrite Hreq3; unfold w2; cbn [requests with_requests];
               rewrite Hreq1; reflexivity|]);
      (split; [lia|]); (split; [repeat constructor|]);
      (split; [discriminate|]); (split; [|lia]).
    + intros _. exists account, container, publish. auto.
    + discriminate.
  - exists [publish; container]. unfold w2.
    cbn [fst snd app length requests with_requests].
    split; [rewrite Hreq1; reflexivity|].
    split; [lia|]. split; [repeat constructor|].
    split; [discriminate|]. split; [discriminate | lia].
Qed.

Lemma uploadMedia_is_two_posts_witness :
  let w := client_world (ok_response ∅) in
  let d := DoUploadMedia "https://example.com/a.jpg" IMAGE None
             RequestOptions.none in
  ApiResponse.success (dispatch d w).1 = true ∧
  ∃ account container publish,
    InstagramAuth.getBusinessAccountId w = Some account ∧
    requests (dispatch d w).2 = [publish; container] ∧
    Request.url container = "/" ++ account ++ "/media" ∧
    Request.url publish = "/" ++ account ++ "/media_publish".
Proof.
  assert (Hsuccess :
    ApiResponse.success
      (dispatch (DoUploadMedia "https://example.com/a.jpg" IMAGE None
                   RequestOptions.none) (client_world (ok_response ∅))).1
    = true) by (vm_compute; reflexivity).
  split; [exact Hsuccess|].
  destruct (uploadMedia_is_two_posts "https://example.com/a.jpg" IMAGE None
              RequestOptions.none (client_world (ok_response ∅)))
    as (sent & Hrequests & _ & _ & _ & Hboth & _).
  destruct (Hboth Hsuccess)
    as (account & container & publish & Haccount & Hsent & Hurl1 & Hurl2).
  exists account, container, publish.
  split; [exact Haccount|].
  split; [|split; [exact Hurl1 | exact Hurl2]].
  exact (eq_trans Hrequests (f_equal (λ l, (l ++ [])%list) Hsent)).
Defined.

(** *** Publishing a reel *)

Section NeverFinished.

Variable net : nat → Request.t → Settled.

Hypothesis never_finished : ∀ n req response,
  Request.method req = GET →
  net n req = Fulfilled response →
  is_string "FINISHED" (Js.prop "status_code" (AxiosResponse.data response))
    = false.

Lemma status_check_never_finished endpoint params options w :
  network w = net →
  let out := InstagramClient.get endpoint params options w in
  is_string "FINISHED" (data_prop "status_code" out.1) = false ∧
  network out.2 = net ∧ config out.2 = config w ∧
  ∃ sent, requests out.2 = (sent ++ requests w)%list ∧ (length sent ≤ 1)%nat ∧
          Forall (λ req, Request.method req = GET) sent.
Proof.
  intros Hnet out. subst out.
  pose proof (request_cases GET endpoint params options w) as Hcases.
  cbv zeta in Hcases. cbn [request dispatch] in Hcases.
  destruct Hcases
    as [(Hnetwork & Hconfig & _)
        [(_ & Hdata & Hrequests)
        | (req & (Hmethod & _) & Hrequests & Hresult)]].
  - unfold data_prop. rewrite Hdata. cbn [from_option].
    split; [reflexivity|]. split; [congruence|]. split; [exact Hconfig|].
    exists []. split; [exact Hrequests|]. split; [simpl; lia | constructor].
  - split; [|split; [congruence|split; [exact Hconfig|]]].
    + rewrite Hresult.
      destruct (network w (length (requests w)) req) as [response|reason]
        eqn:Hsettled; [|reflexivity].
      rewrite Hnet in Hsettled.
      exact (never_finished _ _ _ Hmethod Hsettled).
    + exists [req]. split; [exact Hrequests|].
      split; [simpl; lia | repeat constructor; exact Hmethod].
Qed.

Lemma waitForVideoProcessing_never_finished containerId todo : ∀ w,
  network w = net →
  let out := ReelsTools.waitForVideoProcessing_loop containerId todo w in
  out.1 = false ∧ config out.2 = config w ∧
  ∃ sent, requests out.2 = (sent ++ requests w)%list ∧
          (length sent ≤ todo)%nat ∧
          Forall (λ req, Request.method req = GET) sent.
Proof.
  induction todo as [|todo IH]; intros w Hnet.
  - cbn. split; [reflexivity|]. split; [reflexivity|].
    exists []. split; [reflexivity|]. split; [simpl; lia | constructor].
  - cbn [ReelsTools.waitForVideoProcessing_loop].
    unfold mbind, mret, M_bind, M_ret.
    destruct (status_check_never_finished ("/" ++ containerId)
                (Some [("fields", JString "status_code,status")])
                RequestOptions.none w Hnet)
      as (Hpending & Hnet1 & Hconfig1 & sent & Hsent & Hlen & Hgets).
    destruct (InstagramClient.get _ _ _ w) as [result w1].
    cbn [fst snd] in Hpending, Hnet1, Hconfig1, Hsent.
    rewrite Hpending.
    destruct (is_string "ERROR" (data_prop "status_code" result)).
    + cbn [fst snd console_error modify config requests with_console].
      split; [reflexivity|]. split; [exact Hconfig1|].
      exists sent. split; [exact Hsent|]. split; [lia | exact Hgets].
    + unfold sleep, modify. cbv beta iota.
      destruct (IH (with_sleeps (3000 :: sleeps w1) w1) Hnet1)
        as (Hfalse & Hconfig2 & sent' & Hsent' & Hlen' & Hgets').
      split; [exact Hfalse|]. split; [rewrite Hconfig2; exact Hconfig1|].
      exists (sent' ++ sent)%list.
      split; [rewrite Hsent'; cbn [requests with_sleeps]; rewrite Hsent;
              apply app_assoc|].
      split; [rewrite length_app; lia|].
      apply Forall_app. split; assumption.
Qed.

End NeverFinished.

(** X19.  A reel whose processing is never reported finished is never
    published.  If no status check is ever answered with the status code
    [FINISHED], then whatever else the transport does [createReel] does
    not return a published reel (its result is a failure or carries no
    data), and the requests it sent are the creation of the container
    followed by at most 60 status checks: no [POST] goes to
    [media_publish]. *)
Theorem reel_is_published_only_when_finished
    (params : CreateReelParams.t) (w : World) :
  (∀ n req response,
     Request.method req = GET →
     network w n req = Fulfilled response →
     is_string "FINISHED" (Js.prop "status_code" (AxiosResponse.data response))
       = false) →
  let out := ReelsTools.createReel params w in
  (ApiResponse.success out.1 = false
   ∨ Js.truthy_opt (ApiResponse.data out.1) = false) ∧
  ∃ checks container,
    requests out.2 = (checks ++ container ++ requests w)%list ∧
    (length checks ≤ 60)%nat ∧
    Forall (λ req, Request.method req = GET) checks ∧
    (length container ≤ 1)%nat ∧
    Forall (λ req, Request.method req = POST ∧
                   Some (Request.url req) =
                     (λ account, "/" ++ account ++ "/media")
                       <$> InstagramAuth.getBusinessAccountId w) container.
Proof.
  intros Hnever out. subst out.
  unfold ReelsTools.createReel. unfold mbind, mret, M_bind, M_ret, gets.
  destruct (InstagramAuth.truthy (InstagramAuth.getBusinessAccountId w))
    eqn:Haccount; cbn [negb].
  2:{ split; [left; reflexivity|]. exists [], [].
      split; [reflexivity|]. split; [simpl; lia|]. split; [constructor|].
      split; [simpl; lia | constructor]. }
  destruct (InstagramAuth.getBusinessAccountId w) as [account|];
    [|discriminate]. cbn [default fmap option_fmap option_map].
  change (id account) with account.
  pose proof (request_cases POST ("/" ++ account ++ "/media")
                (Some (ReelsTools.createReel_reelData params))
                (RequestOptions.mk None (Some content_publish)) w) as Hcases.
  cbv zeta in Hcases. cbn [request dispatch] in Hcases.
  destruct (InstagramClient.post _ _ _ w) as [containerResult w1].
  cbn [fst snd] in Hcases.
  destruct Hcases as [(Hnetwork & Hconfig & _) Hcases].
  assert (Hresult : ∀ result : ApiResponse.t,
            unusable result = true →
            ApiResponse.success result = false
            ∨ Js.truthy_opt (ApiResponse.data result) = false).
  { intros result. unfold unusable. rewrite orb_true_iff, !negb_true_iff. auto. }
  assert (Hcontainer : ∃ container,
            requests w1 = (container ++ requests w)%list ∧
            (length container ≤ 1)%nat ∧
            Forall (λ req, Request.method req = POST ∧
                           Some (Request.url req)
                             = Some ("/" ++ account ++ "/media")) container).
  { destruct Hcases as [(_ & _ & Hrequests)
                       | (req & (Hmethod & _ & Hurl & _) & Hrequests & _)].
    - exists []. split; [exact Hrequests|]. split; [simpl; lia | constructor].
    - exists [req]. split; [exact Hrequests|]. split; [simpl; lia|].
      repeat constructor; [exact Hmethod | congruence]. }
  clear Hcases. destruct Hcontainer as (container & Hsent & Hlen & Hposts).
  destruct (unusable containerResult) eqn:Hunusable.
  { cbn [fst snd]. split; [exact (Hresult _ Hunusable)|].
    exists [], container. split; [exact Hsent|].
    split; [simpl; lia|]. split; [constructor|]. split; assumption. }
  unfold ReelsTools.waitForVideoProcessing. cbn [default].
  destruct (waitForVideoProcessing_never_finished (network w) Hnever
              (Js.to_string (data_prop "id" containerResult)) 60 w1 Hnetwork)
    as (Hfalse & _ & checks & Hchecks & Hlen' & Hgets).
  destruct (ReelsTools.waitForVideoProcessing_loop _ _ w1) as [processed w2].
  cbn [fst snd] in Hfalse, Hchecks. subst processed. cbn [negb fst snd].
  split; [left; reflexivity|].
  exists checks, container. rewrite Hchecks, Hsent.
  split; [reflexivity|]. split; [exact Hlen'|]. split; [exact Hgets|].
  split; assumption.
Qed.

Lemma reel_is_published_only_when_finished_witness :
  let w := client_world (container_status "IN_PROGRESS") in
  let params :=
    CreateReelParams.mk "https://example.com/reel.mp4" (Some "Reel") None true
      None None None None in
  (∀ n req response,
     Request.method req = GET →
     network w n req = Fulfilled response →
     is_string "FINISHED" (Js.prop "status_code" (AxiosResponse.data response))
       = false) ∧
  length (requests (ReelsTools.createReel params w).2) = 61%nat ∧
  (ApiResponse.success (ReelsTools.createReel params w).1 = false
   ∨ Js.truthy_opt (ApiResponse.data (ReelsTools.createReel params w).1)
     = false).
Proof.
  assert (Hnever : ∀ n req response,
     Request.method req = GET →
     network (client_world (container_status "IN_PROGRESS")) n req
       = Fulfilled response →
     is_string "FINISHED" (Js.prop "status_code" (AxiosResponse.data response))
       = false).
  { intros n req response _ Hnet. injection Hnet as <-. reflexivity. }
  split; [exact Hnever|]. split; [vm_compute; reflexivity|].
  exact (proj1 (reel_is_published_only_when_finished
                  (CreateReelParams.mk "https://example.com/reel.mp4"
                     (Some "Reel") None true None None None None)
                  (client_world (container_status "IN_PROGRESS")) Hnever)).
Defined.

(** ** The formatted wait time *)



(** ** The errors of the request layer *)

Lemma handleApiError_coded reason api :
  ∃ e, InstagramClient.handleApiError reason api = ThrowApiError e ∧
       Js.truthy (ApiError.code e) = true.
Proof.
  unfold InstagramClient.handleApiError.
  destruct reason as [error|]; [|eauto].
  repeat (case_bool_decide; [eauto|]).
  destruct (Js.truthy (Js.prop "error" _)); [|eauto].
  eexists. split; [reflexivity|]. cbn [ApiError.code]. unfold Js.or.
  destruct (Js.truthy (Js.prop "code" _)) eqn:Hcode; [exact Hcode | reflexivity].
Qed.

Lemma auth_headers_thrown api w e :
  InstagramClient.auth_headers api w = Threw e →
  (∃ message, e = ThrowError message) ∧
  match api with
  | graph => InstagramAuth.hasGraphApiAuth w
  | private => InstagramAuth.hasPrivateApiAuth w
  end = false.
Proof.
  unfold InstagramClient.auth_headers, InstagramAuth.getGraphApiHeaders,
    InstagramAuth.getPrivateApiHeaders, InstagramAuth.hasGraphApiAuth,
    InstagramAuth.hasPrivateApiAuth.
  destruct api.
  - destruct (InstagramAuth.getGraphApiToken w) as [token|].
    + destruct (InstagramAuth.truthy (Some token)); [discriminate|].
      intros [= <-]. eauto.
    + intros [= <-]. eauto.
  - destruct (InstagramAuth.getPrivateApiSession w) as [session|].
    + destruct (InstagramAuth.truthy (Some session)); [discriminate|].
      intros [= <-]. eauto.
    + intros [= <-]. eauto.
Qed.

(** X21.  A failure always says why.  For [get], [post] and [delete],
    from any world and whatever the transport does, a result that is not
    a success carries no data and an error.  The error is an API error
    with a non-empty code (the local limiter's, or the one
    [handleApiError] derives from the rejection), except when the
    credentials of the call's scheme are missing: the error is then the
    plain [Error] of the header getter, which has no code, and nothing
    was sent. *)
Theorem failure_always_carries_an_error
    (method : Method) (endpoint : string)
    (payload : option (list (string * Json))) (options : RequestOptions.t)
    (w : World) :
  let d := request method endpoint payload options in
  ApiResponse.success (dispatch d w).1 = false →
  ApiResponse.data (dispatch d w).1 = None ∧
  ((∃ e, ApiResponse.error (dispatch d w).1 = Some (ThrowApiError e) ∧
         Js.truthy (ApiError.code e) = true) ∨
   (∃ message,
      ApiResponse.error (dispatch d w).1 = Some (ThrowError message) ∧
      match api_of options with
      | graph => InstagramAuth.hasGraphApiAuth w
      | private => InstagramAuth.hasPrivateApiAuth w
      end = false ∧
      requests (dispatch d w).2 = requests w)).
Proof.
  intros d. subst d.
  pose proof (request_outcomes method endpoint payload options w) as Hcases.
  cbv zeta in Hcases.
  destruct Hcases
    as [_ [(Hrequests & [(waitTime & ->) | (e & Hthrown & ->)])
          | (req & _ & _ & ->)]].
  - intros _. split; [reflexivity|]. left. eexists. split; reflexivity.
  - intros _. split; [reflexivity|]. right.
    destruct (auth_headers_thrown _ _ _ Hthrown) as [(message & ->) Hmissing].
    exists message. auto.
  - destruct (network w (length (requests w)) req) as [response|reason];
      [discriminate|].
    intros _. split; [reflexivity|]. left.
    destruct (handleApiError_coded reason (api_of options)) as (e & -> & Hcode).
    exists e. split; [reflexivity | exact Hcode].
Qed.

Lemma failure_always_carries_an_error_witness :
  let w := client_world too_many_requests in
  let d := DoGet "/me" None RequestOptions.none in
  ApiResponse.success (dispatch d w).1 = false ∧
  ApiResponse.data (dispatch d w).1 = None ∧
  ((∃ e, ApiResponse.error (dispatch d w).1 = Some (ThrowApiError e) ∧
         Js.truthy (ApiError.code e) = true) ∨
   (∃ message,
      ApiResponse.error (dispatch d w).1 = Some (ThrowError message) ∧
      InstagramAuth.hasGraphApiAuth w = false ∧
      requests (dispatch d w).2 = requests w)).
Proof.
  split; [reflexivity|].
  exact (failure_always_carries_an_error GET "/me" None RequestOptions.none
           (client_world too_many_requests) eq_refl).
Defined.

(** ** The shape of the device identifiers *)

(** X22.  The device identifiers carry 32 bits at most.  Whatever the
    session, the hexadecimal text of the hash has between 1 and 8 digits;
    [generateDeviceId] is the constant ["00000000-0000-4000-a000-0000"]
    followed by that text padded to 8 digits, 36 characters in all, and
    [generateAndroidId] is ["android-"] followed by that text, which
    [slice(0, 16)] never shortens. *)
Theorem device_identifiers_carry_32_bits (w : World) :
  let hex :=
    InstagramAuth.toString16
      (Z.abs (InstagramAuth.hash_of (InstagramAuth.seed w))) in
  (1 ≤ String.length hex ≤ 8)%nat ∧
  InstagramAuth.generateDeviceId w
    = "00000000-0000-4000-a000-0000" ++ InstagramAuth.padStart 8 "0" hex ∧
  String.length (InstagramAuth.generateDeviceId w) = 36%nat ∧
  InstagramAuth.generateAndroidId w = "android-" ++ hex.
Proof.
  intros hex.
  assert (Hlen : (1 ≤ String.length hex ≤ 8)%nat).
  { apply toString16_length.
    pose proof (hash_fold_range
                  (list_ascii_of_string (InstagramAuth.seed w)) 0 ltac:(lia))
      as Hrange.
    fold (InstagramAuth.hash_of (InstagramAuth.seed w)) in Hrange. lia. }
  assert (Hdevice : InstagramAuth.generateDeviceId w
            = "00000000-0000-4000-a000-0000" ++ InstagramAuth.padStart 8 "0" hex).
  { unfold InstagramAuth.generateDeviceId. cbv zeta. fold hex.
    assert (Hpad : InstagramAuth.padStart 32 "0" hex
              = "000000000000000000000000" ++ InstagramAuth.padStart 8 "0" hex).
    { unfold InstagramAuth.padStart.
      replace (32 - String.length hex)%nat
        with (24 + (8 - String.length hex))%nat by lia.
      reflexivity. }
    rewrite Hpad.
    assert (Ht : String.length (InstagramAuth.padStart 8 "0" hex) = 8%nat).
    { unfold InstagramAuth.padStart.
      rewrite string_length_app, replicate_char_length. lia. }
    destruct (InstagramAuth.padStart 8 "0" hex)
      as [|a1 [|a2 [|a3 [|a4 [|a5 [|a6 [|a7 [|a8 [|a9 t]]]]]]]]];
      try discriminate.
    reflexivity. }
  split; [exact Hlen|]. split; [exact Hdevice|]. split.
  - rewrite Hdevice, string_length_app.
    unfold InstagramAuth.padStart.
    rewrite string_length_app, replicate_char_length. simpl. lia.
  - unfold InstagramAuth.generateAndroidId, InstagramAuth.slice. cbv zeta.
    fold hex. rewrite substring_all by (simpl; lia). reflexivity.
Qed.

(** ** The cost of creating content *)

Lemma spent_refl delay w : spent delay 0 0 w w.
Proof. exists [], 0%nat. auto. Qed.

Lemma spent_trans delay n k n' k' w w1 w2 :
  spent delay n k w w1 → spent delay n' k' w1 w2 →
  spent delay (n + n') (k + k') w w2.
Proof.
  intros (sent & waits & Hsent & Hwaits & Hn & Hk)
         (sent' & waits' & Hsent' & Hwaits' & Hn' & Hk').
  exists (sent' ++ sent)%list, (waits' + waits)%nat.
  rewrite Hsent', Hsent, Hwaits', Hwaits, replicate_add, length_app,
    <- !app_assoc.
  split; [reflexivity|]. split; [reflexivity|]. lia.
Qed.

Lemma spent_weaken delay n k n' k' w w' :
  (n ≤ n')%nat → (k ≤ k')%nat → spent delay n k w w' → spent delay n' k' w w'.
Proof.
  intros Hn Hk (sent & waits & Hsent & Hwaits & Hn' & Hk').
  exists sent, waits. split; [exact Hsent|]. split; [exact Hwaits|]. lia.
Qed.

Lemma request_spent delay method endpoint payload options w :
  spent delay 1 0 w (dispatch (request method endpoint payload options) w).2.
Proof.
  pose proof (request_cases method endpoint payload options w) as Hcases.
  cbv zeta in Hcases.
  destruct Hcases as [(_ & _ & _ & Hsleeps & _)
                      [(_ & _ & Hrequests) | (req & _ & Hrequests & _)]].
  - exists [], 0%nat. auto.
  - exists [req], 0%nat. auto.
Qed.

Lemma poll_spent delay ceiling poll w :
  bounded_poll delay ceiling poll → spent delay ceiling ceiling w (poll w).2.
Proof.
  intros Hpoll.
  destruct (Hpoll w) as (waits & sent & Hsleeps & Hrequests & Hwaits & Hsent & _).
  exists sent, waits. auto.
Qed.

Lemma waitForMediaProcessing_bounded containerId :
  bounded_poll 2000 30 (PostsTools.waitForMediaProcessing containerId None).
Proof.
  unfold PostsTools.waitForMediaProcessing.
  rewrite waitForMediaProcessing_loop_poll. cbn [default].
  apply poll_loop_bounded;
    [intros w; apply get_frame | intros result w; split; reflexivity].
Qed.

Lemma waitForVideoProcessing_bounded containerId :
  bounded_poll 3000 60 (ReelsTools.waitForVideoProcessing containerId None).
Proof.
  unfold ReelsTools.waitForVideoProcessing.
  rewrite waitForVideoProcessing_loop_poll. cbn [default].
  apply poll_loop_bounded;
    [intros w; apply get_frame | intros result w; split; reflexivity].
Qed.

Ltac publish_and_fetch delay Hsofar :=
  lazymatch goal with
  | |- context [InstagramClient.post ?e ?p ?o ?w2] =>
      let H3 := fresh "H3" in
      let H123 := fresh "H123" in
      pose proof (request_spent delay POST e p o w2) as H3;
      cbn [request dispatch] in H3;
      destruct (InstagramClient.post e p o w2) as [? ?];
      cbn [snd] in H3;
      pose proof (spent_trans _ _ _ _ _ _ _ _ Hsofar H3) as H123;
      match goal with
      | |- context [unusable ?result] => destruct (unusable result)
      end;
      [ cbn [snd]; eapply spent_weaken; [| |exact H123]; lia
      | lazymatch goal with
        | |- context [InstagramClient.get ?e' ?p' ?o' ?w3] =>
            let H4 := fresh "H4" in
            pose proof (request_spent delay GET e' p' o' w3) as H4;
            cbn [request dispatch] in H4;
            destruct (InstagramClient.get e' p' o' w3) as [? ?];
            cbn [snd] in H4 |- *;
            eapply spent_weaken;
              [| |exact (spent_trans _ _ _ _ _ _ _ _ H123 H4)]; lia
        end ]
  end.

(** X23.  Creating content has a bounded cost.  From any world and
    whatever the transport does: [createPost] hands at most 3 requests to
    the transport and never waits for an image, and at most 33 requests
    with at most 30 waits of 2000 ms for a video; [createReel] hands at
    most 63 requests with at most 60 waits of 3000 ms; and without a
    business account id both return the [CONFIG_ERROR] failure and leave
    the world as it was. *)
Theorem content_creation_is_bounded
    (post : CreatePostParams.t) (reel : CreateReelParams.t) (w : World) :
  let video := is_video_url (CreatePostParams.media_url post) in
  spent 2000 (if video then 33 else 3) (if video then 30 else 0)
    w (PostsTools.createPost post w).2 ∧
  spent 3000 63 60 w (ReelsTools.createReel reel w).2 ∧
  (InstagramAuth.truthy (InstagramAuth.getBusinessAccountId w) = false →
   PostsTools.createPost post w = (config_error, w) ∧
   ReelsTools.createReel reel w = (config_error, w)).
Proof.
  intros video. subst video.
  unfold PostsTools.createPost, ReelsTools.createReel.
  unfold mbind, mret, M_bind, M_ret, gets.
  destruct (InstagramAuth.truthy (InstagramAuth.getBusinessAccountId w));
    cbn [negb].
  2:{ split; [|split; [|auto]].
      - apply (spent_weaken _ 0 0); [lia | lia | apply spent_refl].
      - apply (spent_weaken _ 0 0); [lia | lia | apply spent_refl]. }
  set (account := default "" (InstagramAuth.getBusinessAccountId w)).
  split; [|split; [|discriminate]].
  - pose proof (request_spent 2000 POST ("/" ++ account ++ "/media")
                  (Some (PostsTools.createPost_containerData post))
                  (RequestOptions.mk None (Some content_publish)) w) as H1.
    cbn [request dispatch] in H1.
    destruct (InstagramClient.post _ _ _ w) as [containerResult w1].
    cbn [snd] in H1.
    destruct (unusable containerResult).
    { cbn [snd]. apply (spent_weaken _ 1 0);
        [destruct (is_video_url _); lia | lia | exact H1]. }
    destruct (is_video_url (CreatePostParams.media_url post)).
    + pose proof (poll_spent 2000 30 _ w1
                    (waitForMediaProcessing_bounded
                       (Js.to_string (data_prop "id" containerResult)))) as H2.
      destruct (PostsTools.waitForMediaProcessing _ _ w1) as [processed w2].
      cbn [snd] in H2.
      pose proof (spent_trans _ _ _ _ _ _ _ _ H1 H2) as H12.
      publish_and_fetch 2000 H12.
    + publish_and_fetch 2000 H1.
  - pose proof (request_spent 3000 POST ("/" ++ account ++ "/media")
                  (Some (ReelsTools.createReel_reelData reel))
                  (RequestOptions.mk None (Some content_publish)) w) as H1.
    cbn [request dispatch] in H1.
    destruct (InstagramClient.post _ _ _ w) as [containerResult w1].
    cbn [snd] in H1.
    destruct (unusable containerResult).
    { cbn [snd]. apply (spent_weaken _ 1 0); [lia | lia | exact H1]. }
    pose proof (poll_spent 3000 60 _ w1
                  (waitForVideoProcessing_bounded
                     (Js.to_string (data_prop "id" containerResult)))) as H2.
    destruct (ReelsTools.waitForVideoProcessing _ _ w1) as [processed w2].
    cbn [snd] in H2.
    pose proof (spent_trans _ _ _ _ _ _ _ _ H1 H2) as H12.
    destruct processed; cbn [negb].
    2:{ cbn [snd]. eapply spent_weaken; [| |exact H12]; lia. }
    publish_and_fetch 3000 H12.
Qed.

Lemma content_creation_is_bounded_witness :
  let w :=
    with_config (InstagramConfig.mk (Some "token") None "v18.0" None true)
      (client_world no_content) in
  let post :=
    CreatePostParams.mk "https://example.com/a.jpg" None None None None in
  let reel :=
    CreateReelParams.mk "https://example.com/reel.mp4" None None true
      None None None None in
  InstagramAuth.truthy (InstagramAuth.getBusinessAccountId w) = false ∧
  PostsTools.createPost post w = (config_error, w) ∧
  ReelsTools.createReel reel w = (config_error, w).
Proof.
  split; [reflexivity|].
  exact (proj2 (proj2 (content_creation_is_bounded
                         (CreatePostParams.mk "https://example.com/a.jpg"
                            None None None None)
                         (CreateReelParams.mk "https://example.com/reel.mp4"
                            None None true None None None None)
                         (with_config
                            (InstagramConfig.mk (Some "token") None "v18.0"
                               None true)
                            (client_world no_content))))
           eq_refl).
Defined.
